(** * asciify: image to ASCII-art conversion (main.go)

    A shallow embedding of the conversion pipeline of [main.go]: the
    luminance calculator, the nearest-neighbour sampler [resize], the
    dimension resolver [parseResize] with the scale override of [main], the
    glyph lookup and the text assembly loops of [main].

    Modelling conventions.
    - Go [int] and [uint32] values are [Z]; [uint8] values are [Byte.byte].
      The subtractions of [Rectangle.Size] wrap as [int] arithmetic does;
      the other [int] operations of the program (the loop counters and
      [y+1]) stay in range.
    - Go [float64] is Rocq's primitive binary64 [float]: every operation is
      rounded to nearest-even on its own (no fused multiply-add). Facts
      about all floats go through the specification [spec_float] of the
      primitive operations.
    - Go strings are byte sequences: [string] over [ascii].
    - A panic is the [Panic] result. The conversion is modelled from the
      decoded image and the parsed options ([main_text]); the whole of
      [main] is modelled over what [flags.Parse] returned and a [System]
      that stands for [os.Open], the two decoders and [ioutil.WriteFile],
      recording the calls of the outside as a list of effects.
    - [image.NewNRGBA] panics as the library does when the size of the
      pixel buffer is negative or does not fit an [int]; an allocation
      that passes this check succeeds: memory limits are not modelled. *)

From Stdlib Require Import ZArith QArith Qabs Floats Lia.
From Stdlib.Strings Require Import Byte Ascii String.
From Stdlib Require Uint63.
From stdpp Require Import base list strings gmap.

Set Warnings "-inexact-float".
Local Open Scope Z_scope.

(** ** Results of code that may panic *)

Inductive num_err := ErrSyntax | ErrRange.

Inductive error :=
| InvalidResizeValue (value : string)
| NumError (func num : string) (err : num_err)
| UnknownCharacterSet (name : string)
| IndexOutOfRange (index length : Z)
| HugeOrNegativeDimensions.

Inductive result (T : Type) :=
| Ok (v : T)
| Panic (e : error).
Arguments Ok {T} v.
Arguments Panic {T} e.

Definition bind {T U : Type} (r : result T) (k : T -> result U) : result U :=
  match r with
  | Ok v => k v
  | Panic e => Panic e
  end.

Notation "x <-! r ; k" := (bind r (fun x => k))
  (at level 100, r at next level, right associativity).

(** [for i := 0; i < n; i++ { body }] over a state that the body may
    abandon by panicking. *)
Fixpoint run_loop {S : Type} (body : Z -> S -> result S) (l : list Z) (s : S)
  : result S :=
  match l with
  | [] => Ok s
  | i :: l' => s' <-! body i s; run_loop body l' s'
  end.

Definition for_lt {S : Type} (n : Z) (body : Z -> S -> result S) (s : S)
  : result S :=
  run_loop body (seqZ 0 n) s.

(** ** Machine numbers *)

Definition min_int : Z := - 2 ^ 63.
Definition max_int : Z := 2 ^ 63 - 1.

(** The [int] with the low 64 bits of [z]: the result of [int] arithmetic
    whose exact result is [z], and of the conversion [int(z)] of a
    [uint64]. *)
Definition wrap_int (z : Z) : Z := (z + 2 ^ 63) mod 2 ^ 64 - 2 ^ 63.

(** [uint64(z)] of an [int]. *)
Definition uint64 (z : Z) : Z := z mod 2 ^ 64.

(** [bits.Mul64]: the high and the low half of the 128-bit product. *)
Definition Mul64 (x y : Z) : Z * Z := ((x * y) / 2 ^ 64, (x * y) mod 2 ^ 64).

Definition uint32 (z : Z) : Z := z mod 2 ^ 32.

Definition uint8 (z : Z) : byte :=
  default x00 (Byte.of_N (Z.to_N (z mod 256))).

Definition byteZ (b : byte) : Z := Z.of_N (Byte.to_N b).

(** [float64(z)] for an integer [z] with [|z| < 2^63]. *)
Definition float64_of_int (z : Z) : float :=
  if z <? 0 then (- of_uint63 (Uint63.of_Z (- z)))%float
  else of_uint63 (Uint63.of_Z z).

(** The integer part of a finite binary64 value [(-1)^s * m * 2^e]. *)
Definition trunc_finite (s : bool) (m : positive) (e : Z) : Z :=
  let t := if 0 <=? e then Z.pos m * 2 ^ e else Z.pos m / 2 ^ (- e) in
  if s then - t else t.

(** [int(x)] on the value [x] of a binary64 number: truncation toward zero.
    For a NaN, an infinity or a value outside the range of [int] the Go
    specification leaves the result to the implementation; the model takes
    amd64's, the minimum [int]. *)
Definition SF2int (x : spec_float) : Z :=
  match x with
  | S754_zero _ => 0
  | S754_finite s m e =>
      let v := trunc_finite s m e in
      if (min_int <=? v) && (v <=? max_int) then v else min_int
  | _ => min_int
  end.

Definition int_of_float64 (f : float) : Z := SF2int (Prim2SF f).

(** The exact value of a binary64 number, as a rational (0 for NaN and the
    infinities, which have none). *)
Definition SF2Q (x : spec_float) : Q :=
  match x with
  | S754_finite s m e =>
      let q := if 0 <=? e then inject_Z (Z.pos m * 2 ^ e)
               else Z.pos m # (2 ^ Z.to_pos (- e)) in
      if s then Qopp q else q
  | _ => 0%Q
  end.

Definition float64_Q (f : float) : Q := SF2Q (Prim2SF f).

(** ** Package image/color *)

Module color.

(** [color.NRGBA]: non-alpha-premultiplied 8-bit channels. *)
Record NRGBA := { R : byte; G : byte; B : byte; A : byte }.

(** A [color.Color] value. The program observes a colour in two ways
    only: the type assertion to [NRGBA] in the NRGBA model, and the
    [RGBA] method. Every implementation other than [NRGBA] is therefore
    given by the four [uint32] values its [RGBA] method returns. *)
Inductive Color :=
| OfNRGBA (c : NRGBA)
| Other (r g b a : Z).

(** [func (c NRGBA) RGBA() (r, g, b, a uint32)]. The products stay below
    [2^32]. *)
Definition NRGBA_channel (v a : byte) : Z :=
  (Z.lor (byteZ v) (Z.shiftl (byteZ v) 8) * byteZ a) / 255.

Definition NRGBA_RGBA (c : NRGBA) : Z * Z * Z * Z :=
  (NRGBA_channel (R c) (A c), NRGBA_channel (G c) (A c),
   NRGBA_channel (B c) (A c), Z.lor (byteZ (A c)) (Z.shiftl (byteZ (A c)) 8)).

Definition RGBA (c : Color) : Z * Z * Z * Z :=
  match c with
  | OfNRGBA c => NRGBA_RGBA c
  | Other r g b a => (r, g, b, a)
  end.

(** [nrgbaModel], the conversion behind [NRGBAModel.Convert]. *)
Definition nrgbaModel (c : Color) : NRGBA :=
  match c with
  | OfNRGBA c => c
  | Other r g b a =>
      if a =? 65535 then
        {| R := uint8 (Z.shiftr r 8); G := uint8 (Z.shiftr g 8);
           B := uint8 (Z.shiftr b 8); A := xff |}
      else if a =? 0 then
        {| R := x00; G := x00; B := x00; A := x00 |}
      else
        let r := uint32 (r * 65535) / a in
        let g := uint32 (g * 65535) / a in
        let b := uint32 (b * 65535) / a in
        {| R := uint8 (Z.shiftr r 8); G := uint8 (Z.shiftr g 8);
           B := uint8 (Z.shiftr b 8); A := uint8 (Z.shiftr a 8) |}
  end.

End color.

(** ** Package image *)

Module image.

Record Point := { X : Z; Y : Z }.
Record Rectangle := { Min : Point; Max : Point }.

(** [image.Rect]: the corners are swapped where needed, so that the
    rectangle is well formed. *)
Definition Rect (x0 y0 x1 y1 : Z) : Rectangle :=
  {| Min := {| X := Z.min x0 x1; Y := Z.min y0 y1 |};
     Max := {| X := Z.max x0 x1; Y := Z.max y0 y1 |} |}.

(** [r.Dx()], [r.Dy()] and [r.Size()]: differences of [int]s, which
    wrap. *)
Definition Dx (r : Rectangle) : Z := wrap_int (X (Max r) - X (Min r)).
Definition Dy (r : Rectangle) : Z := wrap_int (Y (Max r) - Y (Min r)).

Definition Size (r : Rectangle) : Point := {| X := Dx r; Y := Dy r |}.

(** [Point{x, y}.In(r)]. *)
Definition In (x y : Z) (r : Rectangle) : bool :=
  (X (Min r) <=? x) && (x <? X (Max r)) && (Y (Min r) <=? y) && (y <? Y (Max r)).

(** The [image.Image] interface, as far as the program uses it. *)
Record Image := { Bounds : Rectangle; At : Z -> Z -> color.Color }.

(** [*image.NRGBA]. The pixel buffer is kept as a finite map from
    coordinates to pixels; a pixel never written is the zero value of the
    freshly allocated buffer. *)
Record NRGBA := { Pix : gmap (Z * Z) color.NRGBA; NRGBA_Rect : Rectangle }.

Definition zero_pixel : color.NRGBA :=
  {| color.R := x00; color.G := x00; color.B := x00; color.A := x00 |}.

(** [mul3NonNeg]: the product [x*y*z], or -1 if an argument is negative or
    the product does not fit an [int]. *)
Definition mul3NonNeg (x y z : Z) : Z :=
  if (x <? 0) || (y <? 0) || (z <? 0) then -1
  else
    let '(hi, lo) := Mul64 (uint64 x) (uint64 y) in
    if negb (hi =? 0) then -1
    else
      let '(hi, lo) := Mul64 lo (uint64 z) in
      if negb (hi =? 0) then -1
      else
        let a := wrap_int lo in
        if (a <? 0) || negb (uint64 a =? lo) then -1 else a.

(** [pixelBufferLength]: the length of the pixel buffer of an image with
    bounds [r], with the panic of the library when there is none. *)
Definition pixelBufferLength (bytesPerPixel : Z) (r : Rectangle) : result Z :=
  let totalLength := mul3NonNeg bytesPerPixel (Dx r) (Dy r) in
  if totalLength <? 0 then Panic HugeOrNegativeDimensions else Ok totalLength.

(** The image with bounds [r] whose buffer is all zero. *)
Definition blank (r : Rectangle) : NRGBA := {| Pix := ∅; NRGBA_Rect := r |}.

(** [image.NewNRGBA]: it panics instead of allocating when the buffer has
    no length. *)
Definition NewNRGBA (r : Rectangle) : result NRGBA :=
  totalLength <-! pixelBufferLength 4 r;
  Ok (blank r).

Definition NRGBA_Set (p : NRGBA) (x y : Z) (c : color.Color) : NRGBA :=
  if In x y (NRGBA_Rect p)
  then {| Pix := <[(x, y) := color.nrgbaModel c]> (Pix p);
          NRGBA_Rect := NRGBA_Rect p |}
  else p.

Definition NRGBA_At (p : NRGBA) (x y : Z) : color.NRGBA :=
  if In x y (NRGBA_Rect p)
  then default zero_pixel (Pix p !! (x, y))
  else zero_pixel.

(** An [*image.NRGBA] seen through the [Image] interface. *)
Definition as_Image (p : NRGBA) : Image :=
  {| Bounds := NRGBA_Rect p;
     At := fun x y => color.OfNRGBA (NRGBA_At p x y) |}.

End image.

(** ** Packages strings, strconv and fmt *)

Definition len (s : string) : Z := Z.of_nat (String.length s).

(** [s[i]] with its bounds check. *)
Definition string_index (s : string) (i : Z) : result ascii :=
  if (0 <=? i) && (i <? len s) then
    match String.get (Z.to_nat i) s with
    | Some c => Ok c
    | None => Panic (IndexOutOfRange i (len s))
    end
  else Panic (IndexOutOfRange i (len s)).

(** The text before and after the first byte ["x"] of [s], if there is one. *)
Fixpoint cut_x (s : string) : option (string * string) :=
  match s with
  | EmptyString => None
  | String c s' =>
      if Ascii.eqb c "x" then Some (EmptyString, s')
      else match cut_x s' with
           | Some (before, after) => Some (String c before, after)
           | None => None
           end
  end.

(** [strings.SplitN(s, "x", 2)]. *)
Definition SplitN_x_2 (s : string) : list string :=
  match cut_x s with
  | Some (before, after) => [before; after]
  | None => [s]
  end.

Definition is_digit (c : ascii) : bool :=
  (48 <=? Z.of_nat (nat_of_ascii c)) && (Z.of_nat (nat_of_ascii c) <=? 57).

(** The digit loop of [strconv.ParseUint] in base 10 with [bitSize] 32: [n]
    is the value read so far. *)
Fixpoint ParseUint_loop (s : string) (n : Z) : num_err + Z :=
  match s with
  | EmptyString => inr n
  | String c s' =>
      if is_digit c then
        let d := Z.of_nat (nat_of_ascii c) - 48 in
        if (2 ^ 64 - 1) / 10 + 1 <=? n then inl ErrRange
        else
          let n1 := n * 10 + d in
          if 2 ^ 32 - 1 <? n1 then inl ErrRange
          else ParseUint_loop s' n1
      else inl ErrSyntax
  end.

(** [strconv.ParseUint(s, 10, 32)]. *)
Definition ParseUint_10_32 (s : string) : error + Z :=
  match s with
  | EmptyString => inl (NumError "ParseUint" s ErrSyntax)
  | _ =>
      match ParseUint_loop s 0 with
      | inl e => inl (NumError "ParseUint" s e)
      | inr n => inr n
      end
  end.

(** [fmt.Sprintf("%c", char)] for a byte [char]: the UTF-8 encoding of the
    code point with that number. *)
Definition Sprintf_c (char : ascii) : string :=
  let n := Z.of_nat (nat_of_ascii char) in
  if n <? 128 then String char EmptyString
  else
    String (ascii_of_nat (Z.to_nat (Z.lor 192 (Z.shiftr n 6))))
      (String (ascii_of_nat (Z.to_nat (Z.lor 128 (Z.land n 63)))) EmptyString).

Definition newline : string := String "010" EmptyString.

(** [strings.Join]: the lines with [sep] between them. *)
Fixpoint Join (lines : list string) (sep : string) : string :=
  match lines with
  | [] => EmptyString
  | [l] => l
  | l :: rest => l +:+ sep +:+ Join rest sep
  end.

(** ** main.go *)

Definition ascii_ramp : string :=
  ".'`^" +:+ String "034"
    ",:;Il!i><~+_-?][}{1)(|\/tfjrxnuvczXYUJCLQ0OZmwqpdbkhao*#MW&8%B@$".

Definition ChararacterSets : gmap string string :=
  {[ "ascii" := ascii_ramp ]}.

Record Options := {
  Verbose : bool;
  Output : string;
  Resize : string;
  Charset : string;
  Scale : float
}.

Definition MaxUint16 : float := 65535%float.

(** [func luminance(color color.Color) float64] *)
Definition luminance (c : color.Color) : float :=
  let '(r, g, b, _) := color.RGBA c in
  let red := (float64_of_int r / MaxUint16)%float in
  let green := (float64_of_int g / MaxUint16)%float in
  let blue := (float64_of_int b / MaxUint16)%float in
  (0.299 * red + 0.587 * green + 0.114 * blue)%float.

(** The source coordinate computed for target coordinate [x] on an axis of
    target length [width] and source length [input]:
    [int((float64(x) / float64(width)) * float64(input))]. *)
Definition source_coord (x width input : Z) : Z :=
  int_of_float64
    (float64_of_int x / float64_of_int width * float64_of_int input)%float.

(** The body of the loops of [resize]. *)
Definition resize_pixel (img : image.Image) (width height x y : Z)
    (output : image.NRGBA) : image.NRGBA :=
  let inputBounds := image.Size (image.Bounds img) in
  let ix := source_coord x width (image.X inputBounds) in
  let iy := source_coord y height (image.Y inputBounds) in
  image.NRGBA_Set output x y (image.At img ix iy).

(** The coordinates at which the loops of [resize] run their body, in
    order: [x] in the outer loop, [y] in the inner one. *)
Definition resize_points (width height : Z) : list (Z * Z) :=
  x ← seqZ 0 width; y ← seqZ 0 height; [(x, y)].

(** The two loops of [resize], on the allocated [output]. *)
Definition resize_loops (img : image.Image) (width height : Z)
    (output : image.NRGBA) : image.NRGBA :=
  foldl (fun output '(x, y) => resize_pixel img width height x y output)
    output (resize_points width height).

(** [func resize(img image.Image, width, height int) image.Image] *)
Definition resize (img : image.Image) (width height : Z) : result image.NRGBA :=
  output <-! image.NewNRGBA (image.Rect 0 0 width height);
  Ok (resize_loops img width height output).

(** The pixel that [resize] stores at [(x, y)]. *)
Definition sampled (img : image.Image) (width height x y : Z) : color.NRGBA :=
  let inputBounds := image.Size (image.Bounds img) in
  color.nrgbaModel
    (image.At img (source_coord x width (image.X inputBounds))
       (source_coord y height (image.Y inputBounds))).

(** [func parseResize(value string, img image.Image) (int, int, error)] *)
Definition parseResize (value : string) (img : image.Image)
  : error + Z * Z :=
  if len value <? 1 then
    let size := image.Size (image.Bounds img) in
    inr (image.X size, image.Y size)
  else
    match SplitN_x_2 value with
    | [first; second] =>
        match ParseUint_10_32 first with
        | inl err => inl err
        | inr width =>
            match ParseUint_10_32 second with
            | inl err => inl err
            | inr height => inr (width, height)
            end
        end
    | _ => inl (InvalidResizeValue value)
    end.

(** The target dimensions [ow], [oh] of [main]: [parseResize], then the
    override by a non-zero scale. *)
Definition target_dimensions (opts : Options) (img : image.Image)
  : result (Z * Z) :=
  match parseResize (Resize opts) img with
  | inl err => Panic err
  | inr (ow, oh) =>
      if negb (Scale opts =? 0)%float then
        let size := image.Size (image.Bounds img) in
        Ok (int_of_float64 (float64_of_int (image.X size) * Scale opts)%float,
            int_of_float64 (float64_of_int (image.Y size) * Scale opts)%float)
      else Ok (ow, oh)
  end.

(** The index expression of the glyph lookup:
    [int(float64(len(charset)) * lum)]. *)
Definition glyph_index (charset : string) (lum : float) : Z :=
  int_of_float64 (float64_of_int (len charset) * lum)%float.

(** [charset[int(float64(len(charset))*lum)]] *)
Definition glyph (charset : string) (lum : float) : result ascii :=
  string_index charset (glyph_index charset lum).

(** The loops of [main] that fill the buffer [result]. *)
Definition render_pixel (charset : string) (processedImg : image.Image)
    (x y : Z) (buf : string) : result string :=
  let lum := luminance (image.At processedImg x y) in
  char <-! glyph charset lum;
  Ok (buf +:+ Sprintf_c char).

Definition render_row (charset : string) (processedImg : image.Image)
    (ow oh y : Z) (buf : string) : result string :=
  buf <-! for_lt ow (fun x => render_pixel charset processedImg x y) buf;
  if negb (y + 1 =? oh) then Ok (buf +:+ newline) else Ok buf.

Definition render (charset : string) (processedImg : image.Image)
    (ow oh : Z) : result string :=
  for_lt oh (render_row charset processedImg ow oh) EmptyString.

(** [main], from the lookup of the character set to the filled buffer. *)
Definition main_text (opts : Options) (img : image.Image) : result string :=
  match ChararacterSets !! Charset opts with
  | None => Panic (UnknownCharacterSet (Charset opts))
  | Some charset =>
      dims <-! target_dimensions opts img;
      let '(ow, oh) := dims in
      processedImg <-! resize img ow oh;
      render charset (image.as_Image processedImg) ow oh
  end.

(** ** Vocabulary of the proofs *)

(** *** Rounding in the specification of binary64 *)

Abbreviation fexp64 := (SpecFloat.fexp prec emax).
Abbreviation round_aux64 := (binary_round_aux prec emax).

(** The record after [k] right shifts of the exact mantissa [m]: the
    quotient, the round bit and the sticky bit. *)
Definition shifted (m : Z) (k : nat) : shr_record :=
  let P := 2 ^ Z.of_nat k in
  Build_shr_record (m / P) (P <=? 2 * (m mod P))
    (negb (m mod P =? 0) && negb (2 * (m mod P) =? P)).

(** The shifted mantissa rounded to nearest, ties to even. *)
Definition rne (m : Z) (k : nat) : Z :=
  round_nearest_even (shr_m (shifted m k)) (loc_of_shr_record (shifted m k)).


(** The value [m * 2^e] in units of [2^-1074], the smallest positive
    binary64 number. *)
Definition units (m e : Z) : Z := m * 2 ^ (e + 1074).

(** [x] is a zero or a positive finite number of value at most
    [mc * 2^ec]. *)
Definition nonneg_le (x : spec_float) (mc ec : Z) : Prop :=
  match x with
  | S754_zero _ => True
  | S754_finite false m e => -1074 <= e /\ units (Z.pos m) e <= units mc ec
  | _ => False
  end.

(** A decision procedure for [nonneg_le] that keeps the numbers small. *)
Definition nonneg_leb (x : spec_float) (mc ec : Z) : bool :=
  match x with
  | S754_zero _ => true
  | S754_finite false m e =>
      (-1074 <=? e) && (-1074 <=? ec) &&
      (if e <=? ec then Z.pos m <=? mc * 2 ^ (ec - e)
       else Z.pos m * 2 ^ (e - ec) <=? mc)
  | _ => false
  end.

(** *** Checks over a range of integers *)

(** [f] holds on [start], [start + 1], ..., [n] numbers in all. *)
Fixpoint forall_range (f : Z -> bool) (start : Z) (n : nat) : bool :=
  match n with
  | O => true
  | S n' => if f start then forall_range f (start + 1) n' else false
  end.

(** One weighted channel of [luminance]: [w * (float64(v) / MaxUint16)]. *)
Definition weighted (w : float) (v : Z) : float :=
  (w * (float64_of_int v / MaxUint16))%float.

Definition weighted_leb (w : float) (mc ec v : Z) : bool :=
  nonneg_leb (Prim2SF (weighted w v)) mc ec.

(** The luminance of the gray sample with 16-bit channel value [v]. *)
Definition gray_luminance (v : Z) : float := luminance (color.Other v v v 65535).

(** The luminance of gray [v] is within [2^-51] of [v / 65535], and within
    [2^-52] of the normalised channel as the code computes it. *)
Definition gray_close (v : Z) : bool :=
  Qle_bool (Qabs (float64_Q (gray_luminance v) - (v # 65535))) (1 # 2 ^ 51) &&
  Qle_bool (Qabs (float64_Q (gray_luminance v) -
                  float64_Q (float64_of_int v / MaxUint16)%float)) (1 # 2 ^ 52).

(** *** Text *)

(** The number of characters of a UTF-8 text: the bytes that do not
    continue a character. *)
Fixpoint rune_count (s : string) : nat :=
  match s with
  | EmptyString => O
  | String c s' =>
      if Z.land (Z.of_nat (nat_of_ascii c)) 192 =? 128 then rune_count s'
      else S (rune_count s')
  end.

Fixpoint has_x (s : string) : bool :=
  match s with
  | EmptyString => false
  | String c s' => Ascii.eqb c "x" || has_x s'
  end.

Fixpoint all_digits (s : string) : bool :=
  match s with
  | EmptyString => true
  | String c s' => is_digit c && all_digits s'
  end.

(** A decimal numeral: at least one character, digits only. *)
Definition numeric (s : string) : bool :=
  match s with
  | EmptyString => false
  | _ => all_digits s
  end.

(** A dimension spec that is given but malformed: no ["x"] in it, or a
    width (the text before the first ["x"]) or a height (the text after it)
    that is not a decimal numeral. *)
Definition malformed (value : string) : Prop :=
  value <> EmptyString /\
  (has_x value = false \/
   exists width height, value = width +:+ "x" +:+ height /\
     has_x width = false /\ (numeric width = false \/ numeric height = false)).

(** The target sizes, of either sign, that [image.NewNRGBA] accepts for
    the rectangle from the origin to [(w, h)]: its sides are [|w|] and
    [|h|], and the buffer holds [4 * |w| * |h|] bytes, an [int]. *)
Definition fits (w h : Z) : Prop :=
  Z.abs w < 2 ^ 62 /\ Z.abs h < 2 ^ 63 /\ 4 * Z.abs w * Z.abs h < 2 ^ 63.

(** *** The formulas of the specification *)

Definition clamp (i lo hi : Z) : Z := Z.max lo (Z.min i hi).

(** [floor(x * Ws / Wt)] *)
Definition floor_coord (x Wt Ws : Z) : Z := x * Ws / Wt.

(** *** Sample inputs *)

Definition gray_pixel (v : byte) : color.Color :=
  color.OfNRGBA {| color.R := v; color.G := v; color.B := v; color.A := xff |}.

(** An 8-bit sample with the given channels and alpha, not premultiplied. *)
Definition pixel (r g b a : byte) : color.Color :=
  color.OfNRGBA {| color.R := r; color.G := g; color.B := b; color.A := a |}.

(** An opaque 8-bit image of the given size whose pixel at [(x, y)] has red
    [x] and green [y]. *)
Definition gradient (w h : Z) : image.Image :=
  {| image.Bounds := image.Rect 0 0 w h;
     image.At := fun x y =>
       color.OfNRGBA {| color.R := uint8 x; color.G := uint8 y;
                        color.B := x00; color.A := xff |} |}.

Definition black_image (w h : Z) : image.Image :=
  {| image.Bounds := image.Rect 0 0 w h; image.At := fun _ _ => gray_pixel x00 |}.

Definition options (resize : string) (scale : float) : Options :=
  {| Verbose := false; Output := EmptyString; Resize := resize;
     Charset := "ascii"; Scale := scale |}.

(** ** The rest of [main]: arguments, input and output *)

(** [strings.HasSuffix] *)
Definition HasSuffix (s suffix : string) : bool :=
  Nat.leb (String.length suffix) (String.length s) &&
  String.eqb
    (substring (String.length s - String.length suffix) (String.length suffix) s)
    suffix.

(** What [flags.Parse] returned: the positional arguments and the filled
    options, or an error, with what [flags.WroteHelp] says of it. *)
Inductive parsed :=
| Parsed (args : list string) (opts : Options)
| ParseError (wrote_help : bool) (err : string).

(** The file system and the decoders as [main] calls them: [os.Open]
    (giving the content of the file), [png.Decode], [jpeg.Decode] and
    [ioutil.WriteFile]. An error of theirs is kept as its message. *)
Record System := {
  os_Open : string -> string + string;
  png_Decode : string -> string + image.Image;
  jpeg_Decode : string -> string + image.Image;
  ioutil_WriteFile : string -> string -> Z -> option string
}.

(** The values [main] panics with. *)
Inductive cause :=
| ErrNoInput
| UnknownImageFormat (name : string)
| Raised (e : error)
| External (err : string).

(** The lines written when [Verbose] is set. *)
Inductive message :=
| FoundCharacterSet (name : string) (characters : Z)
| OpenedInput (name : string)
| ParsedInput
| ResizedImage (from to : image.Point)
| WroteOutput (name : string).

(** What [main] does to the outside, in order: a verbose line, the text
    with a line feed on standard output, a call of [ioutil.WriteFile]. *)
Inductive effect :=
| Log (m : message)
| Println (text : string)
| WriteFile (name data : string) (perm : Z).

Inductive exit := Returned | Panicked (c : cause).

(** Code that performs effects and may panic. *)
Definition action (T : Type) : Type := list effect * (cause + T).

Definition ret {T : Type} (v : T) : action T := ([], inr v).
Definition panic {T : Type} (c : cause) : action T := ([], inl c).
Definition emit (e : effect) : action unit := ([e], inr tt).

Definition and_then {T U : Type} (a : action T) (k : T -> action U) : action U :=
  match a with
  | (effects, inl c) => (effects, inl c)
  | (effects, inr v) => let '(more, r) := k v in (effects ++ more, r)
  end.

Notation "x <~ a ; k" := (and_then a (fun x => k))
  (at level 100, a at next level, right associativity).

Definition when (b : bool) (a : action unit) : action unit :=
  if b then a else ret tt.

(** [if err != nil { panic(err) }] after a call of the outside. *)
Definition check {T : Type} (r : string + T) : action T :=
  match r with
  | inl err => panic (External err)
  | inr v => ret v
  end.

(** A panic of the conversion itself. *)
Definition lift {T : Type} (r : result T) : action T :=
  match r with
  | Ok v => ret v
  | Panic e => panic (Raised e)
  end.

Definition main_body (sys : System) (cmd : parsed) : action unit :=
  match cmd with
  | ParseError wrote_help err => if wrote_help then ret tt else panic (External err)
  | Parsed [] _ => panic ErrNoInput
  | Parsed (name :: _) opts =>
      if negb (HasSuffix name ".png") && negb (HasSuffix name ".jpg")
         && negb (HasSuffix name ".jpeg")
      then panic (UnknownImageFormat name)
      else
        match ChararacterSets !! Charset opts with
        | None => panic (Raised (UnknownCharacterSet (Charset opts)))
        | Some charset =>
            _ <~ when (Verbose opts)
                   (emit (Log (FoundCharacterSet (Charset opts) (len charset))));
            f <~ check (os_Open sys name);
            _ <~ when (Verbose opts) (emit (Log (OpenedInput name)));
            img <~ check (if HasSuffix name ".png" then png_Decode sys f
                          else jpeg_Decode sys f);
            _ <~ when (Verbose opts) (emit (Log ParsedInput));
            dims <~ lift (target_dimensions opts img);
            let '(ow, oh) := dims in
            processedImg <~ lift (resize img ow oh);
            _ <~ when (Verbose opts)
                   (emit (Log (ResizedImage (image.Size (image.Bounds img))
                                 (image.Size (image.NRGBA_Rect processedImg)))));
            text <~ lift (render charset (image.as_Image processedImg) ow oh);
            if 0 <? len (Output opts) then
              let outFile := name +:+ ".txt" in
              let outFile := if 0 <? len (Output opts) then Output opts else outFile in
              _ <~ emit (WriteFile outFile text 511);
              _ <~ match ioutil_WriteFile sys outFile text 511 with
                   | Some err => panic (External err)
                   | None => ret tt
                   end;
              when (Verbose opts) (emit (Log (WroteOutput outFile)))
            else emit (Println text)
        end
  end.

(** [func main()]: the effects of a run and how it ends. *)
Definition main (sys : System) (cmd : parsed) : list effect * exit :=
  let '(effects, r) := main_body sys cmd in
  (effects, match r with inl c => Panicked c | inr _ => Returned end).

(** *** More vocabulary *)

(** A mantissa [q] with the position [l] of the discarded part written as
    two more bits: the exact mantissa with the same rounding. *)
Definition loc_bits (q : positive) (l : location) : positive :=
  match l with
  | loc_Exact => q~0~0
  | loc_Inexact Lt => q~0~1
  | loc_Inexact Eq => q~1~0
  | loc_Inexact Gt => q~1~1
  end.

(** The value of a zero or a positive finite number in units of [2^-1074]
    (0 for every other number). *)
Definition uval (x : spec_float) : Z :=
  match x with
  | S754_finite false m e => units (Z.pos m) e
  | _ => 0
  end.

(** [x] is a zero or a positive finite number, with an exponent in range. *)
Definition nonneg_finite (x : spec_float) : Prop :=
  match x with
  | S754_zero _ => True
  | S754_finite false m e => -1074 <= e
  | _ => False
  end.

(** One step of the check that a weighted channel does not decrease with
    the channel value. *)
Definition weighted_step (w : float) (v : Z) : bool :=
  match Prim2SF (weighted w (v + 1)) with
  | S754_finite false m e => nonneg_leb (Prim2SF (weighted w v)) (Z.pos m) e
  | _ => false
  end.

(** Every byte of [s] satisfies [P]. *)
Fixpoint every_byte (P : ascii -> Prop) (s : string) : Prop :=
  match s with
  | EmptyString => True
  | String c s' => P c /\ every_byte P s'
  end.

Fixpoint all_bytes (f : ascii -> bool) (s : string) : bool :=
  match s with
  | EmptyString => true
  | String c s' => f c && all_bytes f s'
  end.

(** [c] is one of the bytes of [s]. *)
Definition byte_of (s : string) (c : ascii) : Prop :=
  exists i, String.get i s = Some c.

Definition is_ascii (c : ascii) : bool := Z.of_nat (nat_of_ascii c) <? 128.

(** A byte that the text assembly may write with the ramp [charset]: the
    line separator or a byte of the ramp. *)
Definition output_byte (charset : string) (c : ascii) : Prop :=
  c = "010"%char \/ byte_of charset c.

(** The number that the decimal digits of [s] denote after digits that
    denote [n]. *)
Fixpoint decimal_acc (s : string) (n : Z) : Z :=
  match s with
  | EmptyString => n
  | String c s' => decimal_acc s' (n * 10 + (Z.of_nat (nat_of_ascii c) - 48))
  end.

Definition decimal_value (s : string) : Z := decimal_acc s 0.

(** The name ends in one of the three suffixes that [main] accepts. *)
Definition supported (name : string) : bool :=
  HasSuffix name ".png" || HasSuffix name ".jpg" || HasSuffix name ".jpeg".

(** The effects other than the verbose lines. *)
Definition is_output (e : effect) : bool :=
  match e with
  | Log _ => false
  | _ => true
  end.

Definition with_jpeg_Decode (sys : System) (d : string -> string + image.Image)
  : System :=
  {| os_Open := os_Open sys; png_Decode := png_Decode sys; jpeg_Decode := d;
     ioutil_WriteFile := ioutil_WriteFile sys |}.

Definition with_png_Decode (sys : System) (d : string -> string + image.Image)
  : System :=
  {| os_Open := os_Open sys; png_Decode := d; jpeg_Decode := jpeg_Decode sys;
     ioutil_WriteFile := ioutil_WriteFile sys |}.

(** A file system with every file but ["missing.png"], a PNG decoder that
    returns a 4x4 image and a JPEG decoder that fails. *)
Definition sample_system : System :=
  {| os_Open := fun name => if String.eqb name "missing.png" then inl "no such file"
                            else inr "data";
     png_Decode := fun _ => inr (gradient 4 4);
     jpeg_Decode := fun _ => inl "invalid JPEG format";
     ioutil_WriteFile := fun _ _ _ => None |}.

(** * Properties *)

(** ** Rounding to nearest in binary64 *)

Lemma digits2_pos_bounds (p : positive) :
  2 ^ (Z.pos (digits2_pos p) - 1) <= Z.pos p < 2 ^ Z.pos (digits2_pos p).
Proof.
  induction p as [p IH | p IH |]; cbn [digits2_pos].
  - pose proof (Pos2Z.is_pos (digits2_pos p)) as Hd.
    rewrite Pos2Z.inj_succ, (Pos2Z.inj_xI p).
    replace (Z.succ (Z.pos (digits2_pos p)) - 1)
      with (Z.succ (Z.pos (digits2_pos p) - 1)) by lia.
    rewrite !Z.pow_succ_r by lia.
    revert IH. generalize (2 ^ (Z.pos (digits2_pos p) - 1)).
    generalize (2 ^ Z.pos (digits2_pos p)). intros a b IH. lia.
  - pose proof (Pos2Z.is_pos (digits2_pos p)) as Hd.
    rewrite Pos2Z.inj_succ, (Pos2Z.inj_xO p).
    replace (Z.succ (Z.pos (digits2_pos p)) - 1)
      with (Z.succ (Z.pos (digits2_pos p) - 1)) by lia.
    rewrite !Z.pow_succ_r by lia.
    revert IH. generalize (2 ^ (Z.pos (digits2_pos p) - 1)).
    generalize (2 ^ Z.pos (digits2_pos p)). intros a b IH. lia.
  - cbn. lia.
Qed.

Lemma iter_pos_nat {A : Type} (f : A -> A) (p : positive) (x : A) :
  SpecFloat.iter_pos f p x = Nat.iter (Pos.to_nat p) f x.
Proof.
  revert x. induction p as [p IH | p IH |]; intros x; cbn [SpecFloat.iter_pos].
  - rewrite !IH, Pos2Nat.inj_xI.
    replace (S (2 * Pos.to_nat p))%nat with (Pos.to_nat p + (Pos.to_nat p + 1))%nat by lia.
    rewrite !Nat.iter_add. reflexivity.
  - rewrite !IH, Pos2Nat.inj_xO.
    replace (2 * Pos.to_nat p)%nat with (Pos.to_nat p + Pos.to_nat p)%nat by lia.
    rewrite Nat.iter_add. reflexivity.
  - reflexivity.
Qed.

Lemma shr_1_nonneg (m : Z) (r s : bool) :
  0 <= m ->
  shr_1 (Build_shr_record m r s) = Build_shr_record (m / 2) (Z.odd m) (r || s).
Proof.
  intros Hm. destruct m as [| p | p]; [reflexivity | | lia].
  destruct p as [p | p |]; cbn [shr_1].
  - f_equal. rewrite (Pos2Z.inj_xI p). apply Z.div_unique with 1; lia.
  - f_equal. rewrite (Pos2Z.inj_xO p). apply Z.div_unique with 0; lia.
  - reflexivity.
Qed.

Lemma shr_iter (m : Z) (k : nat) :
  0 <= m ->
  Nat.iter k shr_1 (Build_shr_record m false false) = shifted m k.
Proof.
  intros Hm. induction k as [| k IH].
  - unfold shifted. change (2 ^ Z.of_nat 0) with 1. cbn [Nat.iter nat_rect].
    rewrite Z.div_1_r, Z.mod_1_r. reflexivity.
  - rewrite Nat.iter_succ, IH. unfold shifted.
    rewrite Nat2Z.inj_succ, Z.pow_succ_r by lia.
    set (P := 2 ^ Z.of_nat k).
    assert (HP : 0 < P) by (apply Z.pow_pos_nonneg; lia).
    rewrite shr_1_nonneg by (apply Z.div_pos; lia).
    assert (Hq : m / (2 * P) = m / P / 2).
    { rewrite (Z.mul_comm 2 P). symmetry. apply Z.div_div; lia. }
    assert (Hr : m mod (2 * P) = m mod P + P * ((m / P) mod 2)).
    { rewrite (Z.mul_comm 2 P). rewrite Z.rem_mul_r by lia. lia. }
    rewrite Hq, Hr.
    pose proof (Z.mod_pos_bound m P HP) as Hb.
    pose proof (Z.mod_pos_bound (m / P) 2 ltac:(lia)) as Hb2.
    rewrite Zodd_mod.
    f_equal.
    + destruct (Z.eqb_spec ((m / P) mod 2) 1) as [E | E];
        [rewrite E | assert (E0 : (m / P) mod 2 = 0) by lia; rewrite E0];
        symmetry; [apply Z.leb_le | apply Z.leb_gt]; lia.
    + destruct (Z.eqb_spec ((m / P) mod 2) 1) as [E | E];
        [rewrite E | assert (E0 : (m / P) mod 2 = 0) by lia; rewrite E0].
      * destruct (Z.leb_spec P (2 * (m mod P)));
        destruct (Z.eqb_spec (m mod P) 0); destruct (Z.eqb_spec (2 * (m mod P)) P);
        destruct (Z.eqb_spec (m mod P + P * 1) 0);
        destruct (Z.eqb_spec (2 * (m mod P + P * 1)) (2 * P)); cbn; try reflexivity; lia.
      * destruct (Z.leb_spec P (2 * (m mod P)));
        destruct (Z.eqb_spec (m mod P) 0); destruct (Z.eqb_spec (2 * (m mod P)) P);
        destruct (Z.eqb_spec (m mod P + P * 0) 0);
        destruct (Z.eqb_spec (2 * (m mod P + P * 0)) (2 * P)); cbn; try reflexivity; lia.
Qed.

Lemma rne_bounds (m : Z) (k : nat) :
  0 <= m -> m / 2 ^ Z.of_nat k <= rne m k <= m / 2 ^ Z.of_nat k + 1.
Proof.
  intros Hm. unfold rne, shifted. cbn [shr_m loc_of_shr_record].
  destruct (_ <=? _), (negb _ && negb _); cbn [round_nearest_even];
    try destruct (Z.even _); lia.
Qed.

Lemma rne_upper (m : Z) (k : nat) (K : Z) :
  0 <= m ->
  2 * m < (2 * K + 1) * 2 ^ Z.of_nat k \/
  (2 * m = (2 * K + 1) * 2 ^ Z.of_nat k /\ Z.even K = true) ->
  rne m k <= K.
Proof.
  intros Hm HK. unfold rne, shifted. cbn [shr_m loc_of_shr_record].
  set (P := 2 ^ Z.of_nat k) in *.
  assert (HP : 0 < P) by (apply Z.pow_pos_nonneg; lia).
  pose proof (Z.div_mod m P ltac:(lia)) as Hdm.
  pose proof (Z.mod_pos_bound m P HP) as Hb.
  set (q := m / P) in *. set (r := m mod P) in *.
  assert (Hq : q <= K) by nia.
  destruct (Z.leb_spec P (2 * r)) as [Hr | Hr];
    destruct (Z.eqb_spec r 0) as [Hz | Hz];
    destruct (Z.eqb_spec (2 * r) P) as [Ht | Ht];
    cbn [negb andb round_nearest_even]; try lia.
  - (* tie *)
    destruct (Z.even q) eqn:Ev; [lia |].
    destruct HK as [HK | [HK Ek]]; [nia |].
    assert (q = K) by nia. subst q. congruence.
  - destruct HK as [HK | [HK Ek]]; nia.
Qed.

Lemma shr_exact (m e n : Z) :
  0 <= m -> 0 <= n ->
  shr (Build_shr_record m false false) e n = (shifted m (Z.to_nat n), e + n).
Proof.
  intros Hm Hn. destruct n as [| p | p]; [| | lia].
  - cbn [shr]. change (Z.to_nat 0) with 0%nat.
    rewrite <- (shr_iter m 0 Hm). cbn [Nat.iter nat_rect].
    f_equal. lia.
  - cbn [shr]. change (Z.to_nat (Z.pos p)) with (Pos.to_nat p).
    rewrite iter_pos_nat, shr_iter by exact Hm. reflexivity.
Qed.

Lemma shr_exact_le (m e n : Z) :
  0 <= m ->
  exists j, 0 <= j /\ (n <= 0 -> j = 0) /\ (0 <= n -> j = n) /\
    shr (Build_shr_record m false false) e n =
      (Build_shr_record (m / 2 ^ j) (shr_r (fst (shr (Build_shr_record m false false) e n)))
         (shr_s (fst (shr (Build_shr_record m false false) e n))), e + j).
Proof.
  intros Hm. destruct (Z.le_gt_cases 0 n) as [Hn | Hn].
  - exists n. rewrite shr_exact by assumption. unfold shifted. cbn [fst shr_r shr_s].
    rewrite Z2Nat.id by assumption. repeat split; try lia.
  - exists 0. destruct n as [| p | p]; try lia. cbn [shr fst shr_r shr_s].
    rewrite Z.div_1_r, Z.add_0_r. repeat split; lia.
Qed.

Lemma Zdigits2_pow_le (q : Z) :
  0 < q -> 2 ^ (Zdigits2 q - 1) <= q.
Proof.
  intros Hq. destruct q as [| p | p]; try lia. cbn [Zdigits2].
  apply digits2_pos_bounds.
Qed.

Lemma pow2_lt_inv (a b : Z) : 0 <= a -> 2 ^ a < 2 ^ b -> a < b.
Proof.
  intros Ha H. destruct (Z.lt_ge_cases a b) as [L | L]; [exact L |].
  destruct (Z.lt_ge_cases b 0) as [Hb | Hb].
  - rewrite (Z.pow_neg_r 2 b) in H by lia.
    pose proof (Z.pow_pos_nonneg 2 a ltac:(lia) Ha). lia.
  - pose proof (Z.pow_le_mono_r 2 b a ltac:(lia) L). lia.
Qed.

(** Rounding an exact positive mantissa: the result lies on the grid of
    exponent [E] and does not exceed [K] grid units, whenever the value is
    below the midpoint above [K] (or on it, with [K] even). *)
Lemma round_aux_upper (s : bool) (m : positive) (e K : Z) :
  let E := fexp64 (Z.pos (digits2_pos m) + e) in
  e <= E -> E <= 971 -> K < 2 ^ (1024 - E) ->
  2 * Z.pos m < (2 * K + 1) * 2 ^ (E - e) \/
  (2 * Z.pos m = (2 * K + 1) * 2 ^ (E - e) /\ Z.even K = true) ->
  round_aux64 s (Z.pos m) e loc_Exact = S754_zero s \/
  exists m' e', round_aux64 s (Z.pos m) e loc_Exact = S754_finite s m' e' /\
    E <= e' /\ Z.pos m' * 2 ^ (e' - E) <= K.
Proof.
  intros E HeE HE HK Hmid.
  unfold binary_round_aux, shr_fexp. cbn [Zdigits2 shr_record_of_loc].
  fold E.
  rewrite shr_exact by lia.
  replace (e + (E - e)) with E by lia.
  set (k := Z.to_nat (E - e)).
  change (round_nearest_even (shr_m (shifted (Z.pos m) k))
            (loc_of_shr_record (shifted (Z.pos m) k))) with (rne (Z.pos m) k).
  assert (Hk : Z.of_nat k = E - e) by (unfold k; lia).
  pose proof (rne_bounds (Z.pos m) k ltac:(lia)) as [Hlo _].
  assert (Hq0 : 0 <= rne (Z.pos m) k).
  { etransitivity; [| exact Hlo]. apply Z.div_pos; [lia | apply Z.pow_pos_nonneg; lia]. }
  assert (HqK : rne (Z.pos m) k <= K).
  { apply rne_upper; [lia | rewrite Hk; exact Hmid]. }
  set (q := rne (Z.pos m) k) in *. clearbody q.
  destruct (shr_exact_le q E (fexp64 (Zdigits2 q + E) - E) Hq0)
    as (j & Hj0 & Hjneg & Hjpos & Hshr).
  rewrite Hshr. cbn [shr_m].
  assert (HP : 0 < 2 ^ j) by (apply Z.pow_pos_nonneg; lia).
  pose proof (Z.mul_div_le q (2 ^ j) HP) as Hmd.
  pose proof (Z.div_pos q (2 ^ j) Hq0 HP) as Hd0.
  destruct (q / 2 ^ j) as [| mq | mq] eqn:Eq; [left; reflexivity | | lia].
  right.
  assert (Hqpos : 0 < q) by (destruct (Z.eq_dec q 0) as [-> |]; [rewrite Z.div_0_l in Eq by lia; discriminate | lia]).
  assert (Hdig : Zdigits2 q + E <= 1024).
  { pose proof (Zdigits2_pow_le q Hqpos) as Hp.
    assert (Hd1 : 0 < Zdigits2 q) by (destruct q; cbn; lia).
    assert (2 ^ (Zdigits2 q - 1) < 2 ^ (1024 - E)) by lia.
    apply pow2_lt_inv in H; lia. }
  assert (Hj : E + j <= 971).
  { destruct (Z.le_gt_cases 0 (fexp64 (Zdigits2 q + E) - E)) as [Hc | Hc].
    - rewrite (Hjpos Hc). unfold SpecFloat.fexp, emin, prec, emax in *. lia.
    - rewrite (Hjneg ltac:(lia)). lia. }
  change (Z.sub emax prec) with 971.
  destruct (Z.leb_spec (E + j) 971) as [_ | Hbad]; [| lia].
  exists mq, (E + j). split; [reflexivity |]. split; [lia |].
  replace (E + j - E) with j by lia. lia.
Qed.

Lemma round_aux_exact (s : bool) (m : positive) (e : Z) :
  fexp64 (Z.pos (digits2_pos m) + e) = e -> e <= 971 ->
  round_aux64 s (Z.pos m) e loc_Exact = S754_finite s m e.
Proof.
  intros HE He.
  unfold binary_round_aux, shr_fexp. cbn [Zdigits2 shr_record_of_loc].
  rewrite HE, Z.sub_diag. cbn [shr shr_m loc_of_shr_record round_nearest_even Zdigits2].
  rewrite HE, Z.sub_diag. cbn [shr shr_m].
  change (Z.sub emax prec) with 971.
  destruct (Z.leb_spec e 971); [reflexivity | lia].
Qed.


Lemma iter_xO_value (m d : positive) :
  Z.pos (Pos.iter xO m d) = Z.pos m * 2 ^ Z.pos d.
Proof.
  induction d as [| d IH] using Pos.peano_ind.
  - cbn [Pos.iter]. rewrite (Pos2Z.inj_xO m). change (2 ^ 1) with 2. lia.
  - rewrite Pos.iter_succ, (Pos2Z.inj_xO (Pos.iter xO m d)), IH, Pos2Z.inj_succ, Z.pow_succ_r by lia.
    lia.
Qed.

Lemma iter_xO_digits (m d : positive) :
  Z.pos (digits2_pos (Pos.iter xO m d)) = Z.pos (digits2_pos m) + Z.pos d.
Proof.
  induction d as [| d IH] using Pos.peano_ind.
  - cbn [Pos.iter digits2_pos]. lia.
  - rewrite Pos.iter_succ. cbn [digits2_pos]. rewrite Pos2Z.inj_succ, IH. lia.
Qed.

(** [shl_align] keeps the value and the sum of digits and exponent, and
    lowers the exponent to [e'] when it is above. *)
Lemma shl_align_spec (m : positive) (e e' : Z) :
  exists mz ez, shl_align m e e' = (mz, ez) /\
    ez = Z.min e e' /\
    Z.pos mz = Z.pos m * 2 ^ (e - ez) /\
    Z.pos (digits2_pos mz) + ez = Z.pos (digits2_pos m) + e.
Proof.
  unfold shl_align. destruct (e' - e) as [| d | d] eqn:Hd.
  - exists m, e. rewrite Z.sub_diag. change (2 ^ 0) with 1.
    repeat split; lia.
  - exists m, e. rewrite Z.sub_diag. change (2 ^ 0) with 1.
    repeat split; lia.
  - exists (Pos.iter xO m d), e'. rewrite iter_xO_value, iter_xO_digits.
    replace (e - e') with (Z.pos d) by lia.
    repeat split; lia.
Qed.

Lemma binary_round_aux_form (s : bool) (m : positive) (e : Z) :
  exists mz ez,
    binary_round prec emax s m e = round_aux64 s (Z.pos mz) ez loc_Exact /\
    ez = Z.min e (fexp64 (Z.pos (digits2_pos m) + e)) /\
    Z.pos mz = Z.pos m * 2 ^ (e - ez) /\
    Z.pos (digits2_pos mz) + ez = Z.pos (digits2_pos m) + e.
Proof.
  unfold binary_round.
  destruct (shl_align_spec m e (fexp64 (Z.pos (digits2_pos m) + e)))
    as (mz & ez & -> & H1 & H2 & H3).
  exists mz, ez. auto.
Qed.


Lemma pow2_pos (a : Z) : 0 <= a -> 0 < 2 ^ a.
Proof. intros. apply Z.pow_pos_nonneg; lia. Qed.

Lemma pow2_split (a b : Z) : 0 <= a -> 0 <= b -> 2 ^ (a + b) = 2 ^ a * 2 ^ b.
Proof. intros. apply Z.pow_add_r; assumption. Qed.

Lemma fexp64_eq (k : Z) : fexp64 k = Z.max (k - 53) (-1074).
Proof. reflexivity. Qed.

Lemma round_aux_nonneg_le (m : positive) (e mc ec : Z) :
  -1074 <= e -> e <= fexp64 (Z.pos (digits2_pos m) + e) ->
  -1074 <= ec <= 971 -> 2 ^ 52 <= mc < 2 ^ 53 ->
  2 * units (Z.pos m) e < (2 * mc + 1) * 2 ^ (ec + 1074) \/
  (2 * units (Z.pos m) e = (2 * mc + 1) * 2 ^ (ec + 1074) /\ Z.even mc = true) ->
  nonneg_le (round_aux64 false (Z.pos m) e loc_Exact) mc ec.
Proof.
  intros He HeE Hec Hmc Hmid.
  pose proof (digits2_pos_bounds m) as [Hdlo Hdhi].
  set (d := Z.pos (digits2_pos m)) in *.
  assert (Hd : 0 < d) by (unfold d; lia).
  set (E := fexp64 (d + e)) in *.
  assert (HEdef : E = Z.max (d + e - 53) (-1074)) by reflexivity.
  assert (Hres := round_aux_upper false m e). cbv zeta in Hres. fold d in Hres. fold E in Hres.
  clearbody E. clearbody d.
  (* the value is below 2^(ec + 53) *)
  assert (HEec : E <= ec).
  { assert (Hlt : 2 ^ (d - 1 + (e + 1074)) < 2 ^ (53 + (ec + 1074))).
    { rewrite (pow2_split (d - 1)), (pow2_split 53) by lia. unfold units in Hmid.
      pose proof (pow2_pos (e + 1074) ltac:(lia)) as HA.
      pose proof (pow2_pos (ec + 1074) ltac:(lia)) as HC.
      assert (H1 : 2 ^ (d - 1) * 2 ^ (e + 1074) <= Z.pos m * 2 ^ (e + 1074))
        by (apply Z.mul_le_mono_nonneg_r; lia).
      assert (H2 : (2 * mc + 1) * 2 ^ (ec + 1074) < 2 * 2 ^ 53 * 2 ^ (ec + 1074))
        by (apply Z.mul_lt_mono_pos_r; lia).
      lia. }
    apply pow2_lt_inv in Hlt; lia. }
  set (al := e + 1074). set (be := E - e). set (ga := ec - E).
  assert (Hal : 0 <= al) by (unfold al; lia).
  assert (Hbe : 0 <= be) by (unfold be; lia).
  assert (Hga : 0 <= ga) by (unfold ga; lia).
  pose proof (pow2_pos al Hal) as HA. pose proof (pow2_pos be Hbe) as HB.
  pose proof (pow2_pos ga Hga) as HC.
  assert (Hu : units (Z.pos m) e = Z.pos m * 2 ^ al) by reflexivity.
  assert (Hc : 2 ^ (ec + 1074) = 2 ^ al * 2 ^ be * 2 ^ ga).
  { replace (ec + 1074) with (al + be + ga) by (unfold al, be, ga; lia).
    rewrite !pow2_split by lia. reflexivity. }
  rewrite Hu, Hc in Hmid.
  assert (Hmidgrid :
    2 * Z.pos m < (2 * (mc * 2 ^ ga) + 1) * 2 ^ be \/
    (2 * Z.pos m = (2 * (mc * 2 ^ ga) + 1) * 2 ^ be /\ Z.even (mc * 2 ^ ga) = true)).
  { destruct (Z.eq_dec ga 0) as [G0 | G0].
    - rewrite G0 in *. change (2 ^ 0) with 1 in *. rewrite !Z.mul_1_r in *.
      destruct Hmid as [Hm | [Hm Hev]]; [left | right; split; [| exact Hev]]; nia.
    - left.
      assert (Hm53 : Z.pos m < 2 ^ be * 2 ^ 53).
      { assert (d <= be + 53) by (unfold be; lia).
        rewrite <- pow2_split by lia.
        eapply Z.lt_le_trans; [exact Hdhi |]. apply Z.pow_le_mono_r; lia. }
      assert (HC2 : 2 <= 2 ^ ga).
      { change 2 with (2 ^ 1) at 1. apply Z.pow_le_mono_r; lia. }
      assert (H3 : 2 ^ 53 <= mc * 2 ^ ga).
      { change (2 ^ 53) with (2 ^ 52 * 2).
        apply Z.mul_le_mono_nonneg; lia. }
      assert (H4 : 2 ^ be * 2 ^ 53 <= 2 ^ be * (mc * 2 ^ ga))
        by (apply Z.mul_le_mono_nonneg_l; lia).
      revert Hm53 H4 HB. generalize (mc * 2 ^ ga). generalize (2 ^ be).
      generalize (2 ^ 53). intros; nia. }
  destruct (Hres (mc * 2 ^ ga)) as [-> | (m' & e' & -> & He' & Hle)].
  - lia.
  - lia.
  - apply Z.lt_le_trans with (2 ^ 53 * 2 ^ ga); [nia |].
    rewrite <- pow2_split by lia. apply Z.pow_le_mono_r; unfold ga; lia.
  - exact Hmidgrid.
  - exact I.
  - cbn [nonneg_le]. split; [lia |].
    unfold units.
    replace (e' + 1074) with ((e' - E) + (al + be)) by (unfold al, be; lia).
    replace (ec + 1074) with (ga + (al + be)) by (unfold al, be, ga; lia).
    rewrite (pow2_split (e' - E)), (pow2_split ga), (pow2_split al) by lia.
    nia.
Qed.

Lemma units_shift (m e e0 : Z) :
  -1074 <= e0 -> e0 <= e -> units (m * 2 ^ (e - e0)) e0 = units m e.
Proof.
  intros H0 H1. unfold units.
  replace (e + 1074) with ((e - e0) + (e0 + 1074)) by lia.
  rewrite (pow2_split (e - e0)) by lia. ring.
Qed.

Lemma binary_round_nonneg_le (M : positive) (ez mc ec : Z) :
  -1074 <= ez -> -1074 <= ec <= 971 -> 2 ^ 52 <= mc < 2 ^ 53 ->
  2 * units (Z.pos M) ez < (2 * mc + 1) * 2 ^ (ec + 1074) \/
  (2 * units (Z.pos M) ez = (2 * mc + 1) * 2 ^ (ec + 1074) /\ Z.even mc = true) ->
  nonneg_le (binary_round prec emax false M ez) mc ec.
Proof.
  intros Hez Hec Hmc Hmid.
  destruct (binary_round_aux_form false M ez) as (mz & ez2 & -> & He2 & Hmz & Hdig).
  assert (HE : -1074 <= fexp64 (Z.pos (digits2_pos M) + ez)).
  { rewrite fexp64_eq. lia. }
  assert (Hu : units (Z.pos mz) ez2 = units (Z.pos M) ez).
  { rewrite Hmz. apply units_shift; lia. }
  apply round_aux_nonneg_le; try assumption; try lia.
  - rewrite Hdig. lia.
  - rewrite Hu. exact Hmid.
Qed.

(** The sum of two non-negative numbers bounded by [ma * 2^ea] and
    [mb * 2^eb] is bounded by the binary64 number [mc * 2^ec] to which the
    sum of the bounds rounds. *)
Lemma add_nonneg_le (x y : spec_float) (ma ea mb eb mc ec : Z) :
  nonneg_le x ma ea -> nonneg_le y mb eb ->
  -1074 <= ec <= 971 -> 2 ^ 52 <= mc < 2 ^ 53 ->
  units ma ea <= units mc ec -> units mb eb <= units mc ec ->
  2 * (units ma ea + units mb eb) < (2 * mc + 1) * 2 ^ (ec + 1074) \/
  (2 * (units ma ea + units mb eb) = (2 * mc + 1) * 2 ^ (ec + 1074) /\
   Z.even mc = true) ->
  nonneg_le (SF64add x y) mc ec.
Proof.
  intros Hx Hy Hec Hmc Hac Hbc Hmid.
  destruct x as [sx | sx | | sx mx ex]; try contradiction;
    destruct y as [sy | sy | | sy my ey]; try contradiction.
  - destruct sx, sy; exact I.
  - destruct sy; [contradiction |]. destruct Hy as [Hey Hy].
    unfold SF64add, SFadd. cbn [nonneg_le]. split; lia.
  - destruct sx; [contradiction |]. destruct Hx as [Hex Hx].
    unfold SF64add, SFadd. cbn [nonneg_le]. split; lia.
  - destruct sx; [contradiction |]. destruct sy; [contradiction |].
    destruct Hx as [Hex Hx]. destruct Hy as [Hey Hy].
    unfold SF64add, SFadd.
    destruct (shl_align_spec mx ex (Z.min ex ey)) as (mx' & ex' & Ex & Hex' & Hmx' & _).
    destruct (shl_align_spec my ey (Z.min ex ey)) as (my' & ey' & Ey & Hey' & Hmy' & _).
    rewrite Ex, Ey. cbn [fst cond_Zopp Z.add binary_normalize].
    apply binary_round_nonneg_le; try assumption; try lia.
    assert (Hsum : units (Z.pos (mx' + my')) (Z.min ex ey) =
                   units (Z.pos mx) ex + units (Z.pos my) ey).
    { rewrite Pos2Z.inj_add, Hmx', Hmy'.
      replace ex' with (Z.min ex ey) by lia. replace ey' with (Z.min ex ey) by lia.
      rewrite <- (units_shift (Z.pos mx) ex (Z.min ex ey)) by lia.
      rewrite <- (units_shift (Z.pos my) ey (Z.min ex ey)) by lia.
      unfold units. ring. }
    rewrite Hsum.
    destruct Hmid as [Hm | [Hm Hev]]; [left; lia |].
    destruct (Z.eq_dec (units (Z.pos mx) ex + units (Z.pos my) ey)
                (units ma ea + units mb eb)) as [Heq | Hne].
    + right. split; [lia | exact Hev].
    + left. lia.
Qed.

Lemma nonneg_leb_sound (x : spec_float) (mc ec : Z) :
  nonneg_leb x mc ec = true -> nonneg_le x mc ec.
Proof.
  destruct x as [s | s | | s m e]; cbn [nonneg_leb nonneg_le];
    try discriminate; [trivial |].
  destruct s; [discriminate |].
  rewrite !andb_true_iff, !Z.leb_le. intros [[He Hec] H]. split; [exact He |].
  destruct (Z.leb_spec e ec) as [L | L]; apply Z.leb_le in H.
  - rewrite <- (units_shift mc ec e) by lia. unfold units.
    apply Z.mul_le_mono_nonneg_r; [apply Z.lt_le_incl, pow2_pos; lia | exact H].
  - rewrite <- (units_shift (Z.pos m) e ec) by lia. unfold units.
    apply Z.mul_le_mono_nonneg_r; [apply Z.lt_le_incl, pow2_pos; lia | exact H].
Qed.


Lemma Prim2SF_of_int_pos (N : Z) :
  0 < N < 2 ^ 53 ->
  exists mN eN, Prim2SF (float64_of_int N) = S754_finite false mN eN /\
    -52 <= eN <= 0 /\ Z.pos mN = N * 2 ^ (- eN) /\
    Z.pos (digits2_pos mN) = 53.
Proof.
  intros HN. unfold float64_of_int.
  destruct (Z.ltb_spec N 0) as [L | _]; [lia |].
  rewrite of_uint63_spec, Uint63.of_Z_spec.
  rewrite Z.mod_small by (change Uint63.wB with (2 ^ 63); split; [lia |];
    eapply Z.lt_trans; [apply HN | reflexivity]).
  destruct N as [| n | n]; try lia. cbn [binary_normalize].
  destruct (binary_round_aux_form false n 0) as (mz & ez & -> & Hez & Hmz & Hdig).
  pose proof (digits2_pos_bounds n) as [Hlo Hhi].
  set (d := Z.pos (digits2_pos n)) in *.
  assert (Hd : 0 < d <= 53).
  { split; [unfold d; lia |].
    assert (H : 2 ^ (d - 1) < 2 ^ 53) by lia.
    apply pow2_lt_inv in H; unfold d in *; lia. }
  rewrite Z.add_0_r, fexp64_eq in Hez.
  assert (Ez : ez = d - 53) by lia.
  exists mz, ez. split.
  - apply round_aux_exact; [| lia]. rewrite Hdig, Z.add_0_r, fexp64_eq. lia.
  - repeat split; try lia. rewrite Hmz. f_equal.
Qed.


(** Truncating a positive finite number that lies on the grid of exponent
    [E <= 0], at most [K] grid units up, where [K + 1] units make [N]. *)
Lemma trunc_below (m' : positive) (e' E K N : Z) :
  E <= 0 -> E <= e' -> 0 <= K -> K + 1 <= N * 2 ^ (- E) ->
  Z.pos m' * 2 ^ (e' - E) <= K ->
  0 <= trunc_finite false m' e' <= N - 1.
Proof.
  intros HE He' HK HKN Hle. unfold trunc_finite.
  assert (HN : 0 < N).
  { pose proof (pow2_pos (- E) ltac:(lia)). nia. }
  destruct (Z.leb_spec 0 e') as [P | P].
  - pose proof (pow2_pos e' P) as He.
    split; [nia |].
    assert (H : Z.pos m' * 2 ^ e' * 2 ^ (- E) < N * 2 ^ (- E)).
    { rewrite <- Z.mul_assoc, <- pow2_split by lia.
      replace (e' + - E) with (e' - E) by lia. lia. }
    apply Z.mul_lt_mono_pos_r in H; [lia | apply pow2_pos; lia].
  - pose proof (pow2_pos (- e') ltac:(lia)) as He.
    split; [apply Z.div_pos; lia |].
    assert (H : Z.pos m' / 2 ^ (- e') < N); [| lia].
    apply Z.div_lt_upper_bound; [exact He |].
    assert (H : Z.pos m' * 2 ^ (e' - E) < 2 ^ (- e') * N * 2 ^ (e' - E)).
    { replace (2 ^ (- e') * N * 2 ^ (e' - E)) with (N * (2 ^ (e' - E) * 2 ^ (- e'))) by ring.
      rewrite <- pow2_split by lia.
      replace (e' - E + - e') with (- E) by lia. lia. }
    apply Z.mul_lt_mono_pos_r in H; [lia | apply pow2_pos; lia].
Qed.

(** The product of the integer [N] (as a binary64 number) with a number
    below 1 truncates to an integer below [N]. *)
Lemma mul_trunc_below (mN mL : positive) (eN eL N : Z) :
  1 <= N -> -52 <= eN <= 0 -> Z.pos mN = N * 2 ^ (- eN) ->
  Z.pos (digits2_pos mN) = 53 ->
  -1074 <= eL -> units (Z.pos mL) eL <= units (2 ^ 53 - 1) (-53) ->
  let r := round_aux64 false (Z.pos (mN * mL)) (eN + eL) loc_Exact in
  0 <= SF2int r <= N - 1.
Proof.
  intros HN HeN HmN HdN HeL HL r.
  pose proof (digits2_pos_bounds mN) as [HNlo HNhi]. rewrite HdN in HNlo, HNhi.
  change (53 - 1) with 52 in HNlo.
  (* the second factor is below 1 *)
  assert (HeL0 : eL <= -1).
  { destruct (Z.le_gt_cases eL (-1)) as [L | L]; [exact L | exfalso].
    unfold units in HL. change (-53 + 1074) with 1021 in HL.
    assert (2 ^ 1074 <= 2 ^ (eL + 1074)) by (apply Z.pow_le_mono_r; lia).
    assert (2 ^ 1074 <= Z.pos mL * 2 ^ (eL + 1074)) by nia.
    assert ((2 ^ 53 - 1) * 2 ^ 1021 < 2 ^ 1074) by reflexivity. lia. }
  assert (HmL : 2 ^ 53 * Z.pos mL <= (2 ^ 53 - 1) * 2 ^ (- eL)).
  { unfold units in HL. change (-53 + 1074) with 1021 in HL.
    pose proof (pow2_pos (eL + 1074) ltac:(lia)) as HP.
    apply Z.mul_le_mono_pos_r with (2 ^ (eL + 1074)); [exact HP |].
    replace ((2 ^ 53 - 1) * 2 ^ (- eL) * 2 ^ (eL + 1074))
      with ((2 ^ 53 - 1) * (2 ^ (- eL) * 2 ^ (eL + 1074))) by ring.
    rewrite <- pow2_split by lia. replace (- eL + (eL + 1074)) with 1074 by lia.
    change (2 ^ 1074) with (2 ^ 53 * 2 ^ 1021). nia. }
  pose proof (pow2_pos (- eL) ltac:(lia)) as HPL.
  assert (HmL1 : Z.pos mL < 2 ^ (- eL)).
  { change (2 ^ 53) with 9007199254740992 in HmL. nia. }
  set (m := (mN * mL)%positive) in *. set (e := eN + eL) in *.
  assert (Hm : Z.pos m = Z.pos mN * Z.pos mL) by (unfold m; lia).
  pose proof (digits2_pos_bounds m) as [Hdlo Hdhi].
  assert (Hres := round_aux_upper false m e). cbv zeta in Hres.
  set (d := Z.pos (digits2_pos m)) in *.
  assert (Hd : 53 <= d).
  { assert (H : 2 ^ 52 < 2 ^ d) by nia. apply pow2_lt_inv in H; lia. }
  set (E := fexp64 (d + e)) in *.
  assert (HEdef : E = Z.max (d + e - 53) (-1074)) by reflexivity.
  clearbody E d. fold r in Hres.
  assert (H2d' : 2 ^ d = 2 * 2 ^ (d - 1)).
  { replace d with (1 + (d - 1)) at 1 by lia. rewrite pow2_split by lia. reflexivity. }
  assert (He : e <= -1) by (unfold e; lia).
  pose proof (pow2_pos (- e) ltac:(lia)) as HPe.
  assert (HNe : Z.pos mN * 2 ^ (- eL) = N * 2 ^ (- e)).
  { rewrite HmN. unfold e. replace (- (eN + eL)) with (- eN + - eL) by lia.
    rewrite pow2_split by lia. ring. }
  assert (HmNe : Z.pos m < N * 2 ^ (- e)) by (rewrite <- HNe; nia).
  destruct (Z.lt_ge_cases (2 * Z.pos m) (2 ^ (- e))) as [Small | Large].
  - (* below one half *)
    assert (Hde : d + e <= -1).
    { assert (H : 2 ^ d < 2 ^ (- e)) by lia.
      apply pow2_lt_inv in H; lia. }
    assert (HE1 : E <= -1) by lia.
    pose proof (pow2_pos (E - e) ltac:(lia)) as HPEe.
    pose proof (pow2_pos (-1 - E) ltac:(lia)) as HPK.
    destruct (Hres (2 ^ (-1 - E))) as [Hr | (m' & e' & Hr & He' & Hle)]; try lia.
    + apply Z.pow_lt_mono_r; lia.
    + left. replace (- e) with (1 + (-1 - E) + (E - e)) in Small by lia.
      rewrite !pow2_split in Small by lia. change (2 ^ 1) with 2 in Small. nia.
    + rewrite Hr. cbn [SF2int]. lia.
    + rewrite Hr. cbn [SF2int].
      assert (Ht : 0 <= trunc_finite false m' e' <= 1 - 1).
      { apply (trunc_below m' e' E (2 ^ (-1 - E))); try lia.
        replace (- E) with (1 + (-1 - E)) by lia. rewrite pow2_split by lia.
        change (2 ^ 1) with 2. lia. }
      replace (_ && _) with true; [lia |].
      symmetry. apply andb_true_iff. unfold min_int, max_int. split; apply Z.leb_le; lia.
  - (* normal range *)
    assert (Hde0 : 0 <= d + e).
    { assert (H : 2 ^ (- e) < 2 ^ (d + 1)).
      { rewrite pow2_split by lia. change (2 ^ 1) with 2. lia. }
      apply pow2_lt_inv in H; lia. }
    assert (Hde53 : d + e <= 53).
    { assert (H : 2 ^ (d - 1) < 2 ^ (53 + - e)).
      { rewrite pow2_split by lia.
        assert (N * 2 ^ (- e) < 2 ^ 53 * 2 ^ (- e)); [| lia].
        apply Z.mul_lt_mono_pos_r; [exact HPe |].
        (* N < 2^53 from its mantissa *)
        pose proof (pow2_pos (- eN) ltac:(lia)). nia. }
      apply pow2_lt_inv in H; lia. }
    assert (HEn : E = d + e - 53) by lia.
    assert (HE0 : E <= 0) by lia.
    pose proof (pow2_pos (- E) ltac:(lia)) as HPE.
    pose proof (pow2_pos (E - e) ltac:(lia)) as HPEe.
    assert (Hsplit : 2 ^ (- e) = 2 ^ (- E) * 2 ^ (E - e)).
    { rewrite <- pow2_split by lia. f_equal. lia. }
    assert (HKpos : 1 <= N * 2 ^ (- E)) by nia.
    destruct (Hres (N * 2 ^ (- E) - 1)) as [Hr | (m' & e' & Hr & He' & Hle)]; try lia.
    + assert (HN53 : N < 2 ^ 53) by (pose proof (pow2_pos (- eN) ltac:(lia)); nia).
      apply Z.lt_le_trans with (2 ^ 53 * 2 ^ (- E)); [nia |].
      rewrite <- pow2_split by lia. apply Z.pow_le_mono_r; lia.
    + left.
      replace ((2 * (N * 2 ^ (- E) - 1) + 1) * 2 ^ (E - e))
        with (2 * (N * 2 ^ (- e)) - 2 ^ (E - e)) by (rewrite Hsplit; ring).
      rewrite <- HNe.
      (* 2^(E - e) * 2^53 = 2^d <= 2m < 2 mN 2^(-eL) *)
      assert (H2d : 2 ^ (E - e) * 2 ^ 53 = 2 ^ d).
      { rewrite <- pow2_split by lia. f_equal. lia. }
      assert (Hstrict : 2 ^ d < 2 * (Z.pos mN * 2 ^ (- eL))) by nia.
      assert (Hmain : 2 ^ 53 * (2 * Z.pos m) <
                      2 ^ 53 * (2 * (Z.pos mN * 2 ^ (- eL)) - 2 ^ (E - e))).
      { rewrite Hm.
        assert (Z.pos mN * (2 ^ 53 * Z.pos mL) <= Z.pos mN * ((2 ^ 53 - 1) * 2 ^ (- eL)))
          by (apply Z.mul_le_mono_nonneg_l; lia).
        revert H H2d Hstrict. generalize (2 ^ (E - e)). generalize (2 ^ (- eL)).
        generalize (2 ^ d). generalize (2 ^ 53). intros; nia. }
      apply Z.mul_lt_mono_pos_l in Hmain; [exact Hmain | reflexivity].
    + rewrite Hr. cbn [SF2int]. lia.
    + rewrite Hr. cbn [SF2int].
      assert (Ht : 0 <= trunc_finite false m' e' <= N - 1).
      { apply (trunc_below m' e' E (N * 2 ^ (- E) - 1)); lia. }
      assert (HN53 : N < 2 ^ 53) by (pose proof (pow2_pos (- eN) ltac:(lia)); nia).
      replace (_ && _) with true; [lia |].
      symmetry. apply andb_true_iff. unfold min_int, max_int.
      split; apply Z.leb_le; [lia |].
      assert (2 ^ 53 < 2 ^ 63 - 1) by reflexivity. lia.
Qed.



Lemma Prim2SF_zero : Prim2SF 0 = S754_zero false.
Proof. reflexivity. Qed.

Lemma Prim2SF_one : Prim2SF 1 = S754_finite false 4503599627370496 (-52).
Proof. reflexivity. Qed.

Lemma below_one (L : float) :
  (0 <=? L)%float = true -> (L <? 1)%float = true ->
  nonneg_le (Prim2SF L) (2 ^ 53 - 1) (-53).
Proof.
  rewrite leb_spec, ltb_spec.
  rewrite Prim2SF_zero, Prim2SF_one.
  pose proof (Prim2SF_valid L) as Hv.
  destruct (Prim2SF L) as [s | s | | s m e]; cbn [nonneg_le]; try exact (fun _ _ => I).
  - destruct s; discriminate.
  - discriminate.
  - intros H0 H1. destruct s; [discriminate H0 |].
    cbn [valid_binary] in Hv. unfold bounded, canonical_mantissa in Hv.
    apply andb_true_iff in Hv. destruct Hv as [Hc _]. apply Z.eqb_eq in Hc.
    rewrite fexp64_eq in Hc.
    pose proof (digits2_pos_bounds m) as [Hlo Hhi].
    set (d := Z.pos (digits2_pos m)) in *.
    assert (Hd53 : d <= 53) by lia.
    assert (Hm53 : Z.pos m < 2 ^ 53).
    { eapply Z.lt_le_trans; [exact Hhi |]. apply Z.pow_le_mono_r; lia. }
    assert (He : e <= -53).
    { unfold SFltb, SFcompare in H1.
      destruct (Z.compare_spec e (-52)) as [E | E | E]; try discriminate H1; [| lia].
      exfalso. assert (Hd : d - 1 = 52) by lia.
      assert (Hm : Z.pos m < 2 ^ 52).
      { destruct (Pos.compare_cont Eq m 4503599627370496) eqn:C; try discriminate H1.
        exact C. }
      clear H1. rewrite Hd in Hlo. lia. }
    split; [lia |]. unfold units.
    apply Z.mul_le_mono_nonneg.
    + lia.
    + lia.
    + apply Z.lt_le_incl, pow2_pos; lia.
    + apply Z.pow_le_mono_r; lia.
Qed.

(** ** Exhaustive checks *)

Lemma forall_range_spec (f : Z -> bool) (n : nat) :
  forall start z,
    forall_range f start n = true -> start <= z < start + Z.of_nat n -> f z = true.
Proof.
  induction n as [| n IH]; intros start z H Hz; [lia |].
  cbn [forall_range] in H. destruct (f start) eqn:Hf; [| discriminate H].
  destruct (Z.eq_dec z start) as [-> | Hne]; [exact Hf |].
  apply (IH (start + 1)); [exact H | lia].
Qed.

Lemma forall_below (f : Z -> bool) (n z : Z) :
  forall_range f 0 (Z.to_nat n) = true -> 0 <= z < n -> f z = true.
Proof.
  intros H Hz. apply (forall_range_spec f (Z.to_nat n) 0 z H). lia.
Qed.

(** ** Colours *)

Lemma byteZ_range (b : byte) : 0 <= byteZ b <= 255.
Proof. unfold byteZ. pose proof (Byte.to_N_bounded b). lia. Qed.

Lemma lor_shift8 (v : Z) :
  0 <= v <= 255 -> Z.lor v (Z.shiftl v 8) = 257 * v.
Proof.
  intros Hv. apply Z.eqb_eq.
  apply (forall_below (fun v => Z.lor v (Z.shiftl v 8) =? 257 * v) 256);
    [vm_compute; reflexivity | lia].
Qed.

(** [RGBA] on an [NRGBA] colour returns 16-bit values. *)
Lemma NRGBA_channel_range (v a : byte) :
  0 <= color.NRGBA_channel v a <= 65535.
Proof.
  unfold color.NRGBA_channel.
  pose proof (byteZ_range v) as Hv. pose proof (byteZ_range a) as Ha.
  rewrite lor_shift8 by exact Hv. split.
  - apply Z.div_pos; nia.
  - apply Z.div_le_upper_bound; nia.
Qed.

(** ** The luminance calculator *)

Lemma luminance_channels (c : color.Color) (r g b a : Z) :
  color.RGBA c = (r, g, b, a) ->
  luminance c = (weighted 0.299 r + weighted 0.587 g + weighted 0.114 b)%float.
Proof. intros H. unfold luminance. rewrite H. reflexivity. Qed.

Lemma weighted_red (v : Z) :
  0 <= v <= 65535 ->
  nonneg_le (Prim2SF (weighted 0.299 v)) 5386305154335113 (-54).
Proof.
  intros Hv. apply nonneg_leb_sound.
  apply (forall_below (weighted_leb 0.299 5386305154335113 (-54)) 65536);
    [vm_compute; reflexivity | lia].
Qed.

Lemma weighted_green (v : Z) :
  0 <= v <= 65535 ->
  nonneg_le (Prim2SF (weighted 0.587 v)) 5287225962532962 (-53).
Proof.
  intros Hv. apply nonneg_leb_sound.
  apply (forall_below (weighted_leb 0.587 5287225962532962 (-53)) 65536);
    [vm_compute; reflexivity | lia].
Qed.

Lemma weighted_blue (v : Z) :
  0 <= v <= 65535 ->
  nonneg_le (Prim2SF (weighted 0.114 v)) 8214565720323785 (-56).
Proof.
  intros Hv. apply nonneg_leb_sound.
  apply (forall_below (weighted_leb 0.114 8214565720323785 (-56)) 65536);
    [vm_compute; reflexivity | lia].
Qed.

Ltac by_computation :=
  first [ apply Z.leb_le | apply Z.ltb_lt | idtac ]; vm_compute; reflexivity.

(** The luminance of 16-bit channels is at most [1 - 2^-53], the value it
    takes on white: the weights round so that their sum stays below 1. *)
Lemma luminance_below_one (c : color.Color) (r g b a : Z) :
  color.RGBA c = (r, g, b, a) ->
  0 <= r <= 65535 -> 0 <= g <= 65535 -> 0 <= b <= 65535 ->
  nonneg_le (Prim2SF (luminance c)) (2 ^ 53 - 1) (-53).
Proof.
  intros H Hr Hg Hb. rewrite (luminance_channels c r g b a H), !add_spec.
  apply (add_nonneg_le _ _ 7980378539700518 (-53) 8214565720323785 (-56)).
  - apply (add_nonneg_le _ _ 5386305154335113 (-54) 5287225962532962 (-53)).
    + apply weighted_red, Hr.
    + apply weighted_green, Hg.
    + lia.
    + split; by_computation.
    + by_computation.
    + by_computation.
    + right. split; by_computation.
  - apply weighted_blue, Hb.
  - lia.
  - split; by_computation.
  - by_computation.
  - by_computation.
  - left. by_computation.
Qed.

Lemma luminance_NRGBA_below_one (c : color.NRGBA) :
  nonneg_le (Prim2SF (luminance (color.OfNRGBA c))) (2 ^ 53 - 1) (-53).
Proof.
  eapply luminance_below_one; [reflexivity | | |]; apply NRGBA_channel_range.
Qed.

(** A fully transparent NRGBA sample has luminance 0, whatever its
    channels: its premultiplied red, green and blue are 0. *)
Lemma luminance_transparent (c : color.NRGBA) :
  color.A c = x00 -> luminance (color.OfNRGBA c) = 0%float.
Proof.
  intros HA.
  rewrite (luminance_channels _ 0 0 0 0); [vm_compute; reflexivity |].
  cbn [color.RGBA]. unfold color.NRGBA_RGBA, color.NRGBA_channel. rewrite HA.
  change (byteZ x00) with 0. rewrite !Z.mul_0_r. reflexivity.
Qed.

(** C3 as stated fails on the samples that [main] passes, the pixels of an
    NRGBA image, whose [RGBA] values are premultiplied by alpha: fully
    transparent white has luminance 0 and selects the first glyph of the
    "ascii" ramp, while opaque white, with the same channel values, has a
    greater luminance and selects the last glyph. *)
Lemma transparent_white_is_dark :
  luminance (pixel xff xff xff x00) = 0%float /\
  (luminance (pixel xff xff xff x00) <? luminance (pixel xff xff xff xff))%float = true /\
  glyph ascii_ramp (luminance (pixel xff xff xff x00)) = Ok "."%char /\
  glyph ascii_ramp (luminance (pixel xff xff xff xff)) = Ok "$"%char.
Proof. repeat split; vm_compute; reflexivity. Qed.

(** C3, amended: the luminance calculator drops the alpha value that
    [RGBA] returns and reads the red, green and blue values, which [RGBA]
    has premultiplied by alpha. Two samples whose premultiplied red, green
    and blue values agree have exactly the same luminance, whatever their
    alpha values (half-transparent white and opaque mid-grey, for
    instance); and a fully transparent NRGBA pixel has luminance 0, the
    luminance of opaque black, whatever its channel values. *)
Theorem luminance_of_premultiplied (c1 c2 : color.Color) (r g b a1 a2 : Z) :
  color.RGBA c1 = (r, g, b, a1) -> color.RGBA c2 = (r, g, b, a2) ->
  luminance c1 = luminance c2 /\
  forall R G B : byte,
    luminance (pixel R G B x00) = 0%float /\
    luminance (pixel R G B x00) = luminance (pixel x00 x00 x00 xff).
Proof.
  intros H1 H2. split.
  - rewrite (luminance_channels c1 r g b a1 H1), (luminance_channels c2 r g b a2 H2).
    reflexivity.
  - intros R G B. unfold pixel.
    rewrite luminance_transparent by reflexivity. split; [reflexivity |].
    vm_compute. reflexivity.
Qed.

Lemma luminance_of_premultiplied_witness :
  luminance (pixel xff xff xff x80) = luminance (pixel x80 x80 x80 xff) /\
  forall R G B : byte,
    luminance (pixel R G B x00) = 0%float /\
    luminance (pixel R G B x00) = luminance (pixel x00 x00 x00 xff).
Proof.
  apply (luminance_of_premultiplied _ _ 32896 32896 32896 32896 65535); reflexivity.
Defined.

Lemma gray_close_all : forall_range gray_close 0 (Z.to_nat 65536) = true.
Proof. vm_compute. reflexivity. Qed.

(** C8: for every gray sample, with 16-bit channel values r = g = b = v,
    the luminance is within 2^-51 of v / 65535, and within 2^-52 of the
    normalised channel [float64(v) / MaxUint16] that the code computes. *)
Theorem gray_luminance_is_channel (c : color.Color) (v a : Z) :
  0 <= v <= 65535 -> color.RGBA c = (v, v, v, a) ->
  (Qabs (float64_Q (luminance c) - (v # 65535)) <= 1 # 2 ^ 51)%Q /\
  (Qabs (float64_Q (luminance c) - float64_Q (float64_of_int v / MaxUint16)%float)
     <= 1 # 2 ^ 52)%Q.
Proof.
  intros Hv Hc.
  replace (luminance c) with (gray_luminance v)
    by (symmetry; apply (luminance_channels c v v v a Hc)).
  pose proof (forall_below gray_close 65536 v gray_close_all ltac:(lia)) as H.
  unfold gray_close in H. apply andb_true_iff in H. destruct H as [H1 H2].
  split; apply Qle_bool_iff; assumption.
Qed.

Lemma gray_luminance_is_channel_witness :
  (Qabs (float64_Q (luminance (gray_pixel x80)) - (32896 # 65535)) <= 1 # 2 ^ 51)%Q /\
  (Qabs (float64_Q (luminance (gray_pixel x80)) -
         float64_Q (float64_of_int 32896 / MaxUint16)%float) <= 1 # 2 ^ 52)%Q.
Proof.
  apply (gray_luminance_is_channel (gray_pixel x80) 32896 65535); [lia | reflexivity].
Defined.

(** ** The glyph lookup *)

Lemma string_get_lt (s : string) :
  forall n, (n < String.length s)%nat -> exists c, String.get n s = Some c.
Proof.
  induction s as [| c s IH]; intros n Hn; cbn [String.length] in Hn; [lia |].
  destruct n as [| n]; cbn [String.get]; [eauto |]. apply IH. lia.
Qed.

Lemma string_index_ok (s : string) (i : Z) :
  0 <= i <= len s - 1 ->
  exists c, string_index s i = Ok c /\ String.get (Z.to_nat i) s = Some c.
Proof.
  intros Hi. unfold string_index.
  destruct (string_get_lt s (Z.to_nat i)) as [c Hc]; [unfold len in Hi; lia |].
  exists c. rewrite Hc.
  destruct (Z.leb_spec 0 i); [| lia]. destruct (Z.ltb_spec i (len s)); [| lia].
  split; reflexivity.
Qed.

(** For a luminance that is at most [1 - 2^-53], the index computed by the
    glyph lookup is inside the ramp. *)
Lemma glyph_index_bounds (charset : string) (L : float) :
  1 <= len charset < 2 ^ 53 ->
  nonneg_le (Prim2SF L) (2 ^ 53 - 1) (-53) ->
  0 <= glyph_index charset L <= len charset - 1.
Proof.
  intros HN HL. unfold glyph_index, int_of_float64. rewrite mul_spec.
  destruct (Prim2SF_of_int_pos (len charset) ltac:(lia))
    as (mN & eN & -> & HeN & HmN & HdN).
  destruct (Prim2SF L) as [s | s | | s mL eL]; try contradiction.
  - cbn [SF64mul SFmul SF2int]. lia.
  - destruct s; [contradiction |]. destruct HL as [HeL HL].
    unfold SF64mul, SFmul. cbn [xorb].
    apply (mul_trunc_below mN mL eN eL (len charset)); try assumption; lia.
Qed.

Lemma glyph_ok (charset : string) (L : float) :
  1 <= len charset < 2 ^ 53 ->
  nonneg_le (Prim2SF L) (2 ^ 53 - 1) (-53) ->
  exists c, glyph charset L = Ok c /\
    String.get (Z.to_nat (glyph_index charset L)) charset = Some c.
Proof.
  intros HN HL. unfold glyph.
  apply string_index_ok, glyph_index_bounds; assumption.
Qed.

Lemma glyph_index_zero (charset : string) :
  1 <= len charset < 2 ^ 53 -> glyph_index charset 0 = 0.
Proof.
  intros HN. unfold glyph_index, int_of_float64. rewrite mul_spec, Prim2SF_zero.
  destruct (Prim2SF_of_int_pos (len charset) ltac:(lia)) as (mN & eN & -> & _).
  reflexivity.
Qed.

(** C1 as stated fails at luminance 1.0: on the 69 characters of the
    "ascii" ramp the code computes index 69, where the clamped formula
    gives 68, and the lookup panics. *)
Lemma glyph_at_one_out_of_range :
  len ascii_ramp = 69 /\
  glyph_index ascii_ramp 1 = 69 /\
  clamp 69 0 (len ascii_ramp - 1) = 68 /\
  glyph ascii_ramp 1 = Panic (IndexOutOfRange 69 69).
Proof. repeat split; vm_compute; reflexivity. Qed.

(** C1, amended: for every luminance L with 0 <= L < 1 and every ramp of
    length N >= 1 (N below 2^53, so that float64(N) is N), the glyph lookup
    returns the character at index int(float64(N) * L), and that index lies
    within [0, N-1]; luminance 0 selects index 0. There is no clamp: only
    L < 1 keeps the index in bounds. *)
Theorem glyph_in_bounds (charset : string) (L : float) :
  1 <= len charset < 2 ^ 53 ->
  (0 <=? L)%float = true -> (L <? 1)%float = true ->
  0 <= glyph_index charset L <= len charset - 1 /\
  (exists c, glyph charset L = Ok c /\
     String.get (Z.to_nat (glyph_index charset L)) charset = Some c) /\
  glyph_index charset 0 = 0.
Proof.
  intros HN H0 H1. pose proof (below_one L H0 H1) as HL.
  split; [apply glyph_index_bounds; assumption |].
  split; [apply glyph_ok; assumption | apply glyph_index_zero; assumption].
Qed.

Lemma glyph_in_bounds_witness :
  0 <= glyph_index ascii_ramp 0.5 <= len ascii_ramp - 1 /\
  (exists c, glyph ascii_ramp 0.5 = Ok c /\
     String.get (Z.to_nat (glyph_index ascii_ramp 0.5)) ascii_ramp = Some c) /\
  glyph_index ascii_ramp 0 = 0.
Proof.
  apply (glyph_in_bounds ascii_ramp 0.5); [vm_compute; split; [discriminate | reflexivity] | reflexivity | reflexivity].
Defined.

(** The index is the truncated binary64 product, which may exceed the
    integer part of the exact product: a third of the way into a ramp of
    three, the product rounds up to 1. *)
Example glyph_index_rounds_up :
  (float64_Q (1 / 3) * 3 < 1)%Q /\ glyph_index "ABC" (1 / 3) = 1.
Proof. split; vm_compute; reflexivity. Qed.

(** White, the brightest sample, has luminance [1 - 2^-53] and selects the
    last character of the "ascii" ramp. *)
Example white_is_last_glyph :
  Prim2SF (luminance (gray_pixel xff)) = S754_finite false 9007199254740991 (-53) /\
  glyph ascii_ramp (luminance (gray_pixel xff)) = Ok "$"%char.
Proof. split; vm_compute; reflexivity. Qed.

(** ** The text assembly *)

Lemma append_nil_r (s : string) : s +:+ EmptyString = s.
Proof.
  induction s as [| c s IH]; [reflexivity |].
  change (String c (s +:+ EmptyString) = String c s). f_equal. exact IH.
Qed.

Lemma append_assoc (s1 s2 s3 : string) : (s1 +:+ s2) +:+ s3 = s1 +:+ (s2 +:+ s3).
Proof.
  induction s1 as [| c s1 IH]; [reflexivity |].
  change (String c ((s1 +:+ s2) +:+ s3) = String c (s1 +:+ (s2 +:+ s3))).
  f_equal. exact IH.
Qed.

Lemma rune_count_append (s1 s2 : string) :
  rune_count (s1 +:+ s2) = (rune_count s1 + rune_count s2)%nat.
Proof.
  induction s1 as [| c s1 IH]; [reflexivity |].
  change (String c s1 +:+ s2) with (String c (s1 +:+ s2)).
  cbn [rune_count]. rewrite IH. destruct (_ =? _); reflexivity.
Qed.

(** [%c] writes one character, whatever the byte. *)
Lemma rune_count_Sprintf_c (c : ascii) : rune_count (Sprintf_c c) = 1%nat.
Proof. destruct c as [[] [] [] [] [] [] [] []]; vm_compute; reflexivity. Qed.

Section Render.

Variables (charset : string) (processedImg : image.Image) (ow oh : Z).

(** Every glyph lookup on the image succeeds. *)
Hypothesis lookups :
  forall x y, exists c, glyph charset (luminance (image.At processedImg x y)) = Ok c.

Lemma render_pixels (y : Z) (l : list Z) :
  forall buf, exists line,
    run_loop (fun x => render_pixel charset processedImg x y) l buf
      = Ok (buf +:+ line) /\
    rune_count line = length l.
Proof.
  induction l as [| x l IH]; intros buf; cbn [run_loop].
  - exists EmptyString. rewrite append_nil_r. split; reflexivity.
  - unfold render_pixel at 1. destruct (lookups x y) as [c ->]. cbn [bind].
    destruct (IH (buf +:+ Sprintf_c c)) as (line & -> & Hn).
    exists (Sprintf_c c +:+ line). rewrite append_assoc. split; [reflexivity |].
    rewrite rune_count_append, rune_count_Sprintf_c, Hn. reflexivity.
Qed.

Lemma render_rows (n : nat) :
  forall y buf, y + Z.of_nat n = oh ->
    exists lines,
      run_loop (render_row charset processedImg ow oh) (seqZ y (Z.of_nat n)) buf
        = Ok (buf +:+ Join lines newline) /\
      length lines = n /\
      Forall (fun line => rune_count line = Z.to_nat ow) lines.
Proof.
  induction n as [| n IH]; intros y buf Hy.
  - exists []. rewrite seqZ_nil by lia. cbn [run_loop Join].
    rewrite append_nil_r. repeat split. constructor.
  - rewrite seqZ_cons by lia. cbn [run_loop].
    replace (Z.pred (Z.of_nat (S n))) with (Z.of_nat n) by lia.
    unfold render_row at 1, for_lt.
    destruct (render_pixels y (seqZ 0 ow) buf) as (line & -> & Hline).
    rewrite length_seqZ in Hline. cbn [bind].
    destruct (Z.eqb_spec (y + 1) oh) as [Hlast | Hmore]; cbn [negb bind].
    + assert (n = O) by lia. subst n. rewrite seqZ_nil by lia. cbn [run_loop].
      exists [line]. cbn [Join]. repeat split. constructor; [exact Hline | constructor].
    + destruct (IH (Z.succ y) ((buf +:+ line) +:+ newline) ltac:(lia))
        as (lines & -> & Hlen & Hall).
      exists (line :: lines). destruct lines as [| l2 rest]; [cbn in Hlen; lia |].
      cbn [Join]. rewrite !append_assoc. repeat split.
      * cbn [length] in *. lia.
      * constructor; assumption.
Qed.

Lemma render_lines :
  0 <= oh ->
  exists lines,
    render charset processedImg ow oh = Ok (Join lines newline) /\
    length lines = Z.to_nat oh /\
    Forall (fun line => rune_count line = Z.to_nat ow) lines.
Proof.
  intros Hoh. unfold render, for_lt.
  destruct (render_rows (Z.to_nat oh) 0 EmptyString ltac:(lia)) as (lines & H & Hl & Ha).
  rewrite Z2Nat.id in H by exact Hoh. exists lines. auto.
Qed.

End Render.

(** C4: for every output grid and every ramp (of a length N with
    1 <= N < 2^53), with Wt, Ht >= 1, the assembled text is Ht lines joined
    by the line separator (one after every row but the last: Ht - 1
    separators, none trailing), each line of Wt characters; for Wt = 3,
    Ht = 2, the ramp "AB" and an all-black image (resized to 3 by 2) it is
    "AAA", a line separator, "AAA". *)
Theorem rendered_text_shape (charset : string) (grid : image.NRGBA) (Wt Ht : Z) :
  1 <= len charset < 2 ^ 53 -> 1 <= Wt -> 1 <= Ht ->
  (exists lines,
     render charset (image.as_Image grid) Wt Ht = Ok (Join lines newline) /\
     Z.of_nat (length lines) = Ht /\
     Forall (fun line => Z.of_nat (rune_count line) = Wt) lines) /\
  (processedImg <-! resize (black_image 3 2) 3 2;
   render "AB" (image.as_Image processedImg) 3 2)
    = Ok ("AAA" +:+ newline +:+ "AAA").
Proof.
  intros HN HW HH. split; [| vm_compute; reflexivity].
  destruct (render_lines charset (image.as_Image grid) Wt Ht) as (lines & H & Hl & Ha).
  - intros x y. cbn [image.as_Image image.At].
    destruct (glyph_ok charset (luminance (color.OfNRGBA (image.NRGBA_At grid x y))) HN
                (luminance_NRGBA_below_one _)) as (c & Hc & _).
    exists c. exact Hc.
  - lia.
  - exists lines. split; [exact H |]. split; [lia |].
    eapply Forall_impl; [exact Ha |]. cbn beta. intros line Hline. lia.
Qed.

Lemma rendered_text_shape_witness :
  (exists lines,
     render ascii_ramp (image.as_Image (resize_loops (gradient 4 4) 2 3
                                          (image.blank (image.Rect 0 0 2 3)))) 2 3
       = Ok (Join lines newline) /\
     Z.of_nat (length lines) = 3 /\
     Forall (fun line => Z.of_nat (rune_count line) = 2) lines) /\
  (processedImg <-! resize (black_image 3 2) 3 2;
   render "AB" (image.as_Image processedImg) 3 2)
    = Ok ("AAA" +:+ newline +:+ "AAA").
Proof.
  apply (rendered_text_shape ascii_ramp
           (resize_loops (gradient 4 4) 2 3 (image.blank (image.Rect 0 0 2 3))) 2 3);
    [vm_compute; split; [discriminate | reflexivity] | lia | lia].
Defined.

(** ** The sampler *)

Lemma elem_of_resize_points (width height x y : Z) :
  (x, y) ∈ resize_points width height <-> 0 <= x < width /\ 0 <= y < height.
Proof.
  unfold resize_points. rewrite list_elem_of_bind. split.
  - intros (x' & Hin & Hx). apply elem_of_seqZ in Hx.
    apply list_elem_of_bind in Hin. destruct Hin as (y' & Hin & Hy).
    apply elem_of_seqZ in Hy. apply list_elem_of_singleton in Hin.
    injection Hin as -> ->. lia.
  - intros [Hx Hy]. exists x. split; [| apply elem_of_seqZ; lia].
    apply list_elem_of_bind. exists y. split; [| apply elem_of_seqZ; lia].
    apply list_elem_of_singleton. reflexivity.
Qed.

(** ** Allocation of the output image *)

Lemma wrap_int_range (z : Z) : min_int <= wrap_int z <= max_int.
Proof.
  unfold wrap_int, min_int, max_int.
  pose proof (Z.mod_pos_bound (z + 2 ^ 63) (2 ^ 64) ltac:(reflexivity)). lia.
Qed.

Lemma wrap_int_small (z : Z) : min_int <= z <= max_int -> wrap_int z = z.
Proof.
  unfold wrap_int, min_int, max_int. intros H. rewrite Z.mod_small by lia. lia.
Qed.

(** The product of the library's overflow check, for 4 bytes per pixel. *)
Lemma mul3NonNeg_4 (dx dy : Z) :
  dx <= max_int -> dy <= max_int ->
  image.mul3NonNeg 4 dx dy =
    if (0 <=? dx) && (dx <? 2 ^ 62) && (0 <=? dy) && (4 * dx * dy <? 2 ^ 63)
    then 4 * dx * dy else -1.
Proof.
  unfold max_int. intros Hx Hy. unfold image.mul3NonNeg.
  change (4 <? 0) with false. cbn [orb].
  destruct (Z.ltb_spec dx 0) as [Nx | Px]; cbn [orb].
  { rewrite (proj2 (Z.leb_gt 0 dx) Nx). reflexivity. }
  rewrite (proj2 (Z.leb_le 0 dx) Px). cbn [andb].
  destruct (Z.ltb_spec dy 0) as [Ny | Py].
  { rewrite (proj2 (Z.leb_gt 0 dy) Ny), andb_false_r. reflexivity. }
  rewrite (proj2 (Z.leb_le 0 dy) Py), andb_true_r.
  unfold Mul64, uint64.
  rewrite (Z.mod_small 4) by (split; [lia | reflexivity]).
  rewrite (Z.mod_small dx), (Z.mod_small dy) by lia.
  destruct (Z.ltb_spec dx (2 ^ 62)) as [Sx | Bx]; cbn [andb].
  - rewrite (Z.div_small (4 * dx)), (Z.mod_small (4 * dx)) by lia.
    change (0 =? 0) with true. cbn [negb].
    assert (Hp : 0 <= 4 * dx * dy) by (apply Z.mul_nonneg_nonneg; lia).
    set (p := 4 * dx * dy) in *. clearbody p.
    destruct (Z.ltb_spec p (2 ^ 63)) as [Sp | Bp].
    + rewrite (Z.div_small p), (Z.mod_small p) by lia.
      change (0 =? 0) with true. cbn [negb].
      rewrite (wrap_int_small p) by (unfold min_int, max_int; lia).
      rewrite (Z.mod_small p) by lia.
      rewrite (proj2 (Z.ltb_ge p 0) Hp), Z.eqb_refl. reflexivity.
    + destruct (Z.eqb_spec (p / 2 ^ 64) 0) as [Hq | Hq]; cbn [negb]; [| reflexivity].
      apply Z.div_small_iff in Hq; [| lia].
      destruct Hq as [Hq | Hq]; [| lia].
      rewrite (Z.mod_small p) by lia.
      assert (Hw : wrap_int p = p - 2 ^ 64).
      { unfold wrap_int.
        replace (p + 2 ^ 63) with (p - 2 ^ 63 + 1 * 2 ^ 64) by lia.
        rewrite Z.mod_add by lia. rewrite Z.mod_small by lia. lia. }
      rewrite Hw. rewrite (proj2 (Z.ltb_lt (p - 2 ^ 64) 0)) by lia. reflexivity.
  - destruct (Z.eqb_spec (4 * dx / 2 ^ 64) 0) as [Hq | Hq]; cbn [negb]; [| reflexivity].
    apply Z.div_small_iff in Hq; lia.
Qed.

Lemma NewNRGBA_spec (r : image.Rectangle) :
  image.NewNRGBA r =
    if (0 <=? image.Dx r) && (image.Dx r <? 2 ^ 62) && (0 <=? image.Dy r)
       && (4 * image.Dx r * image.Dy r <? 2 ^ 63)
    then Ok (image.blank r) else Panic HugeOrNegativeDimensions.
Proof.
  unfold image.NewNRGBA, image.pixelBufferLength.
  rewrite mul3NonNeg_4 by (unfold image.Dx, image.Dy; apply wrap_int_range).
  destruct ((0 <=? image.Dx r) && _ && _ && _) eqn:E; [| reflexivity].
  rewrite !andb_true_iff, !Z.leb_le, !Z.ltb_lt in E.
  rewrite (proj2 (Z.ltb_ge _ 0)); [reflexivity |].
  apply Z.mul_nonneg_nonneg; lia.
Qed.

(** The sides of the rectangle from the origin to [(w, h)], whatever the
    signs. *)
Lemma Size_Rect (w h : Z) :
  Z.abs w < 2 ^ 63 -> Z.abs h < 2 ^ 63 ->
  image.Size (image.Rect 0 0 w h) = {| image.X := Z.abs w; image.Y := Z.abs h |}.
Proof.
  intros Hw Hh. unfold image.Size, image.Dx, image.Dy, image.Rect.
  cbn [image.Min image.Max image.X image.Y].
  rewrite !wrap_int_small by (unfold min_int, max_int; lia). f_equal; lia.
Qed.

Lemma NewNRGBA_fits (w h : Z) :
  fits w h ->
  image.NewNRGBA (image.Rect 0 0 w h) = Ok (image.blank (image.Rect 0 0 w h)).
Proof.
  intros (Hw & Hh & Hp). rewrite NewNRGBA_spec.
  pose proof (Size_Rect w h ltac:(lia) Hh) as HS. injection HS as -> ->.
  rewrite (proj2 (Z.leb_le 0 (Z.abs w))), (proj2 (Z.ltb_lt (Z.abs w) _) Hw),
    (proj2 (Z.leb_le 0 (Z.abs h))), (proj2 (Z.ltb_lt _ _) Hp) by lia.
  reflexivity.
Qed.



Lemma fits_below (w h : Z) :
  Z.abs w <= 2 ^ 30 -> Z.abs h <= 2 ^ 30 -> fits w h.
Proof.
  intros Hw Hh. unfold fits.
  assert (H30 : 2 ^ 30 < 2 ^ 62) by reflexivity.
  assert (H63 : 2 ^ 62 < 2 ^ 63) by reflexivity.
  split; [lia |]. split; [lia |].
  apply Z.le_lt_trans with (4 * 2 ^ 30 * 2 ^ 30); [| reflexivity].
  apply Z.mul_le_mono_nonneg; lia.
Qed.

(** [resize] returns exactly when the allocation does, and then with the
    result of its loops on the blank image. *)
Lemma resize_fits (img : image.Image) (width height : Z) :
  fits width height ->
  resize img width height
    = Ok (resize_loops img width height
            (image.blank (image.Rect 0 0 width height))).
Proof. intros H. unfold resize. rewrite (NewNRGBA_fits _ _ H). reflexivity. Qed.

Lemma resize_inv (img : image.Image) (width height : Z) (grid : image.NRGBA) :
  resize img width height = Ok grid ->
  grid = resize_loops img width height (image.blank (image.Rect 0 0 width height)).
Proof.
  unfold resize. rewrite NewNRGBA_spec.
  destruct (_ && _ && _ && _); cbn [bind]; [| discriminate].
  intros [= <-]. reflexivity.
Qed.


Lemma resize_fold (img : image.Image) (width height : Z) (l : list (Z * Z)) :
  forall out,
    let res := foldl (fun output '(x, y) => resize_pixel img width height x y output)
                 out l in
    image.NRGBA_Rect res = image.NRGBA_Rect out /\
    forall x y,
      image.Pix res !! (x, y) =
        if decide ((x, y) ∈ l /\ image.In x y (image.NRGBA_Rect out) = true)
        then Some (sampled img width height x y)
        else image.Pix out !! (x, y).
Proof.
  induction l as [| [x0 y0] l IH]; intros out; cbn [foldl].
  - split; [reflexivity |]. intros x y.
    destruct (decide _) as [[Hin _] | _]; [| reflexivity].
    apply elem_of_nil in Hin. contradiction.
  - destruct (IH (resize_pixel img width height x0 y0 out)) as [HR HP].
    assert (Hrect : image.NRGBA_Rect (resize_pixel img width height x0 y0 out)
                    = image.NRGBA_Rect out).
    { unfold resize_pixel, image.NRGBA_Set. destruct (image.In x0 y0 _); reflexivity. }
    split; [rewrite HR; exact Hrect |].
    intros x y. rewrite HP, Hrect.
    destruct (decide ((x, y) ∈ l /\ _)) as [[Hin Hb] | Hnot].
    + rewrite decide_True; [reflexivity |]. split; [right; exact Hin | exact Hb].
    + unfold resize_pixel, image.NRGBA_Set.
      destruct (image.In x0 y0 (image.NRGBA_Rect out)) eqn:Hin0; cbn [image.Pix].
      * destruct (decide ((x0, y0) = (x, y))) as [Heq | Hne].
        -- injection Heq as -> ->. rewrite lookup_insert_eq.
           rewrite decide_True; [reflexivity |]. split; [left | exact Hin0].
        -- rewrite lookup_insert_ne by exact Hne.
           destruct (decide ((x, y) ∈ (x0, y0) :: l /\ _)) as [[Hin Hb] | _];
             [| reflexivity].
           apply elem_of_cons in Hin. destruct Hin as [Heq | Hin]; [congruence |].
           exfalso. apply Hnot. split; assumption.
      * destruct (decide ((x, y) ∈ (x0, y0) :: l /\ _)) as [[Hin Hb] | _];
          [| reflexivity].
        apply elem_of_cons in Hin. destruct Hin as [Heq | Hin].
        -- injection Heq as -> ->. congruence.
        -- exfalso. apply Hnot. split; assumption.
Qed.

Lemma resize_Rect (img : image.Image) (width height : Z) (grid : image.NRGBA) :
  resize img width height = Ok grid ->
  image.NRGBA_Rect grid = image.Rect 0 0 width height.
Proof.
  intros Hg. rewrite (resize_inv _ _ _ _ Hg). unfold resize_loops.
  rewrite (proj1 (resize_fold img width height _ _)). reflexivity.
Qed.

Lemma In_Rect (width height x y : Z) :
  0 <= width -> 0 <= height ->
  image.In x y (image.Rect 0 0 width height) = true <->
  0 <= x < width /\ 0 <= y < height.
Proof.
  intros Hw Hh. unfold image.In, image.Rect. cbn [image.Min image.Max image.X image.Y].
  rewrite !andb_true_iff, !Z.leb_le, !Z.ltb_lt. lia.
Qed.

(** Every target coordinate holds the source sample at the coordinates
    that the code computes for it, converted to the NRGBA colour model. *)
Lemma resize_At (img : image.Image) (width height : Z) (grid : image.NRGBA)
    (x y : Z) :
  resize img width height = Ok grid ->
  0 <= x < width -> 0 <= y < height ->
  image.NRGBA_At grid x y = sampled img width height x y.
Proof.
  intros Hg Hx Hy. unfold image.NRGBA_At. rewrite (resize_Rect _ _ _ _ Hg).
  assert (Hin : image.In x y (image.Rect 0 0 width height) = true)
    by (apply In_Rect; lia).
  rewrite Hin. rewrite (resize_inv _ _ _ _ Hg). unfold resize_loops.
  rewrite (proj2 (resize_fold img width height _ _) x y).
  rewrite decide_True; [reflexivity |].
  split; [apply elem_of_resize_points; lia | exact Hin].
Qed.

(** Where the computed source coordinates of [(x, y)] are [(x, y)]
    itself, a resize to the source size copies the pixel. *)
Lemma resize_identity_exact (img : image.Image) (grid : image.NRGBA) (x y : Z) :
  let size := image.Size (image.Bounds img) in
  resize img (image.X size) (image.Y size) = Ok grid ->
  0 <= x < image.X size -> 0 <= y < image.Y size ->
  source_coord x (image.X size) (image.X size) = x ->
  source_coord y (image.Y size) (image.Y size) = y ->
  image.NRGBA_At grid x y = color.nrgbaModel (image.At img x y).
Proof.
  intros size Hg Hx Hy Ex Ey. rewrite (resize_At _ _ _ _ _ _ Hg) by assumption.
  unfold sampled. fold size. rewrite Ex, Ey. reflexivity.
Qed.

(** On an axis of at most 21 pixels the computed source coordinate of a
    resize to the same length is the target coordinate; 22 is the first
    length where it is not. *)
Lemma source_coord_identity_small (width x : Z) :
  0 <= x < width -> width <= 21 -> source_coord x width width = x.
Proof.
  intros Hx Hw. apply Z.eqb_eq.
  pose proof (forall_below
    (fun w => forall_range (fun x => (w <=? x) || (source_coord x w w =? x)) 0 21)
    22 width ltac:(vm_compute; reflexivity) ltac:(lia)) as H.
  cbv beta in H.
  pose proof (forall_range_spec _ 21 0 x H ltac:(lia)) as H'. cbv beta in H'.
  apply orb_true_iff in H'. destruct H' as [H' | H']; [| exact H'].
  apply Z.leb_le in H'. lia.
Qed.

(** C5: in the 4x4 to 2x2 example the code samples as the claim says, but
    not in general: resizing a source 22 pixels wide to the same width, the
    claim has target (15, 0) sample source (floor(15 * 22 / 22), 0) =
    (15, 0), while the code computes int((15.0 / 22.0) * 22.0) = 14 and
    stores the sample of source (14, 0). *)
Theorem resize_samples_left_neighbour :
  (source_coord 0 2 4 = 0 /\ source_coord 1 2 4 = 2) /\
  floor_coord 15 22 22 = 15 /\
  source_coord 15 22 22 = 14 /\
  exists grid,
    resize (gradient 22 1) 22 1 = Ok grid /\
    image.NRGBA_At grid 15 0
      = color.nrgbaModel (image.At (gradient 22 1) 14 0) /\
    image.NRGBA_At grid 15 0
      <> color.nrgbaModel (image.At (gradient 22 1) 15 0).
Proof.
  split; [split; vm_compute; reflexivity |].
  split; [vm_compute; reflexivity |]. split; [vm_compute; reflexivity |].
  eexists. split; [apply resize_fits, fits_below; lia |].
  split; [vm_compute; reflexivity |].
  vm_compute. intros H. discriminate H.
Qed.




(** ** The dimension resolver *)

Lemma len_nonempty (c : ascii) (s : string) : (len (String c s) <? 1) = false.
Proof. apply Z.ltb_ge. unfold len. cbn [String.length]. lia. Qed.

Lemma parseResize_empty (img : image.Image) :
  parseResize EmptyString img
    = inr (image.X (image.Size (image.Bounds img)),
           image.Y (image.Size (image.Bounds img))).
Proof. reflexivity. Qed.

(** With no dimension spec and no scale, the target size is the source
    size. *)
Lemma target_dimensions_identity (opts : Options) (img : image.Image) :
  Resize opts = EmptyString -> (Scale opts =? 0)%float = true ->
  target_dimensions opts img
    = Ok (image.X (image.Size (image.Bounds img)),
          image.Y (image.Size (image.Bounds img))).
Proof.
  intros HR HS. unfold target_dimensions. rewrite HR, parseResize_empty, HS.
  reflexivity.
Qed.

(** C7: with neither spec nor scale the resolver returns the source size,
    here (22, 1); but the sampler at that size does not return the source
    grid: target (15, 0) holds the pixel of source (14, 0), a different
    pixel from that of source (15, 0). *)
Theorem identity_resize_shifts_column :
  target_dimensions (options EmptyString 0) (gradient 22 1) = Ok (22, 1) /\
  exists processedImg,
    resize (gradient 22 1) 22 1 = Ok processedImg /\
    image.At (image.as_Image processedImg) 15 0
      = image.At (gradient 22 1) 14 0 /\
    image.At (image.as_Image processedImg) 15 0
      <> image.At (gradient 22 1) 15 0.
Proof.
  split; [vm_compute; reflexivity |].
  eexists. split; [apply resize_fits, fits_below; lia |].
  split; [vm_compute; reflexivity |].
  vm_compute. intros H. discriminate H.
Qed.

(** A non-zero scale decides the target size, whatever the spec parsed
    to. *)
Lemma target_dimensions_scaled (opts : Options) (img : image.Image) (ow oh : Z) :
  parseResize (Resize opts) img = inr (ow, oh) ->
  (Scale opts =? 0)%float = false ->
  target_dimensions opts img
    = Ok (int_of_float64
            (float64_of_int (image.X (image.Size (image.Bounds img))) * Scale opts)%float,
          int_of_float64
            (float64_of_int (image.Y (image.Size (image.Bounds img))) * Scale opts)%float).
Proof.
  intros HP HS. unfold target_dimensions. rewrite HP, HS. reflexivity.
Qed.

(** With scale 0 a spec that parses decides the target size. *)
Lemma target_dimensions_spec (opts : Options) (img : image.Image) (ow oh : Z) :
  parseResize (Resize opts) img = inr (ow, oh) ->
  (Scale opts =? 0)%float = true ->
  target_dimensions opts img = Ok (ow, oh).
Proof.
  intros HP HS. unfold target_dimensions. rewrite HP, HS. reflexivity.
Qed.

(** C2 as stated fails when both are given: the spec "10x10" parses to
    (10, 10), yet with scale 0.5 on a 4x4 source the target is (2, 2). *)
Lemma explicit_spec_overridden :
  parseResize "10x10" (gradient 4 4) = inr (10, 10) /\
  target_dimensions (options "10x10" 0.5) (gradient 4 4) = Ok (2, 2).
Proof. split; vm_compute; reflexivity. Qed.

(** C2, amended: when both a well-formed "WxH" spec and a non-zero scale
    factor are supplied, the scale factor takes precedence: the spec is
    parsed first, and its values are then replaced by int(Ws * s) and
    int(Hs * s). *)
Theorem scale_overrides_spec (opts : Options) (img : image.Image) (ow oh : Z) :
  parseResize (Resize opts) img = inr (ow, oh) ->
  (Scale opts =? 0)%float = false ->
  target_dimensions opts img
    = Ok (int_of_float64
            (float64_of_int (image.X (image.Size (image.Bounds img))) * Scale opts)%float,
          int_of_float64
            (float64_of_int (image.Y (image.Size (image.Bounds img))) * Scale opts)%float).
Proof.
  intros HP HS. unfold target_dimensions. rewrite HP.
  destruct (Scale opts =? 0)%float; [discriminate HS | reflexivity].
Qed.

Lemma scale_overrides_spec_witness :
  target_dimensions (options "10x10" 0.5) (gradient 4 4)
    = Ok (int_of_float64 (float64_of_int 4 * 0.5)%float,
          int_of_float64 (float64_of_int 4 * 0.5)%float).
Proof.
  apply (scale_overrides_spec (options "10x10" 0.5) (gradient 4 4) 10 10);
    vm_compute; reflexivity.
Defined.

(** A malformed spec fails whatever the scale. *)
Lemma target_dimensions_error (opts : Options) (img : image.Image) (e : error) :
  parseResize (Resize opts) img = inl e -> target_dimensions opts img = Panic e.
Proof. intros HP. unfold target_dimensions. rewrite HP. reflexivity. Qed.

Lemma cut_x_none (s : string) : has_x s = false -> cut_x s = None.
Proof.
  induction s as [| c s IH]; cbn [has_x cut_x]; [reflexivity |].
  intros H. apply orb_false_iff in H. destruct H as [Hc Hs].
  rewrite Hc, (IH Hs). reflexivity.
Qed.

Lemma cut_x_first (width height : string) :
  has_x width = false -> cut_x (width +:+ "x" +:+ height) = Some (width, height).
Proof.
  induction width as [| c w IH]; intros H.
  - reflexivity.
  - cbn [has_x] in H. apply orb_false_iff in H. destruct H as [Hc Hw].
    change (String c w +:+ "x" +:+ height) with (String c (w +:+ "x" +:+ height)).
    cbn [cut_x]. rewrite Hc, (IH Hw). reflexivity.
Qed.

Lemma ParseUint_loop_fails (s : string) :
  all_digits s = false -> forall n, exists e, ParseUint_loop s n = inl e.
Proof.
  induction s as [| c s IH]; cbn [all_digits ParseUint_loop]; [discriminate |].
  intros H n. destruct (is_digit c); [| eauto]. cbn [andb] in H.
  destruct (_ <=? n); [eauto |]. destruct (_ <? _); [eauto |]. apply IH, H.
Qed.

Lemma ParseUint_fails (s : string) :
  numeric s = false -> exists e, ParseUint_10_32 s = inl e.
Proof.
  destruct s as [| c s]; [eauto |]. cbn [numeric]. intros H.
  unfold ParseUint_10_32.
  destruct (ParseUint_loop_fails (String c s) H 0) as [e ->]. eauto.
Qed.

Lemma parseResize_malformed (value : string) (img : image.Image) :
  malformed value -> exists e, parseResize value img = inl e.
Proof.
  intros [Hne Hbad]. destruct value as [| c v]; [contradiction |].
  unfold parseResize. rewrite len_nonempty. unfold SplitN_x_2.
  destruct Hbad as [Hx | (width & height & -> & Hx & Hnum)].
  - rewrite (cut_x_none _ Hx). eauto.
  - rewrite (cut_x_first _ _ Hx).
    destruct Hnum as [Hw | Hh].
    + destruct (ParseUint_fails width Hw) as [e ->]. eauto.
    + destruct (ParseUint_10_32 width) as [e | w]; [eauto |].
      destruct (ParseUint_fails height Hh) as [e ->]. eauto.
Qed.

(** C9: for every malformed dimension spec string (given, and either
    without an "x" or with a width or a height that is not a decimal
    numeral) the resolver fails with an error and returns no dimensions,
    and the run panics without producing text: with that error when the
    character set is registered, with the unknown-character-set error
    otherwise. *)
Theorem malformed_spec_fails (value : string) (img : image.Image) :
  malformed value ->
  exists e,
    parseResize value img = inl e /\
    forall opts, Resize opts = value ->
      main_text opts img
        = Panic (match ChararacterSets !! Charset opts with
                 | Some _ => e
                 | None => UnknownCharacterSet (Charset opts)
                 end).
Proof.
  intros Hbad. destruct (parseResize_malformed value img Hbad) as [e He].
  exists e. split; [exact He |]. intros opts HR. unfold main_text.
  destruct (ChararacterSets !! Charset opts); [| reflexivity].
  rewrite (target_dimensions_error opts img e) by (rewrite HR; exact He).
  reflexivity.
Qed.

Lemma malformed_spec_fails_witness :
  exists e,
    parseResize "100" (gradient 4 4) = inl e /\
    forall opts, Resize opts = "100" ->
      main_text opts (gradient 4 4)
        = Panic (match ChararacterSets !! Charset opts with
                 | Some _ => e
                 | None => UnknownCharacterSet (Charset opts)
                 end).
Proof.
  apply (malformed_spec_fails "100" (gradient 4 4)).
  split; [discriminate | left; reflexivity].
Defined.

Example malformed_examples :
  parseResize "100" (gradient 4 4) = inl (InvalidResizeValue "100") /\
  parseResize "12xab" (gradient 4 4) = inl (NumError "ParseUint" "ab" ErrSyntax) /\
  parseResize "x7" (gradient 4 4) = inl (NumError "ParseUint" "" ErrSyntax) /\
  parseResize "640x480" (gradient 4 4) = inr (640, 480).
Proof. repeat split; vm_compute; reflexivity. Qed.

(** ** Negative scale factors *)







(** * Further properties of the code *)

(** ** The luminance calculator: range and transparent samples *)

Lemma below_one_compare (x : spec_float) :
  valid_binary x = true -> nonneg_le x (2 ^ 53 - 1) (-53) ->
  SFleb (S754_zero false) x = true /\
  SFltb x (S754_finite false 4503599627370496 (-52)) = true.
Proof.
  destruct x as [s | s | | s m e]; cbn [nonneg_le]; try contradiction.
  - intros _ _. destruct s; split; reflexivity.
  - destruct s; [contradiction |]. intros Hv [He Hle]. split; [reflexivity |].
    cbn [valid_binary] in Hv. unfold bounded, canonical_mantissa in Hv.
    apply andb_true_iff in Hv. destruct Hv as [Hc _]. apply Z.eqb_eq in Hc.
    rewrite fexp64_eq in Hc.
    pose proof (digits2_pos_bounds m) as [Hlo Hhi].
    set (d := Z.pos (digits2_pos m)) in *.
    assert (He53 : e <= -53).
    { destruct (Z.le_gt_cases e (-53)) as [L | L]; [exact L | exfalso].
      assert (Hd : d - 1 = 52) by lia. rewrite Hd in Hlo.
      unfold units in Hle. change (-53 + 1074) with 1021 in Hle.
      assert (2 ^ 1022 <= 2 ^ (e + 1074)) by (apply Z.pow_le_mono_r; lia).
      assert (2 ^ 52 * 2 ^ 1022 <= Z.pos m * 2 ^ (e + 1074)).
      { apply Z.mul_le_mono_nonneg; lia. }
      assert ((2 ^ 53 - 1) * 2 ^ 1021 < 2 ^ 52 * 2 ^ 1022) by reflexivity. lia. }
    unfold SFltb, SFcompare.
    destruct (Z.compare_spec e (-52)) as [E | E | E]; [lia | reflexivity | lia].
Qed.

(** X1: for every colour whose red, green and blue values are 16-bit
    values (what [RGBA] returns), the luminance computed by the code is a
    binary64 number L with 0 <= L < 1: never negative, never 1.0, never a
    NaN or an infinity. *)
Theorem luminance_range (c : color.Color) (r g b a : Z) :
  color.RGBA c = (r, g, b, a) ->
  0 <= r <= 65535 -> 0 <= g <= 65535 -> 0 <= b <= 65535 ->
  (0 <=? luminance c)%float = true /\ (luminance c <? 1)%float = true.
Proof.
  intros H Hr Hg Hb. rewrite leb_spec, ltb_spec, Prim2SF_zero, Prim2SF_one.
  apply below_one_compare; [apply Prim2SF_valid |].
  exact (luminance_below_one c r g b a H Hr Hg Hb).
Qed.

Lemma luminance_range_witness :
  (0 <=? luminance (color.Other 65535 65535 65535 65535))%float = true /\
  (luminance (color.Other 65535 65535 65535 65535) <? 1)%float = true.
Proof.
  apply (luminance_range _ 65535 65535 65535 65535); [reflexivity | lia | lia | lia].
Defined.

Lemma byteZ_zero (b : byte) : byteZ b = 0 -> b = x00.
Proof.
  unfold byteZ. intros H. assert (E : Byte.to_N b = 0%N) by lia.
  pose proof (Byte.of_to_N b) as O. rewrite E in O. cbn in O. congruence.
Qed.

(** X2: a source sample whose alpha value is 0, of any colour type and
    with any red, green and blue values, is stored by the sampler as a
    pixel of luminance exactly 0, and the glyph lookup gives it index 0,
    the first character of the ramp. *)
Theorem transparent_is_first_glyph (charset : string) (c : color.Color) (r g b : Z) :
  1 <= len charset < 2 ^ 53 ->
  color.RGBA c = (r, g, b, 0) ->
  luminance (color.OfNRGBA (color.nrgbaModel c)) = 0%float /\
  glyph_index charset (luminance (color.OfNRGBA (color.nrgbaModel c))) = 0.
Proof.
  intros HN H.
  assert (HA : color.A (color.nrgbaModel c) = x00).
  { destruct c as [n | r' g' b' a']; cbn [color.RGBA color.nrgbaModel] in *.
    - unfold color.NRGBA_RGBA in H. injection H as _ _ _ Ha.
      rewrite lor_shift8 in Ha by apply byteZ_range.
      apply byteZ_zero. lia.
    - injection H as _ _ _ ->. reflexivity. }
  rewrite (luminance_transparent _ HA). split; [reflexivity |].
  apply glyph_index_zero, HN.
Qed.

Lemma transparent_is_first_glyph_witness :
  luminance (color.OfNRGBA (color.nrgbaModel (color.Other 0 0 0 0))) = 0%float /\
  glyph_index ascii_ramp
    (luminance (color.OfNRGBA (color.nrgbaModel (color.Other 0 0 0 0)))) = 0.
Proof.
  apply (transparent_is_first_glyph ascii_ramp _ 0 0 0);
    [vm_compute; split; [discriminate | reflexivity] | reflexivity].
Defined.

(** ** The sampler: every pixel of the result *)

(** X3: the image that [resize] returns holds, at every coordinate inside
    the requested size, the source sample at the computed coordinates
    (converted to NRGBA), and reads as the zero pixel everywhere else; this
    also covers negative sizes, where no pixel is written at all. *)
Theorem resize_pixels (img : image.Image) (width height : Z) (grid : image.NRGBA)
    (x y : Z) :
  resize img width height = Ok grid ->
  image.NRGBA_At grid x y =
    if (0 <=? x) && (x <? width) && (0 <=? y) && (y <? height)
    then sampled img width height x y
    else image.zero_pixel.
Proof.
  intros Hg.
  destruct ((0 <=? x) && (x <? width) && (0 <=? y) && (y <? height)) eqn:Hin.
  - rewrite !andb_true_iff, !Z.leb_le, !Z.ltb_lt in Hin.
    apply (resize_At _ _ _ _ _ _ Hg); lia.
  - unfold image.NRGBA_At. destruct (image.In x y _); [| reflexivity].
    rewrite (resize_inv _ _ _ _ Hg). unfold resize_loops.
    rewrite (proj2 (resize_fold img width height _ _) x y).
    destruct (decide _) as [[Hp _] | _]; [| reflexivity].
    apply elem_of_resize_points in Hp.
    assert (Hin' : (0 <=? x) && (x <? width) && (0 <=? y) && (y <? height) = true).
    { rewrite !andb_true_iff, !Z.leb_le, !Z.ltb_lt. lia. }
    congruence.
Qed.

Lemma resize_pixels_witness :
  image.NRGBA_At (resize_loops (gradient 4 4) 7 5 (image.blank (image.Rect 0 0 7 5))) 6 4 =
    if (0 <=? 6) && (6 <? 7) && (0 <=? 4) && (4 <? 5)
    then sampled (gradient 4 4) 7 5 6 4
    else image.zero_pixel.
Proof.
  apply (resize_pixels (gradient 4 4) 7 5). vm_compute. reflexivity.
Defined.

(** X4: on a source of at most 21 by 21 pixels, a resize to the source
    size is the identity: every pixel of the result is the source pixel at
    the same coordinates (converted to NRGBA). 22 is the first length at
    which this fails. *)
Theorem resize_identity_small (img : image.Image) (x y : Z) :
  let size := image.Size (image.Bounds img) in
  image.X size <= 21 -> image.Y size <= 21 ->
  0 <= x < image.X size -> 0 <= y < image.Y size ->
  exists grid,
    resize img (image.X size) (image.Y size) = Ok grid /\
    image.NRGBA_At grid x y = color.nrgbaModel (image.At img x y).
Proof.
  intros size HW HH Hx Hy.
  eexists. split; [apply resize_fits, fits_below; lia |].
  apply resize_identity_exact; try assumption;
    [apply resize_fits, fits_below; lia | |];
    apply source_coord_identity_small; assumption.
Qed.

Lemma resize_identity_small_witness :
  exists grid,
    resize (gradient 21 21) 21 21 = Ok grid /\
    image.NRGBA_At grid 20 20 = color.nrgbaModel (image.At (gradient 21 21) 20 20).
Proof.
  apply (resize_identity_small (gradient 21 21) 20 20); vm_compute;
    first [discriminate | split; first [discriminate | reflexivity]].
Defined.

(** ** The sampler: the quotient stays below 1 *)

Lemma loc_bits_value (q : positive) (l : location) :
  4 * Z.pos q <= Z.pos (loc_bits q l) <= 4 * Z.pos q + 3 /\
  (l = loc_Exact -> Z.pos (loc_bits q l) = 4 * Z.pos q).
Proof.
  destruct l as [| []]; cbn [loc_bits]; split; try discriminate; try reflexivity;
    lia.
Qed.

Lemma shr_record_of_loc_shifted (q : positive) (l : location) :
  shr_record_of_loc (Z.pos q) l = shifted (Z.pos (loc_bits q l)) 2.
Proof.
  unfold shifted. change (2 ^ Z.of_nat 2) with 4.
  assert (H : forall c, 0 <= c < 4 ->
            (4 * Z.pos q + c) / 4 = Z.pos q /\ (4 * Z.pos q + c) mod 4 = c).
  { intros c Hc. split.
    - symmetry. apply (Z.div_unique _ 4 _ c); lia.
    - symmetry. apply (Z.mod_unique _ 4 (Z.pos q) c); lia. }
  destruct l as [| []]; cbn [loc_bits shr_record_of_loc].
  - change (Z.pos q~0~0) with (4 * Z.pos q + 0) at 1 2 3 4.
    destruct (H 0 ltac:(lia)) as [-> ->]. reflexivity.
  - change (Z.pos q~1~0) with (4 * Z.pos q + 2) at 1 2 3 4.
    destruct (H 2 ltac:(lia)) as [-> ->]. reflexivity.
  - change (Z.pos q~0~1) with (4 * Z.pos q + 1) at 1 2 3 4.
    destruct (H 1 ltac:(lia)) as [-> ->]. reflexivity.
  - change (Z.pos q~1~1) with (4 * Z.pos q + 3) at 1 2 3 4.
    destruct (H 3 ltac:(lia)) as [-> ->]. reflexivity.
Qed.

Lemma loc_bits_digits (q : positive) (l : location) :
  Z.pos (digits2_pos (loc_bits q l)) = Z.pos (digits2_pos q) + 2.
Proof. destruct l as [| []]; cbn [loc_bits digits2_pos]; lia. Qed.

(** Rounding a mantissa with an inexact position is rounding the exact
    mantissa that carries the position in two more bits. *)
Lemma round_aux_loc (s : bool) (q : positive) (e : Z) (l : location) :
  e <= fexp64 (Z.pos (digits2_pos q) + e) ->
  round_aux64 s (Z.pos q) e l = round_aux64 s (Z.pos (loc_bits q l)) (e - 2) loc_Exact.
Proof.
  intros He. unfold binary_round_aux.
  assert (H1 : shr_fexp prec emax (Z.pos q) e l =
               shr_fexp prec emax (Z.pos (loc_bits q l)) (e - 2) loc_Exact).
  { unfold shr_fexp. cbn [Zdigits2]. rewrite loc_bits_digits.
    replace (Z.pos (digits2_pos q) + 2 + (e - 2)) with (Z.pos (digits2_pos q) + e) by lia.
    set (E := fexp64 (Z.pos (digits2_pos q) + e)) in *.
    cbn [shr_record_of_loc]. rewrite shr_exact by lia.
    rewrite shr_record_of_loc_shifted.
    replace (e - 2 + (E - (e - 2))) with E by lia.
    destruct (E - e) as [| p | p] eqn:Hn; [| | lia]; cbn [shr].
    - f_equal; [| lia]. f_equal. replace (E - (e - 2)) with 2 by lia. reflexivity.
    - f_equal; [| lia]. rewrite iter_pos_nat.
      rewrite <- (shr_iter (Z.pos (loc_bits q l)) 2) by lia.
      rewrite <- Nat.iter_add, shr_iter by lia. f_equal. lia. }
  rewrite H1. reflexivity.
Qed.

Lemma new_location_exact (n r : Z) : r = 0 -> new_location n r = loc_Exact.
Proof.
  intros ->. unfold new_location, new_location_even, new_location_odd.
  destruct (Z.even n); reflexivity.
Qed.

(** The quotient of two 53-bit mantissas, as [SFdiv] prepares it for
    rounding. *)
Lemma SFdiv_core_53 (mx mw : positive) (ex ew : Z) :
  Z.pos (digits2_pos mx) = 53 -> Z.pos (digits2_pos mw) = 53 ->
  -52 <= ex <= 0 -> -52 <= ew <= 0 ->
  SFdiv_core_binary prec emax (Z.pos mx) ex (Z.pos mw) ew =
    ((Z.pos mx * 2 ^ 53) / Z.pos mw, ex - ew - 53,
     new_location (Z.pos mw) ((Z.pos mx * 2 ^ 53) mod Z.pos mw)).
Proof.
  intros Hdx Hdw Hex Hew. unfold SFdiv_core_binary. cbn [Zdigits2]. rewrite Hdx, Hdw.
  rewrite fexp64_eq.
  replace (Z.min (Z.max (53 + ex - (53 + ew) - 53) (-1074)) (ex - ew))
    with (ex - ew - 53) by lia.
  replace (ex - ew - (ex - ew - 53)) with 53 by lia.
  cbv beta iota zeta. rewrite Z.shiftl_mul_pow2 by lia.
  unfold Z.div, Z.modulo. destruct (Z.div_eucl _ _). reflexivity.
Qed.

(** The binary64 quotient of two integers [x < w] below [2^53] is at most
    [1 - 2^-53]. *)
Lemma div_below_one (x w : Z) :
  0 <= x < w -> w < 2 ^ 53 ->
  nonneg_le (Prim2SF (float64_of_int x / float64_of_int w)) (2 ^ 53 - 1) (-53).
Proof.
  intros Hx Hw. rewrite div_spec.
  destruct (Prim2SF_of_int_pos w ltac:(lia)) as (mw & ew & -> & Hew & Hmw & Hdw).
  destruct (Z.eq_dec x 0) as [-> | Hx0].
  { assert (E : Prim2SF (float64_of_int 0) = S754_zero false) by reflexivity.
    rewrite E. exact I. }
  destruct (Prim2SF_of_int_pos x ltac:(lia)) as (mx & ex & -> & Hex & Hmx & Hdx).
  unfold SF64div, SFdiv. rewrite (SFdiv_core_53 mx mw ex ew Hdx Hdw Hex Hew).
  cbn [xorb].
  pose proof (digits2_pos_bounds mx) as [Hxlo Hxhi]. rewrite Hdx in Hxlo, Hxhi.
  pose proof (digits2_pos_bounds mw) as [Hwlo Hwhi]. rewrite Hdw in Hwlo, Hwhi.
  change (53 - 1) with 52 in Hxlo, Hwlo.
  set (a := - ex) in *. set (b := - ew) in *.
  assert (Ha : 0 <= a <= 52) by (unfold a; lia).
  assert (Hb : 0 <= b <= 52) by (unfold b; lia).
  pose proof (pow2_pos a ltac:(lia)) as HPa. pose proof (pow2_pos b ltac:(lia)) as HPb.
  (* the exponent of x is not above that of w *)
  assert (Hab : b <= a).
  { destruct (Z.le_gt_cases b a) as [L | L]; [exact L | exfalso].
    assert (H : 2 * 2 ^ a <= 2 ^ b).
    { replace b with (1 + a + (b - 1 - a)) by lia. rewrite !pow2_split by lia.
      change (2 ^ 1) with 2. pose proof (pow2_pos (b - 1 - a) ltac:(lia)). nia. }
    assert (2 ^ 53 <= 2 * (x * 2 ^ a)) by lia.
    assert (2 * (x * 2 ^ a) <= x * 2 ^ b) by nia.
    assert (x * 2 ^ b < w * 2 ^ b) by nia. lia. }
  set (D := 2 ^ (a - b)).
  assert (HD : 1 <= D) by (pose proof (pow2_pos (a - b) ltac:(lia)); unfold D; lia).
  assert (HaD : 2 ^ a = D * 2 ^ b).
  { unfold D. rewrite <- pow2_split by lia. f_equal. lia. }
  (* x * 2^53 <= w * (2^53 - 1), on the mantissas *)
  assert (Hval : Z.pos mx * 2 ^ 53 <= Z.pos mw * (D * (2 ^ 53 - 1))).
  { rewrite Hmx, Hmw, HaD.
    assert (x * 2 ^ 53 <= w * (2 ^ 53 - 1)) by lia.
    replace (x * (D * 2 ^ b) * 2 ^ 53) with (x * 2 ^ 53 * (D * 2 ^ b)) by ring.
    replace (w * 2 ^ b * (D * (2 ^ 53 - 1))) with (w * (2 ^ 53 - 1) * (D * 2 ^ b)) by ring.
    apply Z.mul_le_mono_nonneg_r; lia. }
  pose proof (Z.div_mod (Z.pos mx * 2 ^ 53) (Z.pos mw) ltac:(lia)) as Hdm.
  pose proof (Z.mod_pos_bound (Z.pos mx * 2 ^ 53) (Z.pos mw) ltac:(lia)) as Hr.
  set (q := Z.pos mx * 2 ^ 53 / Z.pos mw) in *.
  set (r := (Z.pos mx * 2 ^ 53) mod Z.pos mw) in *.
  assert (Hq52 : 2 ^ 52 <= q).
  { apply Z.div_le_lower_bound; [lia |].
    change (2 ^ 53) with (2 * 2 ^ 52) at 1.
    change (2 ^ 53) with 9007199254740992 in *. change (2 ^ 52) with 4503599627370496 in *.
    nia. }
  assert (Hq54 : q < 2 ^ 54).
  { apply Z.div_lt_upper_bound; [lia |].
    change (2 ^ 54) with (2 * 2 ^ 53).
    change (2 ^ 53) with 9007199254740992 in *. change (2 ^ 52) with 4503599627370496 in *.
    nia. }
  assert (HqD : q <= D * (2 ^ 53 - 1) /\ (q = D * (2 ^ 53 - 1) -> r = 0)).
  { assert (H : Z.pos mw * q + r <= Z.pos mw * (D * (2 ^ 53 - 1))) by lia.
    split.
    - destruct (Z.le_gt_cases q (D * (2 ^ 53 - 1))) as [L | L]; [exact L | exfalso].
      assert (Z.pos mw * (D * (2 ^ 53 - 1) + 1) <= Z.pos mw * q)
        by (apply Z.mul_le_mono_nonneg_l; lia).
      lia.
    - intros ->. lia. }
  destruct q as [| qp | qp] eqn:Eq; [lia | | lia].
  assert (Hdq : 53 <= Z.pos (digits2_pos qp) <= 54).
  { pose proof (digits2_pos_bounds qp) as [Hlo Hhi]. split.
    - assert (H : 2 ^ 52 < 2 ^ Z.pos (digits2_pos qp)) by lia.
      apply pow2_lt_inv in H; lia.
    - assert (H : 2 ^ (Z.pos (digits2_pos qp) - 1) < 2 ^ 54) by lia.
      apply pow2_lt_inv in H; lia. }
  rewrite round_aux_loc by (rewrite fexp64_eq; unfold a, b in *; lia).
  set (l := new_location (Z.pos mw) r).
  destruct (loc_bits_value qp l) as [[HMlo HMhi] HMex].
  apply round_aux_nonneg_le.
  - unfold a, b in *. lia.
  - rewrite loc_bits_digits, fexp64_eq. unfold a, b in *. lia.
  - lia.
  - split; [apply Z.leb_le | apply Z.ltb_lt]; reflexivity.
  - left.
    assert (HM : Z.pos (loc_bits qp l) <= 4 * D * (2 ^ 53 - 1)).
    { destruct HqD as [HqD Hq0].
      destruct (Z.eq_dec (Z.pos qp) (D * (2 ^ 53 - 1))) as [E | NE].
      - rewrite HMex; [lia |]. apply new_location_exact. exact (Hq0 E).
      - lia. }
    unfold units. replace (ex - ew - 53 - 2 + 1074) with (1019 - (a - b))
      by (unfold a, b; lia).
    change (-53 + 1074) with 1021.
    assert (HP : 4 * D * 2 ^ (1019 - (a - b)) = 2 ^ 1021).
    { unfold D. change 4 with (2 ^ 2).
      rewrite <- !pow2_split by lia. f_equal. lia. }
    pose proof (pow2_pos (1019 - (a - b)) ltac:(lia)) as HPP.
    assert (Z.pos (loc_bits qp l) * 2 ^ (1019 - (a - b))
            <= 4 * D * (2 ^ 53 - 1) * 2 ^ (1019 - (a - b)))
      by (apply Z.mul_le_mono_nonneg_r; lia).
    replace (4 * D * (2 ^ 53 - 1) * 2 ^ (1019 - (a - b)))
      with ((2 ^ 53 - 1) * (4 * D * 2 ^ (1019 - (a - b)))) in H by ring.
    rewrite HP in H.
    pose proof (pow2_pos 1021 ltac:(lia)).
    revert H H0. generalize (2 ^ 1021).
    generalize (Z.pos (loc_bits qp l) * 2 ^ (1019 - (a - b))).
    intros; lia.
Qed.

(** A number below 1 times the integer [N] truncates to an integer below
    [N]. *)
Lemma below_one_times_int (L : float) (N : Z) :
  1 <= N < 2 ^ 53 ->
  nonneg_le (Prim2SF L) (2 ^ 53 - 1) (-53) ->
  0 <= int_of_float64 (L * float64_of_int N) <= N - 1.
Proof.
  intros HN HL. unfold int_of_float64. rewrite mul_spec.
  destruct (Prim2SF_of_int_pos N ltac:(lia)) as (mN & eN & -> & HeN & HmN & HdN).
  destruct (Prim2SF L) as [s | s | | s mL eL]; try contradiction.
  - cbn [SF64mul SFmul SF2int]. lia.
  - destruct s; [contradiction |]. destruct HL as [HeL HL].
    unfold SF64mul, SFmul. cbn [xorb].
    rewrite Pos.mul_comm, Z.add_comm.
    apply (mul_trunc_below mN mL eN eL N); try assumption; lia.
Qed.

Lemma source_coord_inside (x width input : Z) :
  0 <= x < width -> width < 2 ^ 53 -> 1 <= input < 2 ^ 53 ->
  0 <= source_coord x width input <= input - 1.
Proof.
  intros Hx Hw Hi. unfold source_coord.
  apply below_one_times_int; [exact Hi |]. apply div_below_one; assumption.
Qed.

(** X5: the sampler never reads outside the source. For a source of
    Ws by Hs pixels (both at least 1) and any target size, all below 2^53,
    the source coordinates computed for a target pixel satisfy
    0 <= ix < Ws and 0 <= iy < Hs, whatever the rounding of the binary64
    quotient and product does, and the target pixel of the image that
    [resize] returns is that sample. *)
Theorem resize_reads_inside (img : image.Image) (width height : Z)
    (grid : image.NRGBA) (x y : Z) :
  let size := image.Size (image.Bounds img) in
  resize img width height = Ok grid ->
  1 <= image.X size < 2 ^ 53 -> 1 <= image.Y size < 2 ^ 53 ->
  0 <= x < width -> width < 2 ^ 53 -> 0 <= y < height -> height < 2 ^ 53 ->
  exists ix iy,
    0 <= ix < image.X size /\ 0 <= iy < image.Y size /\
    image.NRGBA_At grid x y = color.nrgbaModel (image.At img ix iy).
Proof.
  intros size Hg HX HY Hx Hw Hy Hh.
  exists (source_coord x width (image.X size)), (source_coord y height (image.Y size)).
  pose proof (source_coord_inside x width (image.X size) Hx Hw HX).
  pose proof (source_coord_inside y height (image.Y size) Hy Hh HY).
  split; [lia |]. split; [lia |]. apply (resize_At _ _ _ _ _ _ Hg); assumption.
Qed.

Lemma resize_reads_inside_witness :
  exists ix iy,
    0 <= ix < 4 /\ 0 <= iy < 4 /\
    image.NRGBA_At (resize_loops (gradient 4 4) 7 5 (image.blank (image.Rect 0 0 7 5))) 6 4
      = color.nrgbaModel (image.At (gradient 4 4) ix iy).
Proof.
  apply (resize_reads_inside (gradient 4 4) 7 5 _ 6 4);
    [vm_compute; reflexivity | ..]; vm_compute;
    first [reflexivity | split; first [discriminate | reflexivity]].
Defined.

(** ** Exact products and quotients *)

(** A mantissa that is a canonical one [m] followed by [k] zero bits
    rounds to [m], exactly. *)
Lemma round_aux_zeros (s : bool) (M m : positive) (e k : Z) :
  0 <= k -> Z.pos M = Z.pos m * 2 ^ k ->
  fexp64 (Z.pos (digits2_pos m) + e) = e -> e <= 971 ->
  round_aux64 s (Z.pos M) (e - k) loc_Exact = S754_finite s m e.
Proof.
  intros Hk HM Hc He.
  destruct (Z.eq_dec k 0) as [-> | Hk0].
  { rewrite Z.mul_1_r in HM. injection HM as ->. rewrite Z.sub_0_r.
    apply round_aux_exact; assumption. }
  assert (Hd : Z.pos (digits2_pos M) = Z.pos (digits2_pos m) + k).
  { destruct k as [| kp | kp]; try lia.
    rewrite <- iter_xO_value in HM. injection HM as ->. apply iter_xO_digits. }
  unfold binary_round_aux, shr_fexp. cbn [Zdigits2 shr_record_of_loc].
  rewrite Hd. replace (Z.pos (digits2_pos m) + k + (e - k)) with (Z.pos (digits2_pos m) + e) by lia.
  rewrite Hc, shr_exact by lia.
  replace (e - (e - k)) with k by lia. replace (e - k + k) with e by lia.
  pose proof (pow2_pos k Hk) as HP.
  assert (Hs : shifted (Z.pos M) (Z.to_nat k) = Build_shr_record (Z.pos m) false false).
  { unfold shifted. rewrite Z2Nat.id by lia. rewrite HM.
    rewrite Z.div_mul, Z.mod_mul by lia.
    destruct (Z.leb_spec (2 ^ k) (2 * 0)); [lia | reflexivity]. }
  rewrite Hs. cbn [shr_m loc_of_shr_record round_nearest_even Zdigits2 shr_record_of_loc].
  rewrite Hc, Z.sub_diag. cbn [shr shr_m].
  destruct (Z.leb_spec e (emax - prec)) as [_ | L]; [reflexivity |].
  change (emax - prec) with 971 in L. lia.
Qed.

(** The rounded product of the mantissas of two positive integers whose
    exact product is below [2^53], at an exponent lowered by [j], is the
    exact product. *)
Lemma product_rounds_exact (a b j : Z) (ma mb : positive) (ea eb : Z) :
  0 < a -> 0 < b -> a * b < 2 ^ 53 -> 0 <= j <= 52 ->
  -52 <= ea <= 0 -> Z.pos ma = a * 2 ^ (- ea) -> Z.pos (digits2_pos ma) = 53 ->
  -52 <= eb <= 0 -> Z.pos mb = b * 2 ^ (- eb) -> Z.pos (digits2_pos mb) = 53 ->
  exists mp ep,
    Prim2SF (float64_of_int (a * b)) = S754_finite false mp ep /\
    -52 <= ep <= 0 /\ Z.pos mp = a * b * 2 ^ (- ep) /\
    round_aux64 false (Z.pos (ma * mb)) (ea + eb - j) loc_Exact
      = S754_finite false mp (ep - j).
Proof.
  intros Ha Hb Hab Hj Hea Hma Hda Heb Hmb Hdb.
  destruct (Prim2SF_of_int_pos (a * b) ltac:(nia)) as (mp & ep & HP & Hep & Hmp & Hdp).
  exists mp, ep. split; [exact HP |]. split; [exact Hep |]. split; [exact Hmp |].
  pose proof (digits2_pos_bounds ma) as [Halo Hahi]. rewrite Hda in Halo, Hahi.
  pose proof (digits2_pos_bounds mb) as [Hblo Hbhi]. rewrite Hdb in Hblo, Hbhi.
  change (53 - 1) with 52 in Halo, Hblo.
  pose proof (pow2_pos (- ea) ltac:(lia)) as HPa.
  pose proof (pow2_pos (- eb) ltac:(lia)) as HPb.
  assert (Hprod : Z.pos (ma * mb) = a * b * 2 ^ (- ea + - eb)).
  { rewrite Pos2Z.inj_mul, Hma, Hmb, pow2_split by lia. ring. }
  assert (Hk : 52 <= - ea + - eb).
  { destruct (Z.le_gt_cases 52 (- ea + - eb)) as [L | L]; [exact L | exfalso].
    assert (2 ^ 104 <= Z.pos (ma * mb)).
    { rewrite Pos2Z.inj_mul. change (2 ^ 104) with (2 ^ 52 * 2 ^ 52).
      apply Z.mul_le_mono_nonneg; lia. }
    assert (2 ^ (- ea + - eb) <= 2 ^ 51) by (apply Z.pow_le_mono_r; lia).
    pose proof (pow2_pos (- ea + - eb) ltac:(lia)) as HPab.
    assert (a * b * 2 ^ (- ea + - eb) < 2 ^ 53 * 2 ^ (- ea + - eb))
      by (apply Z.mul_lt_mono_pos_r; lia).
    assert (2 ^ 53 * 2 ^ (- ea + - eb) <= 2 ^ 53 * 2 ^ 51)
      by (apply Z.mul_le_mono_nonneg_l; lia).
    assert (2 ^ 53 * 2 ^ 51 = 2 ^ 104) by reflexivity. lia. }
  replace (ea + eb - j) with (ep - j - (ep - ea - eb)) by lia.
  apply round_aux_zeros.
  - lia.
  - rewrite Hprod, Hmp. replace (- ea + - eb) with (- ep + (ep - ea - eb)) by lia.
    rewrite pow2_split by lia. ring.
  - rewrite Hdp, fexp64_eq. lia.
  - lia.
Qed.

(** The binary64 product of two positive integers whose exact product is
    below [2^53] is that product. *)
Lemma mul_int_exact (a b : Z) :
  0 < a -> 0 < b -> a * b < 2 ^ 53 ->
  Prim2SF (float64_of_int a * float64_of_int b) = Prim2SF (float64_of_int (a * b)).
Proof.
  intros Ha Hb Hab. rewrite mul_spec.
  destruct (Prim2SF_of_int_pos a ltac:(nia)) as (ma & ea & -> & Hea & Hma & Hda).
  destruct (Prim2SF_of_int_pos b ltac:(nia)) as (mb & eb & -> & Heb & Hmb & Hdb).
  destruct (product_rounds_exact a b 0 ma mb ea eb) as (mp & ep & -> & _ & _ & Hr);
    try assumption; try lia.
  unfold SF64mul, SFmul. cbn [xorb]. rewrite !Z.sub_0_r in Hr. exact Hr.
Qed.

Lemma int_of_float64_of_int (N : Z) :
  0 <= N < 2 ^ 53 -> int_of_float64 (float64_of_int N) = N.
Proof.
  intros HN. unfold int_of_float64.
  destruct (Z.eq_dec N 0) as [-> | H0]; [reflexivity |].
  destruct (Prim2SF_of_int_pos N ltac:(lia)) as (mN & eN & -> & HeN & HmN & HdN).
  cbn [SF2int]. unfold trunc_finite. rewrite HmN.
  pose proof (pow2_pos (- eN) ltac:(lia)) as HP.
  assert (Ht : (if 0 <=? eN then N * 2 ^ (- eN) * 2 ^ eN
                else N * 2 ^ (- eN) / 2 ^ (- eN)) = N).
  { destruct (Z.leb_spec 0 eN).
    - replace eN with 0 by lia. cbn. lia.
    - apply Z.div_mul. lia. }
  rewrite Ht.
  assert (Hr : (min_int <=? N) && (N <=? max_int) = true).
  { apply andb_true_iff. unfold min_int, max_int. split; apply Z.leb_le; [lia |].
    assert (2 ^ 53 < 2 ^ 63 - 1) by reflexivity. lia. }
  rewrite Hr. reflexivity.
Qed.






(** ** The scale override with an integer factor *)

Lemma scaled_by_int (size k : Z) :
  0 <= size -> 1 <= k < 2 ^ 53 -> size * k < 2 ^ 53 ->
  int_of_float64 (float64_of_int size * float64_of_int k) = size * k.
Proof.
  intros Hs Hk Hp. destruct (Z.eq_dec size 0) as [-> | H0].
  - unfold int_of_float64. rewrite mul_spec.
    destruct (Prim2SF_of_int_pos k ltac:(lia)) as (mk & ek & -> & _).
    reflexivity.
  - unfold int_of_float64. rewrite mul_int_exact by lia.
    apply int_of_float64_of_int. lia.
Qed.

Lemma int_scale_nonzero (k : Z) :
  1 <= k < 2 ^ 53 -> (float64_of_int k =? 0)%float = false.
Proof.
  intros Hk. rewrite FloatAxioms.eqb_spec.
  destruct (Prim2SF_of_int_pos k ltac:(lia)) as (mk & ek & -> & _).
  reflexivity.
Qed.

(** X7: a scale factor that is a whole number k >= 1 multiplies both
    source dimensions by k exactly (as long as the products stay below
    2^53), whatever the dimension spec says. *)
Theorem integer_scale_is_exact (opts : Options) (img : image.Image) (k ow oh : Z) :
  let size := image.Size (image.Bounds img) in
  parseResize (Resize opts) img = inr (ow, oh) ->
  Scale opts = float64_of_int k -> 1 <= k < 2 ^ 53 ->
  0 <= image.X size -> 0 <= image.Y size ->
  image.X size * k < 2 ^ 53 -> image.Y size * k < 2 ^ 53 ->
  target_dimensions opts img = Ok (image.X size * k, image.Y size * k).
Proof.
  intros size Hp Hs Hk HX HY HXk HYk.
  rewrite (target_dimensions_scaled opts img ow oh Hp)
    by (rewrite Hs; apply int_scale_nonzero; lia).
  rewrite Hs. fold size. rewrite !scaled_by_int by assumption. reflexivity.
Qed.

Lemma integer_scale_is_exact_witness :
  target_dimensions (options "10x10" (float64_of_int 3)) (gradient 4 5)
    = Ok (4 * 3, 5 * 3).
Proof.
  apply (integer_scale_is_exact (options "10x10" (float64_of_int 3)) (gradient 4 5)
           3 10 10); vm_compute;
    first [reflexivity | discriminate | split; first [discriminate | reflexivity]].
Defined.

(** ** The dimension spec: what parses, and to what *)

Lemma digit_range (c : ascii) :
  is_digit c = true -> 0 <= Z.of_nat (nat_of_ascii c) - 48 <= 9.
Proof.
  unfold is_digit. rewrite andb_true_iff, !Z.leb_le. lia.
Qed.

Lemma decimal_acc_ge (s : string) :
  all_digits s = true -> forall n, 0 <= n -> n <= decimal_acc s n.
Proof.
  induction s as [| c s IH]; intros H n Hn; cbn [decimal_acc]; [lia |].
  cbn [all_digits] in H. apply andb_true_iff in H. destruct H as [Hc H].
  pose proof (digit_range c Hc).
  specialize (IH H (n * 10 + (Z.of_nat (nat_of_ascii c) - 48))).
  lia.
Qed.

(** On digits the loop of [ParseUint] computes the number they denote, or
    fails with [ErrRange] when that number exceeds [2^32 - 1]. *)
Lemma ParseUint_loop_digits (s : string) :
  all_digits s = true -> forall n, 0 <= n <= 2 ^ 32 - 1 ->
  ParseUint_loop s n =
    if decimal_acc s n <=? 2 ^ 32 - 1 then inr (decimal_acc s n) else inl ErrRange.
Proof.
  induction s as [| c s IH]; intros H n Hn; cbn [ParseUint_loop decimal_acc].
  - destruct (Z.leb_spec n (2 ^ 32 - 1)); [reflexivity | lia].
  - cbn [all_digits] in H. apply andb_true_iff in H. destruct H as [Hc H].
    rewrite Hc. pose proof (digit_range c Hc) as Hd.
    set (d := Z.of_nat (nat_of_ascii c) - 48) in *.
    destruct (Z.leb_spec ((2 ^ 64 - 1) / 10 + 1) n) as [L | _].
    { exfalso. assert (2 ^ 32 - 1 < (2 ^ 64 - 1) / 10 + 1) by reflexivity. lia. }
    destruct (Z.ltb_spec (2 ^ 32 - 1) (n * 10 + d)) as [L | L].
    + pose proof (decimal_acc_ge s H (n * 10 + d) ltac:(lia)).
      destruct (Z.leb_spec (decimal_acc s (n * 10 + d)) (2 ^ 32 - 1)); [lia | reflexivity].
    + apply IH; [exact H | lia].
Qed.

Lemma ParseUint_loop_inr (s : string) :
  forall n r, 0 <= n <= 2 ^ 32 - 1 -> ParseUint_loop s n = inr r ->
  all_digits s = true /\ r = decimal_acc s n /\ 0 <= r <= 2 ^ 32 - 1.
Proof.
  induction s as [| c s IH]; intros n r Hn H; cbn [ParseUint_loop] in H.
  - injection H as <-. cbn. lia.
  - destruct (is_digit c) eqn:Hc; [| discriminate H].
    pose proof (digit_range c Hc) as Hd.
    destruct (_ <=? n); [discriminate H |].
    destruct (Z.ltb_spec (2 ^ 32 - 1) (n * 10 + (Z.of_nat (nat_of_ascii c) - 48)))
      as [L | L]; [discriminate H |].
    destruct (IH (n * 10 + (Z.of_nat (nat_of_ascii c) - 48)) r ltac:(lia) H)
      as (Ha & Hr & Hb).
    cbn [all_digits decimal_acc]. rewrite Hc, Ha. auto.
Qed.

Lemma ParseUint_numeral (s : string) :
  numeric s = true ->
  ParseUint_10_32 s =
    if decimal_value s <=? 2 ^ 32 - 1 then inr (decimal_value s)
    else inl (NumError "ParseUint" s ErrRange).
Proof.
  intros H. destruct s as [| c s]; [discriminate H |]. unfold ParseUint_10_32.
  cbn [numeric] in H. rewrite (ParseUint_loop_digits _ H 0) by lia.
  fold (decimal_value (String c s)). destruct (_ <=? _); reflexivity.
Qed.

Lemma ParseUint_inr (s : string) (r : Z) :
  ParseUint_10_32 s = inr r ->
  numeric s = true /\ r = decimal_value s /\ 0 <= r <= 2 ^ 32 - 1.
Proof.
  destruct s as [| c s]; [discriminate |]. unfold ParseUint_10_32.
  destruct (ParseUint_loop (String c s) 0) as [e | n] eqn:H; [discriminate |].
  intros [= <-]. apply ParseUint_loop_inr in H; [| lia]. exact H.
Qed.

Lemma digits_no_x (s : string) : all_digits s = true -> has_x s = false.
Proof.
  induction s as [| c s IH]; [reflexivity |]. cbn [all_digits has_x].
  rewrite andb_true_iff. intros [Hc H]. rewrite (IH H), orb_false_r.
  destruct (Ascii.eqb_spec c "x") as [-> | _]; [discriminate Hc | reflexivity].
Qed.

Lemma numeric_all_digits (s : string) : numeric s = true -> all_digits s = true.
Proof. destruct s; [discriminate | exact (fun H => H)]. Qed.

Lemma cut_x_inv (s before after : string) :
  cut_x s = Some (before, after) ->
  s = before +:+ "x" +:+ after /\ has_x before = false.
Proof.
  revert before. induction s as [| c s IH]; intros before H; cbn [cut_x] in H;
    [discriminate H |].
  destruct (Ascii.eqb_spec c "x") as [-> | Hne].
  - injection H as <- <-. split; reflexivity.
  - destruct (cut_x s) as [[b a] |]; [| discriminate H]. injection H as <- <-.
    destruct (IH b eq_refl) as [-> Hb]. split; [reflexivity |].
    cbn [has_x]. rewrite Hb.
    destruct (Ascii.eqb_spec c "x"); [contradiction | reflexivity].
Qed.

Lemma parseResize_parts (width height : string) (img : image.Image) :
  has_x width = false ->
  parseResize (width +:+ "x" +:+ height) img =
    match ParseUint_10_32 width with
    | inl err => inl err
    | inr w =>
        match ParseUint_10_32 height with
        | inl err => inl err
        | inr h => inr (w, h)
        end
    end.
Proof.
  intros Hx. unfold parseResize, SplitN_x_2. rewrite (cut_x_first _ _ Hx).
  destruct (width +:+ "x" +:+ height) as [| c s] eqn:E.
  - destruct width; discriminate E.
  - rewrite len_nonempty. reflexivity.
Qed.

(** X8: a dimension spec made of two decimal numerals around an "x",
    each denoting a number below 2^32, parses to exactly these two numbers;
    leading zeros and the value 0 are accepted. *)
Theorem parseResize_numerals (width height : string) (img : image.Image) :
  numeric width = true -> numeric height = true ->
  decimal_value width < 2 ^ 32 -> decimal_value height < 2 ^ 32 ->
  parseResize (width +:+ "x" +:+ height) img
    = inr (decimal_value width, decimal_value height).
Proof.
  intros Hw Hh Vw Vh.
  rewrite parseResize_parts by (apply digits_no_x, numeric_all_digits, Hw).
  rewrite (ParseUint_numeral _ Hw), (ParseUint_numeral _ Hh).
  destruct (Z.leb_spec (decimal_value width) (2 ^ 32 - 1)); [| lia].
  destruct (Z.leb_spec (decimal_value height) (2 ^ 32 - 1)); [| lia].
  reflexivity.
Qed.

Lemma parseResize_numerals_witness :
  parseResize ("0080" +:+ "x" +:+ "24") (gradient 4 4)
    = inr (decimal_value "0080", decimal_value "24").
Proof.
  apply (parseResize_numerals "0080" "24" (gradient 4 4));
    [reflexivity | reflexivity | vm_compute; reflexivity | vm_compute; reflexivity].
Defined.

(** X9: a dimension spec of two decimal numerals of which one denotes
    2^32 or more is rejected with the range error of [ParseUint] on that
    numeral (the width's, when both are too large); no wrapped or
    truncated dimension is ever returned. *)
Theorem parseResize_out_of_range (width height : string) (img : image.Image) :
  numeric width = true -> numeric height = true ->
  2 ^ 32 <= decimal_value width \/ 2 ^ 32 <= decimal_value height ->
  parseResize (width +:+ "x" +:+ height) img
    = inl (NumError "ParseUint"
             (if 2 ^ 32 <=? decimal_value width then width else height) ErrRange).
Proof.
  intros Hw Hh V.
  rewrite parseResize_parts by (apply digits_no_x, numeric_all_digits, Hw).
  rewrite (ParseUint_numeral _ Hw), (ParseUint_numeral _ Hh).
  destruct (Z.leb_spec (decimal_value width) (2 ^ 32 - 1));
    destruct (Z.leb_spec (2 ^ 32) (decimal_value width)); try lia; [| reflexivity].
  destruct (Z.leb_spec (decimal_value height) (2 ^ 32 - 1)); [lia | reflexivity].
Qed.

Lemma parseResize_out_of_range_witness :
  parseResize ("80" +:+ "x" +:+ "4294967296") (gradient 4 4)
    = inl (NumError "ParseUint"
             (if 2 ^ 32 <=? decimal_value "80" then "80" else "4294967296") ErrRange).
Proof.
  apply (parseResize_out_of_range "80" "4294967296" (gradient 4 4));
    [reflexivity | reflexivity | right; vm_compute; discriminate].
Defined.

(** X10: whenever [parseResize] succeeds on a non-empty spec, the spec is
    a decimal numeral, an "x" and a decimal numeral, the returned width and
    height are the numbers these denote, and both lie in [0, 2^32). *)
Theorem parseResize_sound (value : string) (img : image.Image) (w h : Z) :
  value <> EmptyString ->
  parseResize value img = inr (w, h) ->
  exists width height,
    value = width +:+ "x" +:+ height /\
    numeric width = true /\ numeric height = true /\
    w = decimal_value width /\ h = decimal_value height /\
    0 <= w < 2 ^ 32 /\ 0 <= h < 2 ^ 32.
Proof.
  intros Hne. unfold parseResize, SplitN_x_2.
  destruct value as [| c s]; [contradiction |]. rewrite len_nonempty.
  destruct (cut_x (String c s)) as [[before after] |] eqn:Hcut; [| discriminate].
  destruct (cut_x_inv _ _ _ Hcut) as [Hv _].
  destruct (ParseUint_10_32 before) as [e | w'] eqn:Pw; [discriminate |].
  destruct (ParseUint_10_32 after) as [e | h'] eqn:Ph; [discriminate |].
  intros [= <- <-].
  destruct (ParseUint_inr _ _ Pw) as (Nw & Vw & Rw).
  destruct (ParseUint_inr _ _ Ph) as (Nh & Vh & Rh).
  exists before, after. repeat split; try assumption; lia.
Qed.

Lemma parseResize_sound_witness :
  exists width height,
    "640x480" = width +:+ "x" +:+ height /\
    numeric width = true /\ numeric height = true /\
    640 = decimal_value width /\ 480 = decimal_value height /\
    0 <= 640 < 2 ^ 32 /\ 0 <= 480 < 2 ^ 32.
Proof.
  apply (parseResize_sound "640x480" (gradient 4 4) 640 480);
    [discriminate | reflexivity].
Defined.

(** ** The conversion as a whole *)

Lemma registered_charset (name charset : string) :
  ChararacterSets !! name = Some charset -> charset = ascii_ramp.
Proof.
  unfold ChararacterSets. intros H. apply lookup_singleton_Some in H.
  destruct H as [_ H]. symmetry. exact H.
Qed.









(** The three panics, on a 4x4 source: an unknown character set, a spec
    without an "x", and sizes that [image.NewNRGBA] refuses: the largest
    that a spec can ask for, and those of a scale that is not a number. *)
Example main_text_panic_examples :
  main_text {| Verbose := false; Output := EmptyString; Resize := EmptyString;
               Charset := "braille"; Scale := 0 |} (gradient 4 4)
    = Panic (UnknownCharacterSet "braille") /\
  main_text (options "100" 0) (gradient 4 4) = Panic (InvalidResizeValue "100") /\
  main_text (options "4294967295x4294967295" 0) (gradient 4 4)
    = Panic HugeOrNegativeDimensions /\
  main_text (options EmptyString (0 / 0)) (gradient 4 4)
    = Panic HugeOrNegativeDimensions.
Proof. repeat split; vm_compute; reflexivity. Qed.

Lemma every_byte_append (P : ascii -> Prop) (s1 s2 : string) :
  every_byte P s1 -> every_byte P s2 -> every_byte P (s1 +:+ s2).
Proof.
  intros H1 H2. induction s1 as [| c s1 IH]; [exact H2 |].
  change (String c s1 +:+ s2) with (String c (s1 +:+ s2)).
  destruct H1 as [Hc H1]. split; [exact Hc | exact (IH H1)].
Qed.

Lemma all_bytes_get (f : ascii -> bool) (s : string) :
  all_bytes f s = true -> forall i c, String.get i s = Some c -> f c = true.
Proof.
  induction s as [| c0 s IH]; intros H i c Hg; [destruct i; discriminate Hg |].
  cbn [all_bytes] in H. apply andb_true_iff in H. destruct H as [H0 H].
  destruct i as [| i]; cbn [String.get] in Hg; [congruence | exact (IH H i c Hg)].
Qed.

(** What holds of the state before a loop and is kept by every pass of
    its body that does not panic, holds after the loop. *)
Lemma run_loop_invariant {S : Type} (P : S -> Prop) (body : Z -> S -> result S)
    (l : list Z) :
  (forall i s s', P s -> body i s = Ok s' -> P s') ->
  forall s s', P s -> run_loop body l s = Ok s' -> P s'.
Proof.
  intros Hbody. induction l as [| i l IH]; intros s s' Hs H; cbn [run_loop] in H.
  - injection H as <-. exact Hs.
  - destruct (body i s) as [s1 |] eqn:Hb; cbn [bind] in H; [| discriminate H].
    exact (IH s1 s' (Hbody i s s1 Hs Hb) H).
Qed.

Lemma string_index_get (s : string) (i : Z) (c : ascii) :
  string_index s i = Ok c -> String.get (Z.to_nat i) s = Some c.
Proof.
  unfold string_index. destruct (_ && _); [| discriminate].
  destruct (String.get (Z.to_nat i) s); [congruence | discriminate].
Qed.

Lemma render_bytes (charset : string) (processedImg : image.Image) (ow oh : Z)
    (text : string) :
  all_bytes is_ascii charset = true ->
  render charset processedImg ow oh = Ok text ->
  every_byte (output_byte charset) text.
Proof.
  intros Hascii. unfold render, for_lt.
  apply (run_loop_invariant (every_byte (output_byte charset))); [| exact I].
  intros y buf buf' Hbuf. unfold render_row, for_lt.
  destruct (run_loop _ (seqZ 0 ow) buf) as [line |] eqn:Hrow; cbn [bind];
    [| discriminate].
  assert (Hline : every_byte (output_byte charset) line).
  { revert Hrow. apply run_loop_invariant; [| exact Hbuf].
    intros x s s' Hs. unfold render_pixel, glyph.
    destruct (string_index charset _) as [c |] eqn:Hc; cbn [bind]; [| discriminate].
    intros [= <-]. apply every_byte_append; [exact Hs |].
    apply string_index_get in Hc.
    pose proof (all_bytes_get _ _ Hascii _ _ Hc) as Ha.
    unfold Sprintf_c. unfold is_ascii in Ha. rewrite Ha.
    split; [right; eexists; exact Hc | exact I]. }
  destruct (negb _); intros [= <-]; [| exact Hline].
  apply every_byte_append; [exact Hline |]. split; [left; reflexivity | exact I].
Qed.

(** X13: every byte of the text that the conversion produces is a byte
    of the "ascii" ramp or the line feed: nothing else is written,
    whatever the image and the options. *)
Theorem main_text_alphabet (opts : Options) (img : image.Image) (text : string) :
  main_text opts img = Ok text ->
  every_byte (output_byte ascii_ramp) text.
Proof.
  unfold main_text.
  destruct (ChararacterSets !! Charset opts) as [charset |] eqn:Hc; [| discriminate].
  apply registered_charset in Hc. subst charset.
  destruct (target_dimensions opts img) as [[ow oh] |]; cbn [bind]; [| discriminate].
  destruct (resize img ow oh) as [grid |]; cbn [bind]; [| discriminate].
  apply render_bytes. vm_compute. reflexivity.
Qed.

Lemma main_text_alphabet_witness :
  every_byte (output_byte ascii_ramp) ("." +:+ newline +:+ ".").
Proof.
  apply (main_text_alphabet (options "1x2" 0) (black_image 4 4)).
  vm_compute. reflexivity.
Defined.

(** ** [main]: arguments, input and output *)

Lemma string_length_append (a b : string) :
  String.length (a +:+ b) = (String.length a + String.length b)%nat.
Proof.
  induction a as [| c a IH]; [reflexivity |].
  change (String c a +:+ b) with (String c (a +:+ b)). cbn [String.length].
  rewrite IH. reflexivity.
Qed.

Lemma substring_all (s : string) : substring 0 (String.length s) s = s.
Proof. induction s as [| c s IH]; [reflexivity |]. cbn. rewrite IH. reflexivity. Qed.

Lemma substring_append_r (pre suf : string) :
  substring (String.length pre) (String.length suf) (pre +:+ suf) = suf.
Proof.
  induction pre as [| c pre IH]; [apply substring_all |].
  change (String c pre +:+ suf) with (String c (pre +:+ suf)). exact IH.
Qed.

Lemma substring_split (s : string) :
  forall n, (n <= String.length s)%nat ->
  s = substring 0 n s +:+ substring n (String.length s - n) s.
Proof.
  induction s as [| c s IH]; intros n Hn.
  - destruct n; [reflexivity | cbn in Hn; lia].
  - destruct n as [| n].
    + cbn [substring]. change (EmptyString +:+ ?x) with x.
      rewrite Nat.sub_0_r. symmetry. apply (substring_all (String c s)).
    + cbn [substring String.length Nat.sub].
      change (String c ?a +:+ ?b) with (String c (a +:+ b)). f_equal.
      apply IH. cbn [String.length] in Hn. lia.
Qed.

(** [HasSuffix s suffix] holds exactly when [s] is some text followed by
    [suffix]. *)
Lemma HasSuffix_spec (s suffix : string) :
  HasSuffix s suffix = true <-> exists stem, s = stem +:+ suffix.
Proof.
  unfold HasSuffix. rewrite andb_true_iff, Nat.leb_le, String.eqb_eq. split.
  - intros [Hlen Hsub].
    exists (substring 0 (String.length s - String.length suffix) s).
    rewrite <- Hsub at 2.
    rewrite (substring_split s (String.length s - String.length suffix)) at 1 by lia.
    do 2 f_equal. lia.
  - intros [stem ->]. rewrite string_length_append. split; [lia |].
    replace (String.length stem + String.length suffix - String.length suffix)%nat
      with (String.length stem) by lia.
    apply substring_append_r.
Qed.

Lemma supported_check (name : string) :
  negb (HasSuffix name ".png") && negb (HasSuffix name ".jpg")
    && negb (HasSuffix name ".jpeg") = negb (supported name).
Proof. unfold supported. do 3 destruct (HasSuffix name _); reflexivity. Qed.

Lemma main_text_inv (opts : Options) (img : image.Image) (text : string) :
  main_text opts img = Ok text ->
  exists charset ow oh processedImg,
    ChararacterSets !! Charset opts = Some charset /\
    target_dimensions opts img = Ok (ow, oh) /\
    resize img ow oh = Ok processedImg /\
    render charset (image.as_Image processedImg) ow oh = Ok text.
Proof.
  unfold main_text.
  destruct (ChararacterSets !! Charset opts) as [charset |]; [| discriminate].
  destruct (target_dimensions opts img) as [[ow oh] |]; cbn [bind]; [| discriminate].
  destruct (resize img ow oh) as [grid |] eqn:Hg; cbn [bind]; [| discriminate].
  intros H. exists charset, ow, oh, grid. repeat split; try reflexivity; assumption.
Qed.

(** X14: a run of [main] on an input with a supported suffix that opens
    and decodes, and whose conversion yields [text] (the character set is
    registered, the dimension spec parses and [image.NewNRGBA] accepts the
    target size), has exactly one effect
    besides the verbose lines. With an empty [Output] option it prints the
    text (with a trailing line feed) and writes no file; with a non-empty
    one it writes the text, without a trailing line feed, to the file named
    by [Output] with permission 0777 and prints nothing: the default file
    name, the input name followed by ".txt", is never used. The run
    returns normally unless that write fails. *)
Theorem main_output (sys : System) (name : string) (rest : list string)
    (opts : Options) (contents : string) (img : image.Image) (text : string) :
  supported name = true ->
  os_Open sys name = inr contents ->
  (if HasSuffix name ".png" then png_Decode sys contents
   else jpeg_Decode sys contents) = inr img ->
  main_text opts img = Ok text ->
  let run := main sys (Parsed (name :: rest) opts) in
  List.filter is_output (fst run)
    = [if 0 <? len (Output opts) then WriteFile (Output opts) text 511
       else Println text] /\
  snd run = match (if 0 <? len (Output opts)
                   then ioutil_WriteFile sys (Output opts) text 511 else None) with
            | Some err => Panicked (External err)
            | None => Returned
            end.
Proof.
  intros Hs Ho Hd Ht. destruct (main_text_inv opts img text Ht)
    as (charset & ow & oh & grid & Hc & Hdim & Hg & Hr).
  unfold main, main_body. rewrite supported_check, Hs. cbn [negb].
  rewrite Hc, Ho. cbn [check].
  destruct (Verbose opts); cbn [when and_then emit ret app].
  all: rewrite Hd; cbn [check and_then ret app]; rewrite Hdim; cbn [lift and_then ret app];
    rewrite Hg; cbn [lift and_then ret app]; rewrite Hr; cbn [lift and_then ret app].
  all: destruct (0 <? len (Output opts)); cbn [emit and_then ret app].
  all: try (split; reflexivity).
  all: destruct (ioutil_WriteFile sys (Output opts) text 511);
    cbn [panic and_then ret app fst snd List.filter is_output]; split; reflexivity.
Qed.

Lemma main_output_witness :
  let run := main sample_system (Parsed ["in.png"] (options "2x1" 0)) in
  List.filter is_output (fst run)
    = [if 0 <? len (Output (options "2x1" 0))
       then WriteFile (Output (options "2x1" 0)) ".." 511
       else Println ".."] /\
  snd run = match (if 0 <? len (Output (options "2x1" 0))
                   then ioutil_WriteFile sample_system (Output (options "2x1" 0)) ".." 511
                   else None) with
            | Some err => Panicked (External err)
            | None => Returned
            end.
Proof.
  apply (main_output sample_system "in.png" [] (options "2x1" 0) "data" (gradient 4 4));
    vm_compute; reflexivity.
Defined.

Ltac elem_cases H :=
  repeat (apply elem_of_cons in H; destruct H as [H | H]; [try discriminate H |]);
  try (apply elem_of_nil in H; contradiction).

Ltac quiet_panic :=
  let H := fresh "H" in
  intros [= <- <-]; split;
  [ intros ? H; elem_cases H
  | intros ? ? ? H; elem_cases H;
    try (injection H as -> -> ->; eexists; split; [eassumption | reflexivity]) ].

Ltac run_step :=
  cbn [when and_then emit ret panic check lift app];
  try discriminate; try quiet_panic.

Lemma main_body_panics (sys : System) (cmd : parsed) (effects : list effect) (c : cause) :
  main_body sys cmd = (effects, inl c) ->
  (forall text, Println text ∉ effects) /\
  (forall name data perm, WriteFile name data perm ∈ effects ->
     exists err, ioutil_WriteFile sys name data perm = Some err /\ c = External err).
Proof.
  unfold main_body. destruct cmd as [[| name rest] opts | wrote_help err].
  - run_step.
  - destruct (_ && _); [run_step |].
    destruct (ChararacterSets !! Charset opts) as [charset |]; [| run_step].
    destruct (Verbose opts); run_step.
    all: destruct (os_Open sys name) as [err | f]; run_step.
    all: destruct (if HasSuffix name ".png" then png_Decode sys f else jpeg_Decode sys f)
           as [err | img]; run_step.
    all: destruct (target_dimensions opts img) as [[ow oh] | e]; run_step.
    all: destruct (resize img ow oh) as [processedImg | e]; run_step.
    all: destruct (render charset _ ow oh) as [text | e]; run_step.
    all: destruct (0 <? len (Output opts)); run_step.
    all: destruct (ioutil_WriteFile sys (Output opts) text 511) as [err |] eqn:Hw;
      run_step.
  - destruct wrote_help; run_step.
Qed.

(** X15: a run of [main] that panics, for whatever reason, has printed no
    text; and if it has called [ioutil.WriteFile], the panic is the error
    that this very call returned. So a failed run leaves no partial art on
    standard output. *)
Theorem panicked_run_shows_nothing (sys : System) (cmd : parsed)
    (effects : list effect) (c : cause) :
  main sys cmd = (effects, Panicked c) ->
  (forall text, Println text ∉ effects) /\
  (forall name data perm, WriteFile name data perm ∈ effects ->
     exists err, ioutil_WriteFile sys name data perm = Some err /\ c = External err).
Proof.
  unfold main. destruct (main_body sys cmd) as [effs [c' | []]] eqn:Hb; [| discriminate].
  intros [= <- <-]. exact (main_body_panics sys cmd effs c' Hb).
Qed.

Lemma panicked_run_shows_nothing_witness :
  (forall text, Println text ∉ ([] : list effect)) /\
  (forall name data perm, WriteFile name data perm ∈ ([] : list effect) ->
     exists err, ioutil_WriteFile sample_system name data perm = Some err /\
       External "no such file" = External err).
Proof.
  apply (panicked_run_shows_nothing sample_system
           (Parsed ["missing.png"] (options "2x1" 0))).
  vm_compute. reflexivity.
Defined.

(** On a supported name [main] does not panic with the format error. *)
Lemma main_body_supported (sys : System) (name : string) (rest : list string)
    (opts : Options) (effects : list effect) (n : string) :
  supported name = true ->
  main_body sys (Parsed (name :: rest) opts) <> (effects, inl (UnknownImageFormat n)).
Proof.
  intros Hs. unfold main_body. rewrite supported_check, Hs. cbn [negb].
  destruct (ChararacterSets !! Charset opts) as [charset |]; [| discriminate].
  destruct (Verbose opts); cbn [when and_then emit ret panic check lift app].
  all: destruct (os_Open sys name) as [err | f];
    cbn [when and_then emit ret panic check lift app]; [discriminate |].
  all: destruct (if HasSuffix name ".png" then png_Decode sys f else jpeg_Decode sys f)
         as [err | img]; cbn [when and_then emit ret panic check lift app];
    [discriminate |].
  all: destruct (target_dimensions opts img) as [[ow oh] | e];
    cbn [when and_then emit ret panic check lift app]; [| discriminate].
  all: destruct (resize img ow oh) as [processedImg | e];
    cbn [when and_then emit ret panic check lift app]; [| discriminate].
  all: destruct (render charset _ ow oh) as [text | e];
    cbn [when and_then emit ret panic check lift app]; [| discriminate].
  all: destruct (0 <? len (Output opts));
    cbn [when and_then emit ret panic check lift app]; [| discriminate].
  all: destruct (ioutil_WriteFile sys (Output opts) text 511) as [err |];
    cbn [when and_then emit ret panic check lift app]; discriminate.
Qed.

(** X16: [main] rejects its first argument with the unknown image format
    panic exactly when the name does not end in ".png", ".jpg" or ".jpeg"
    (compared byte by byte, so ".PNG" is rejected); it does so before the
    character set is looked up or any file is opened, with no effect. *)
Theorem unknown_format_iff (sys : System) (name : string) (rest : list string)
    (opts : Options) :
  main sys (Parsed (name :: rest) opts) = ([], Panicked (UnknownImageFormat name)) <->
  ~ (exists stem, name = stem +:+ ".png" \/ name = stem +:+ ".jpg" \/
                  name = stem +:+ ".jpeg").
Proof.
  assert (Hsup : supported name = true <->
                 exists stem, name = stem +:+ ".png" \/ name = stem +:+ ".jpg" \/
                              name = stem +:+ ".jpeg").
  { unfold supported. rewrite !orb_true_iff, !HasSuffix_spec. split.
    - intros [[[stem H] | [stem H]] | [stem H]]; exists stem; auto.
    - intros [stem [H | [H | H]]]; [left; left | left; right | right];
        exists stem; exact H. }
  rewrite <- Hsup. split.
  - intros H Hs. unfold main in H.
    destruct (main_body sys (Parsed (name :: rest) opts)) as [effs [c | []]] eqn:Hb;
      [| discriminate H].
    injection H as -> ->. exact (main_body_supported sys name rest opts [] name Hs Hb).
  - intros Hs. unfold main, main_body. rewrite supported_check.
    destruct (supported name); [contradiction Hs; reflexivity | reflexivity].
Qed.

(** X17: the decoder is chosen by the suffix alone: a run on a name that
    ends in ".png" does not depend on the JPEG decoder, and a run on any
    other name does not depend on the PNG decoder. *)
Theorem decoder_follows_suffix (sys : System) (name : string) (rest : list string)
    (opts : Options) (d : string -> string + image.Image) :
  main (if HasSuffix name ".png" then with_jpeg_Decode sys d else with_png_Decode sys d)
       (Parsed (name :: rest) opts)
  = main sys (Parsed (name :: rest) opts).
Proof.
  unfold main, main_body.
  destruct (HasSuffix name ".png"); reflexivity.
Qed.

(** ** Rounding is monotone *)

Lemma rne_le_mid (m : Z) (k : nat) :
  0 <= m ->
  2 * m < (2 * rne m k + 1) * 2 ^ Z.of_nat k \/
  (2 * m = (2 * rne m k + 1) * 2 ^ Z.of_nat k /\ Z.even (rne m k) = true).
Proof.
  intros Hm. unfold rne, shifted. cbn [shr_m loc_of_shr_record].
  set (P := 2 ^ Z.of_nat k) in *.
  assert (HP : 0 < P) by (apply Z.pow_pos_nonneg; lia).
  pose proof (Z.div_mod m P ltac:(lia)) as Hdm.
  pose proof (Z.mod_pos_bound m P HP) as Hb.
  set (q := m / P) in *. set (r := m mod P) in *.
  destruct (Z.leb_spec P (2 * r)) as [Hr | Hr];
    destruct (Z.eqb_spec r 0) as [Hz | Hz];
    destruct (Z.eqb_spec (2 * r) P) as [Ht | Ht];
    cbn [negb andb round_nearest_even]; try lia; try (left; nia).
  destruct (Z.even q) eqn:Ev; [right; split; [nia | exact Ev] | left; nia].
Qed.

Lemma rne_mono (m m' : Z) (k k' : nat) :
  0 <= m -> 0 <= m' ->
  m * 2 ^ Z.of_nat k' <= m' * 2 ^ Z.of_nat k ->
  rne m k <= rne m' k'.
Proof.
  intros Hm Hm' Hle. apply rne_upper; [exact Hm |].
  pose proof (pow2_pos (Z.of_nat k) ltac:(lia)) as HP.
  pose proof (pow2_pos (Z.of_nat k') ltac:(lia)) as HP'.
  set (K := rne m' k') in *.
  destruct (rne_le_mid m' k' Hm') as [Hlt | [Heq Hev]]; fold K in Hlt || fold K in Heq, Hev.
  - left. apply Z.mul_lt_mono_pos_r with (2 ^ Z.of_nat k'); [exact HP' |].
    revert Hle Hlt HP HP'. generalize (2 ^ Z.of_nat k'). generalize (2 ^ Z.of_nat k).
    intros; nia.
  - destruct (Z.eq_dec (m * 2 ^ Z.of_nat k') (m' * 2 ^ Z.of_nat k)) as [E | NE].
    + right. split; [| exact Hev].
      apply Z.mul_cancel_r with (2 ^ Z.of_nat k'); [lia |].
      revert E Heq HP HP'. generalize (2 ^ Z.of_nat k'). generalize (2 ^ Z.of_nat k).
      intros; nia.
    + left. apply Z.mul_lt_mono_pos_r with (2 ^ Z.of_nat k'); [exact HP' |].
      revert Hle NE Heq HP HP'. generalize (2 ^ Z.of_nat k'). generalize (2 ^ Z.of_nat k).
      intros; nia.
Qed.

(** The value to which an exact positive mantissa rounds: the mantissa
    shifted to the grid of its exponent [E] and rounded to nearest even
    there. *)
Lemma round_aux_value (m : positive) (e : Z) :
  let E := fexp64 (Z.pos (digits2_pos m) + e) in
  e <= E -> E <= 970 ->
  nonneg_finite (round_aux64 false (Z.pos m) e loc_Exact) /\
  uval (round_aux64 false (Z.pos m) e loc_Exact)
    = rne (Z.pos m) (Z.to_nat (E - e)) * 2 ^ (E + 1074).
Proof.
  intros E HeE HE.
  assert (HEmin : -1074 <= E) by (unfold E; rewrite fexp64_eq; lia).
  assert (HEd : Z.pos (digits2_pos m) + e - 53 <= E) by (unfold E; rewrite fexp64_eq; lia).
  unfold binary_round_aux, shr_fexp. cbn [Zdigits2 shr_record_of_loc].
  fold E. rewrite shr_exact by lia.
  replace (e + (E - e)) with E by lia.
  set (k := Z.to_nat (E - e)).
  change (round_nearest_even (shr_m (shifted (Z.pos m) k))
            (loc_of_shr_record (shifted (Z.pos m) k))) with (rne (Z.pos m) k).
  assert (Hk : Z.of_nat k = E - e) by (unfold k; lia).
  pose proof (rne_bounds (Z.pos m) k ltac:(lia)) as [Hlo Hhi].
  pose proof (pow2_pos (Z.of_nat k) ltac:(lia)) as HPk.
  assert (Hq0 : 0 <= rne (Z.pos m) k).
  { etransitivity; [| exact Hlo]. apply Z.div_pos; lia. }
  assert (Hq53 : rne (Z.pos m) k <= 2 ^ 53).
  { assert (Z.pos m / 2 ^ Z.of_nat k < 2 ^ 53); [| lia].
    apply Z.div_lt_upper_bound; [exact HPk |].
    pose proof (digits2_pos_bounds m) as [_ Hd].
    eapply Z.lt_le_trans; [exact Hd |]. rewrite <- pow2_split by lia.
    apply Z.pow_le_mono_r; lia. }
  set (q := rne (Z.pos m) k) in *. clearbody q.
  destruct (Z.eq_dec q (2 ^ 53)) as [-> | Hne].
  - (* the mantissa rounds up to the next binade *)
    change (Zdigits2 (2 ^ 53)) with 54. rewrite fexp64_eq.
    replace (Z.max (54 + E - 53) (-1074) - E) with 1 by lia.
    rewrite shr_exact by lia.
    change (shifted (2 ^ 53) (Z.to_nat 1)) with (Build_shr_record (2 ^ 52) false false).
    cbn [shr_m]. change (2 ^ 52) with (Z.pos 4503599627370496) at 1 2.
    cbv iota. change (Z.sub emax prec) with 971.
    destruct (Z.leb_spec (E + 1) 971) as [_ | L]; [| lia].
    cbn [nonneg_finite uval]. split; [lia |]. unfold units.
    replace (E + 1 + 1074) with (1 + (E + 1074)) by lia.
    rewrite pow2_split by lia. change (2 ^ 53) with (4503599627370496 * 2 ^ 1). ring.
  - destruct (shr_exact_le q E (fexp64 (Zdigits2 q + E) - E) Hq0)
      as (j & Hj0 & Hjneg & _ & Hshr).
    assert (Hn : fexp64 (Zdigits2 q + E) - E <= 0).
    { rewrite fexp64_eq.
      destruct q as [| qp | qp]; [cbn [Zdigits2]; lia | | lia].
      cbn [Zdigits2]. pose proof (digits2_pos_bounds qp) as [Hd _].
      assert (H : 2 ^ (Z.pos (digits2_pos qp) - 1) < 2 ^ 53) by lia.
      apply pow2_lt_inv in H; lia. }
    rewrite Hshr, (Hjneg Hn). cbn [shr_m]. rewrite Z.div_1_r, Z.add_0_r.
    destruct q as [| qp | qp]; [| | lia].
    + split; [exact I | reflexivity].
    + change (Z.sub emax prec) with 971.
      destruct (Z.leb_spec E 971) as [_ | L]; [| lia].
      cbn [nonneg_finite uval]. split; [lia | reflexivity].
Qed.

(** Rounding is monotone: of two exact positive mantissas the one of lower
    value rounds to the lower (or the same) number. *)
Lemma round_aux_mono (m m' : positive) (e e' e0 : Z) :
  e <= fexp64 (Z.pos (digits2_pos m) + e) ->
  e' <= fexp64 (Z.pos (digits2_pos m') + e') ->
  Z.pos (digits2_pos m') + e' <= 1023 ->
  e0 <= e -> e0 <= e' ->
  Z.pos m * 2 ^ (e - e0) <= Z.pos m' * 2 ^ (e' - e0) ->
  uval (round_aux64 false (Z.pos m) e loc_Exact)
    <= uval (round_aux64 false (Z.pos m') e' loc_Exact).
Proof.
  intros HeE HeE' Hov H0 H0' Hle.
  pose proof (digits2_pos_bounds m) as [Hdlo Hdhi].
  pose proof (digits2_pos_bounds m') as [Hdlo' Hdhi'].
  set (d := Z.pos (digits2_pos m)) in *. set (d' := Z.pos (digits2_pos m')) in *.
  assert (Hd : 0 < d) by (unfold d; lia). assert (Hd' : 0 < d') by (unfold d'; lia).
  pose proof (pow2_pos (e - e0) ltac:(lia)) as HP. pose proof (pow2_pos (e' - e0) ltac:(lia)) as HP'.
  (* the order of the values is the order of their magnitudes *)
  assert (Hmag : d + e <= d' + e').
  { assert (H : 2 ^ (d - 1 + (e - e0)) < 2 ^ (d' + (e' - e0))).
    { rewrite !pow2_split by lia.
      assert (2 ^ (d - 1) * 2 ^ (e - e0) <= Z.pos m * 2 ^ (e - e0))
        by (apply Z.mul_le_mono_nonneg_r; lia).
      assert (Z.pos m' * 2 ^ (e' - e0) < 2 ^ d' * 2 ^ (e' - e0))
        by (apply Z.mul_lt_mono_pos_r; lia).
      lia. }
    apply pow2_lt_inv in H; lia. }
  set (E := fexp64 (d + e)) in *. set (E' := fexp64 (d' + e')) in *.
  assert (HE : E = Z.max (d + e - 53) (-1074)) by reflexivity.
  assert (HE' : E' = Z.max (d' + e' - 53) (-1074)) by reflexivity.
  destruct (round_aux_value m e) as [_ ->]; try (fold d; fold E; lia).
  destruct (round_aux_value m' e') as [_ ->]; try (fold d'; fold E'; lia).
  fold d d' E E'. clearbody E E' d d'.
  set (k := Z.to_nat (E - e)). set (k' := Z.to_nat (E' - e')).
  assert (Hk : Z.of_nat k = E - e) by (unfold k; lia).
  assert (Hk' : Z.of_nat k' = E' - e') by (unfold k'; lia).
  pose proof (pow2_pos (E + 1074) ltac:(lia)) as HPE.
  destruct (Z.eq_dec E E') as [EE | NE].
  - (* the same grid *)
    rewrite <- EE in *. clear EE. apply Z.mul_le_mono_nonneg_r; [lia |].
    apply rne_mono; try lia. rewrite Hk, Hk'.
    apply Z.mul_le_mono_pos_r with (2 ^ (E - e0)); [apply pow2_pos; lia |].
    rewrite <- !Z.mul_assoc, <- !pow2_split by lia.
    replace (E - e' + (E - e0)) with ((e - e0) + (E - e + (E - e'))) by lia.
    replace (E - e + (E - e0)) with ((e' - e0) + (E - e + (E - e'))) by lia.
    rewrite (pow2_split (e - e0)), (pow2_split (e' - e0)) by lia.
    rewrite !Z.mul_assoc. apply Z.mul_le_mono_nonneg_r; [| exact Hle].
    apply Z.lt_le_incl, pow2_pos; lia.
  - (* a lower binade *)
    assert (HEE : E + 1 <= E') by lia.
    assert (Hup : rne (Z.pos m) k <= 2 ^ 53).
    { pose proof (rne_bounds (Z.pos m) k ltac:(lia)) as [_ Hhi].
      assert (Z.pos m / 2 ^ Z.of_nat k < 2 ^ 53); [| lia].
      apply Z.div_lt_upper_bound; [apply pow2_pos; lia |].
      eapply Z.lt_le_trans; [exact Hdhi |]. rewrite <- pow2_split by lia.
      apply Z.pow_le_mono_r; lia. }
    assert (Hlow : 2 ^ 52 <= rne (Z.pos m') k').
    { pose proof (rne_bounds (Z.pos m') k' ltac:(lia)) as [Hlo _].
      etransitivity; [| exact Hlo].
      apply Z.div_le_lower_bound; [apply pow2_pos; lia |].
      rewrite Z.mul_comm, <- pow2_split by lia.
      etransitivity; [| exact Hdlo']. apply Z.pow_le_mono_r; lia. }
    apply Z.le_trans with (2 ^ 53 * 2 ^ (E + 1074)).
    + apply Z.mul_le_mono_nonneg_r; lia.
    + apply Z.le_trans with (2 ^ 52 * 2 ^ (E' + 1074)).
      * change (2 ^ 53) with (2 ^ 52 * 2 ^ 1). rewrite <- Z.mul_assoc, <- pow2_split by lia.
        apply Z.mul_le_mono_nonneg_l; [lia |]. apply Z.pow_le_mono_r; lia.
      * apply Z.mul_le_mono_nonneg_r; [| exact Hlow].
        apply Z.lt_le_incl, pow2_pos; lia.
Qed.

Lemma uval_nonneg (x : spec_float) : 0 <= uval x.
Proof.
  destruct x as [s | s | | s m e]; cbn [uval]; try lia.
  destruct s; [lia |]. unfold units.
  destruct (Z.le_gt_cases 0 (e + 1074)).
  - pose proof (pow2_pos (e + 1074) ltac:(lia)). lia.
  - rewrite Z.pow_neg_r by lia. lia.
Qed.

Lemma nonneg_le_finite (x : spec_float) (mc ec : Z) :
  nonneg_le x mc ec -> nonneg_finite x /\ uval x <= Z.max 0 (units mc ec).
Proof.
  destruct x as [s | s | | s m e]; cbn [nonneg_le nonneg_finite uval]; try contradiction.
  - intros _. split; [exact I | lia].
  - destruct s; [contradiction |]. intros [He Hle]. split; [exact He | lia].
Qed.

Lemma valid_canonical (s : bool) (m : positive) (e : Z) :
  valid_binary (S754_finite s m e) = true ->
  fexp64 (Z.pos (digits2_pos m) + e) = e /\ e <= 971.
Proof.
  cbn [valid_binary]. unfold bounded, canonical_mantissa.
  rewrite andb_true_iff, Z.leb_le. intros [Hc He].
  apply Z.eqb_eq in Hc. split; [exact Hc | exact He].
Qed.

(** Of two canonical positive numbers the one with the lower exponent is
    the lower. *)
Lemma canonical_exponent_lt (m m' : positive) (e e' : Z) :
  fexp64 (Z.pos (digits2_pos m) + e) = e ->
  fexp64 (Z.pos (digits2_pos m') + e') = e' ->
  e < e' -> units (Z.pos m) e < units (Z.pos m') e'.
Proof.
  rewrite !fexp64_eq. intros Hc Hc' Hlt.
  pose proof (digits2_pos_bounds m) as [_ Hhi].
  pose proof (digits2_pos_bounds m') as [Hlo' _].
  assert (Hd' : Z.pos (digits2_pos m') = 53) by lia.
  rewrite Hd' in Hlo'. change (53 - 1) with 52 in Hlo'.
  assert (Hm : Z.pos m < 2 ^ 53).
  { eapply Z.lt_le_trans; [exact Hhi |]. apply Z.pow_le_mono_r; lia. }
  unfold units.
  pose proof (pow2_pos (e + 1074) ltac:(lia)) as HP.
  apply Z.lt_le_trans with (2 ^ 53 * 2 ^ (e + 1074)).
  - apply Z.mul_lt_mono_pos_r; lia.
  - apply Z.le_trans with (2 ^ 52 * 2 ^ (e' + 1074)).
    + change (2 ^ 53) with (2 ^ 52 * 2 ^ 1). rewrite <- Z.mul_assoc, <- pow2_split by lia.
      apply Z.mul_le_mono_nonneg_l; [lia |]. apply Z.pow_le_mono_r; lia.
    + apply Z.mul_le_mono_nonneg_r; [| exact Hlo'].
      apply Z.lt_le_incl, pow2_pos; lia.
Qed.

(** On valid non-negative finite numbers the comparison of the
    specification is the comparison of the values. *)
Lemma compare_uval (x y : spec_float) :
  valid_binary x = true -> valid_binary y = true ->
  nonneg_finite x -> nonneg_finite y ->
  SFcompare x y = Some (uval x ?= uval y).
Proof.
  intros Vx Vy Hx Hy.
  destruct x as [sx | sx | | sx mx ex]; try contradiction;
    destruct y as [sy | sy | | sy my ey]; try contradiction.
  - reflexivity.
  - destruct sy; [contradiction |]. cbn [SFcompare uval]. f_equal. symmetry.
    apply Z.compare_lt_iff. unfold units.
    pose proof (pow2_pos (ey + 1074) ltac:(cbn in Hy; lia)). lia.
  - destruct sx; [contradiction |]. cbn [SFcompare uval]. f_equal. symmetry.
    apply Z.compare_gt_iff. unfold units.
    pose proof (pow2_pos (ex + 1074) ltac:(cbn in Hx; lia)). lia.
  - destruct sx; [contradiction |]. destruct sy; [contradiction |].
    cbn [nonneg_finite] in Hx, Hy.
    destruct (valid_canonical _ _ _ Vx) as [Cx _].
    destruct (valid_canonical _ _ _ Vy) as [Cy _].
    cbn [SFcompare uval]. f_equal.
    destruct (Z.compare_spec ex ey) as [E | L | L].
    + subst ey. unfold units.
      rewrite <- Zmult_compare_compat_r by (apply Z.lt_gt, pow2_pos; lia). reflexivity.
    + symmetry. apply Z.compare_lt_iff. apply canonical_exponent_lt; assumption.
    + symmetry. apply Z.compare_gt_iff. apply canonical_exponent_lt; assumption.
Qed.

Lemma leb_uval (x y : spec_float) :
  valid_binary x = true -> valid_binary y = true ->
  nonneg_finite x -> nonneg_finite y ->
  SFleb x y = true <-> uval x <= uval y.
Proof.
  intros Vx Vy Hx Hy. unfold SFleb. rewrite (compare_uval x y Vx Vy Hx Hy).
  destruct (Z.compare_spec (uval x) (uval y)); split; intros; try lia; try reflexivity;
    discriminate.
Qed.

(** The integer part of a non-negative finite number, from its value. *)
Lemma SF2int_uval (x : spec_float) :
  nonneg_finite x -> 0 <= SF2int x -> SF2int x = uval x / 2 ^ 1074.
Proof.
  destruct x as [s | s | | s m e]; cbn [nonneg_finite]; try contradiction.
  - intros _ _. reflexivity.
  - destruct s; [contradiction |]. intros He. cbn [SF2int uval].
    assert (Ht : trunc_finite false m e = units (Z.pos m) e / 2 ^ 1074).
    { unfold trunc_finite, units. destruct (Z.leb_spec 0 e).
      - rewrite pow2_split by lia. rewrite Z.mul_assoc.
        apply eq_sym, Z.div_mul, Z.neq_sym, Z.lt_neq, pow2_pos. lia.
      - replace 1074 with (- e + (e + 1074)) at 2 by lia.
        rewrite (pow2_split (- e) (e + 1074)) by lia.
        apply eq_sym, Z.div_mul_cancel_r; apply Z.neq_sym, Z.lt_neq, pow2_pos; lia. }
    rewrite Ht. destruct (_ && _); [reflexivity |]. unfold min_int. lia.
Qed.

(** ** The glyph index: monotone in the luminance *)

(** The index computed for a ramp of [N] characters does not decrease
    with the luminance. *)
Lemma int_times_mono (N : Z) (L L' : spec_float) :
  1 <= N < 2 ^ 53 ->
  nonneg_finite L -> nonneg_le L' (2 ^ 53 - 1) (-53) -> uval L <= uval L' ->
  SF2int (SF64mul (Prim2SF (float64_of_int N)) L)
    <= SF2int (SF64mul (Prim2SF (float64_of_int N)) L').
Proof.
  intros HN HL HL' Hle.
  destruct (Prim2SF_of_int_pos N ltac:(lia)) as (mN & eN & -> & HeN & HmN & HdN).
  assert (Hup : forall x, nonneg_le x (2 ^ 53 - 1) (-53) ->
            0 <= SF2int (SF64mul (S754_finite false mN eN) x) <= N - 1).
  { intros x Hx. destruct x as [s | s | | s m e]; try contradiction.
    - cbn [SF64mul SFmul SF2int]. lia.
    - destruct s; [contradiction |]. destruct Hx as [He Hx].
      unfold SF64mul, SFmul. cbn [xorb].
      apply (mul_trunc_below mN m eN e N); try assumption; lia. }
  pose proof (Hup L' HL') as HR.
  destruct L as [s | s | | s mL eL]; try contradiction.
  { change (SF64mul (S754_finite false mN eN) (S754_zero s))
      with (S754_zero (xorb false s)). cbn [SF2int]. lia. }
  destruct s; [contradiction |]. cbn [nonneg_finite] in HL.
  destruct L' as [s' | s' | | s' mL' eL']; try contradiction.
  { exfalso. cbn [uval] in Hle. unfold units in Hle.
    pose proof (pow2_pos (eL + 1074) ltac:(lia)). lia. }
  destruct s'; [contradiction |]. destruct HL' as [HeL' HL'].
  cbn [uval] in Hle.
  assert (HLL : nonneg_le (S754_finite false mL eL) (2 ^ 53 - 1) (-53)).
  { cbn [nonneg_le]. split; [exact HL | lia]. }
  pose proof (Hup _ HLL) as HLo.
  revert HLo HR. unfold SF64mul, SFmul. cbn [xorb]. intros HLo HR.
  pose proof (digits2_pos_bounds mN) as [HNlo HNhi]. rewrite HdN in HNlo, HNhi.
  change (53 - 1) with 52 in HNlo.
  assert (Hdig : forall m : positive, 53 <= Z.pos (digits2_pos (mN * m))).
  { intros m. pose proof (digits2_pos_bounds (mN * m)) as [_ Hhi].
    rewrite Pos2Z.inj_mul in Hhi.
    assert (H : 2 ^ 52 < 2 ^ Z.pos (digits2_pos (mN * m))) by nia.
    apply pow2_lt_inv in H; lia. }
  assert (Hfexp : forall (m : positive) e,
            eN + e <= fexp64 (Z.pos (digits2_pos (mN * m)) + (eN + e))).
  { intros m e. rewrite fexp64_eq. pose proof (Hdig m). lia. }
  (* the products stay below 2^53 *)
  assert (Hov : forall (m : positive) e, -1074 <= e ->
            units (Z.pos m) e <= units (2 ^ 53 - 1) (-53) ->
            Z.pos (digits2_pos (mN * m)) + (eN + e) <= 1023).
  { intros m e He Hm.
    pose proof (digits2_pos_bounds (mN * m)) as [Hlo _].
    rewrite Pos2Z.inj_mul in Hlo.
    unfold units in Hm. change (-53 + 1074) with 1021 in Hm.
    assert (He0 : e <= -1).
    { destruct (Z.le_gt_cases e (-1)) as [L | L]; [exact L | exfalso].
      assert (2 ^ 1074 <= 2 ^ (e + 1074)) by (apply Z.pow_le_mono_r; lia).
      assert (2 ^ 1074 <= Z.pos m * 2 ^ (e + 1074)) by nia.
      assert ((2 ^ 53 - 1) * 2 ^ 1021 < 2 ^ 1074) by reflexivity. lia. }
    assert (HmL : Z.pos m < 2 ^ (- e)).
    { pose proof (pow2_pos (e + 1074) ltac:(lia)) as HP.
      apply Z.mul_lt_mono_pos_r with (2 ^ (e + 1074)); [exact HP |].
      rewrite <- pow2_split by lia. replace (- e + (e + 1074)) with 1074 by lia.
      assert ((2 ^ 53 - 1) * 2 ^ 1021 < 2 ^ 1074) by reflexivity. lia. }
    assert (H : 2 ^ (Z.pos (digits2_pos (mN * m)) - 1) < 2 ^ (53 + - e)).
    { rewrite pow2_split by lia. pose proof (pow2_pos (- e) ltac:(lia)). nia. }
    apply pow2_lt_inv in H; lia. }
  pose proof (round_aux_mono (mN * mL) (mN * mL') (eN + eL) (eN + eL') (eN - 1074)
                (Hfexp mL eL) (Hfexp mL' eL') (Hov mL' eL' HeL' HL')
                ltac:(lia) ltac:(lia)) as Hmono.
  assert (Hval : Z.pos (mN * mL) * 2 ^ (eN + eL - (eN - 1074))
                 <= Z.pos (mN * mL') * 2 ^ (eN + eL' - (eN - 1074))).
  { rewrite !Pos2Z.inj_mul.
    replace (eN + eL - (eN - 1074)) with (eL + 1074) by lia.
    replace (eN + eL' - (eN - 1074)) with (eL' + 1074) by lia.
    rewrite <- !Z.mul_assoc. apply Z.mul_le_mono_nonneg_l; [lia | exact Hle]. }
  specialize (Hmono Hval).
  assert (HF : forall (m : positive) e, -1074 <= e ->
            units (Z.pos m) e <= units (2 ^ 53 - 1) (-53) ->
            nonneg_finite (round_aux64 false (Z.pos (mN * m)) (eN + e) loc_Exact)).
  { intros m e He Hm. apply round_aux_value; [apply Hfexp |].
    rewrite fexp64_eq. pose proof (Hov m e He Hm). lia. }
  rewrite (SF2int_uval _ (HF mL eL HL ltac:(lia))) by lia.
  rewrite (SF2int_uval _ (HF mL' eL' HeL' HL')) by lia.
  apply Z.div_le_mono; [apply pow2_pos; lia | exact Hmono].
Qed.

Lemma nonneg_finite_of_leb (x : spec_float) :
  valid_binary x = true -> SFleb (S754_zero false) x = true ->
  nonneg_finite x \/ x = S754_infinity false.
Proof.
  intros V H. destruct x as [s | s | | s m e].
  - left. exact I.
  - destruct s; [discriminate H | right; reflexivity].
  - discriminate H.
  - destruct s; [discriminate H |]. left. cbn [nonneg_finite].
    destruct (valid_canonical _ _ _ V) as [C _]. rewrite fexp64_eq in C. lia.
Qed.

Lemma leb_zero_trans (x y : spec_float) :
  SFleb (S754_zero false) x = true -> SFleb x y = true ->
  SFleb (S754_zero false) y = true.
Proof.
  destruct x as [[] | [] | | [] mx ex], y as [[] | [] | | [] my ey]; cbn;
    intros H1 H2; try reflexivity; try discriminate H1; try discriminate H2.
Qed.

(** X18: the glyph index does not decrease with the luminance: for any
    two binary64 luminances with 0 <= L <= L' < 1 and any ramp (of a
    length N with 1 <= N < 2^53), the index computed for L is at most the
    index computed for L'. The rounding of the product never inverts the
    order. *)
Theorem glyph_index_monotone (charset : string) (L L' : float) :
  1 <= len charset < 2 ^ 53 ->
  (0 <=? L)%float = true -> (L <=? L')%float = true -> (L' <? 1)%float = true ->
  glyph_index charset L <= glyph_index charset L'.
Proof.
  intros HN H0 HLL H1.
  assert (H0' : (0 <=? L')%float = true).
  { revert H0 HLL. rewrite !leb_spec, Prim2SF_zero. apply leb_zero_trans. }
  pose proof (below_one L' H0' H1) as HL'.
  unfold glyph_index, int_of_float64. rewrite !mul_spec.
  pose proof (Prim2SF_valid L) as VL. pose proof (Prim2SF_valid L') as VL'.
  rewrite leb_spec, Prim2SF_zero in H0. rewrite leb_spec in HLL.
  destruct (nonneg_le_finite _ _ _ HL') as [FL' _].
  destruct (nonneg_finite_of_leb _ VL H0) as [FL | IL].
  - apply int_times_mono; try assumption.
    apply (leb_uval _ _ VL VL' FL FL'). exact HLL.
  - exfalso. rewrite IL in HLL.
    destruct (Prim2SF L') as [s | s | | s m e]; try contradiction; discriminate HLL.
Qed.

Lemma glyph_index_monotone_witness :
  glyph_index ascii_ramp 0.25 <= glyph_index ascii_ramp 0.75.
Proof.
  apply (glyph_index_monotone ascii_ramp 0.25 0.75);
    [vm_compute; split; [discriminate | reflexivity] | reflexivity | reflexivity
     | reflexivity].
Defined.

(** ** The luminance: monotone in the channels *)

Lemma binary_round_canonical (s : bool) (m : positive) (e : Z) :
  fexp64 (Z.pos (digits2_pos m) + e) = e -> e <= 971 ->
  binary_round prec emax s m e = S754_finite s m e.
Proof.
  intros Hc He. unfold binary_round, shl_align. rewrite Hc, Z.sub_diag.
  apply round_aux_exact; assumption.
Qed.

(** [binary_round] is monotone in the value it is given. *)
Lemma binary_round_mono (M M' : positive) (e e' : Z) :
  -1074 <= e -> -1074 <= e' ->
  units (Z.pos M) e <= units (Z.pos M') e' ->
  units (Z.pos M') e' < 2 ^ 2097 ->
  uval (binary_round prec emax false M e) <= uval (binary_round prec emax false M' e').
Proof.
  intros He He' Hle Hov.
  destruct (binary_round_aux_form false M e) as (mz & ez & -> & Hez & Hmz & Hdig).
  destruct (binary_round_aux_form false M' e') as (mz' & ez' & -> & Hez' & Hmz' & Hdig').
  assert (HE : -1074 <= fexp64 (Z.pos (digits2_pos M) + e)) by (rewrite fexp64_eq; lia).
  assert (HE' : -1074 <= fexp64 (Z.pos (digits2_pos M') + e')) by (rewrite fexp64_eq; lia).
  assert (Hu : units (Z.pos mz) ez = units (Z.pos M) e) by (rewrite Hmz; apply units_shift; lia).
  assert (Hu' : units (Z.pos mz') ez' = units (Z.pos M') e')
    by (rewrite Hmz'; apply units_shift; lia).
  apply (round_aux_mono mz mz' ez ez' (-1074)).
  - rewrite Hdig. lia.
  - rewrite Hdig'. lia.
  - rewrite Hdig'. pose proof (digits2_pos_bounds M') as [Hlo _].
    assert (H : 2 ^ (Z.pos (digits2_pos M') - 1 + (e' + 1074)) < 2 ^ 2097).
    { rewrite pow2_split by lia. unfold units in Hov.
      pose proof (pow2_pos (e' + 1074) ltac:(lia)).
      eapply Z.le_lt_trans; [| exact Hov]. apply Z.mul_le_mono_nonneg_r; lia. }
    apply pow2_lt_inv in H; lia.
  - lia.
  - lia.
  - replace (ez - -1074) with (ez + 1074) by lia.
    replace (ez' - -1074) with (ez' + 1074) by lia.
    fold (units (Z.pos mz) ez). fold (units (Z.pos mz') ez'). lia.
Qed.

(** The sum of two valid non-negative numbers is zero, when both are, or
    the rounding of the exact sum. *)
Lemma SFadd_as_round (x y : spec_float) :
  valid_binary x = true -> valid_binary y = true ->
  nonneg_finite x -> nonneg_finite y ->
  (uval x + uval y = 0 /\ uval (SF64add x y) = 0) \/
  exists M e, -1074 <= e /\
    SF64add x y = binary_round prec emax false M e /\
    units (Z.pos M) e = uval x + uval y.
Proof.
  intros Vx Vy Hx Hy.
  destruct x as [sx | sx | | sx mx ex]; try contradiction;
    destruct y as [sy | sy | | sy my ey]; try contradiction.
  - left. split; [reflexivity |]. destruct sx, sy; reflexivity.
  - destruct sy; [contradiction |]. right. exists my, ey.
    destruct (valid_canonical _ _ _ Vy) as [C B].
    rewrite (binary_round_canonical false my ey C B).
    split; [exact Hy |]. split; reflexivity.
  - destruct sx; [contradiction |]. right. exists mx, ex.
    destruct (valid_canonical _ _ _ Vx) as [C B].
    rewrite (binary_round_canonical false mx ex C B).
    split; [exact Hx |]. split; [reflexivity |]. cbn [uval]. lia.
  - destruct sx; [contradiction |]. destruct sy; [contradiction |].
    cbn [nonneg_finite] in Hx, Hy. right.
    unfold SF64add, SFadd.
    destruct (shl_align_spec mx ex (Z.min ex ey)) as (mx' & ex' & Ex & Hex' & Hmx' & _).
    destruct (shl_align_spec my ey (Z.min ex ey)) as (my' & ey' & Ey & Hey' & Hmy' & _).
    rewrite Ex, Ey. cbn [fst cond_Zopp Z.add binary_normalize].
    exists (mx' + my')%positive, (Z.min ex ey). split; [lia |]. split; [reflexivity |].
    cbn [uval]. rewrite Pos2Z.inj_add, Hmx', Hmy'.
    replace ex' with (Z.min ex ey) by lia. replace ey' with (Z.min ex ey) by lia.
    rewrite <- (units_shift (Z.pos mx) ex (Z.min ex ey)) by lia.
    rewrite <- (units_shift (Z.pos my) ey (Z.min ex ey)) by lia.
    unfold units. ring.
Qed.

(** Addition is monotone on non-negative numbers. *)
Lemma add_mono (a b a' b' : float) :
  nonneg_finite (Prim2SF a) -> nonneg_finite (Prim2SF b) ->
  nonneg_finite (Prim2SF a') -> nonneg_finite (Prim2SF b') ->
  uval (Prim2SF a) <= uval (Prim2SF a') -> uval (Prim2SF b) <= uval (Prim2SF b') ->
  uval (Prim2SF a') + uval (Prim2SF b') < 2 ^ 2097 ->
  uval (Prim2SF (a + b)) <= uval (Prim2SF (a' + b')).
Proof.
  intros Ha Hb Ha' Hb' Hla Hlb Hov. rewrite !add_spec.
  destruct (SFadd_as_round _ _ (Prim2SF_valid a) (Prim2SF_valid b) Ha Hb)
    as [[_ ->] | (M & e & He & -> & Hu)]; [apply uval_nonneg |].
  destruct (SFadd_as_round _ _ (Prim2SF_valid a') (Prim2SF_valid b') Ha' Hb')
    as [[H0 _] | (M' & e' & He' & -> & Hu')].
  - exfalso. pose proof (uval_nonneg (Prim2SF a)). pose proof (uval_nonneg (Prim2SF b)).
    unfold units in Hu. pose proof (pow2_pos (e + 1074) ltac:(lia)). lia.
  - apply binary_round_mono; try assumption; lia.
Qed.

Lemma weighted_steps (w : float) :
  forall_range (weighted_step w) 0 (Z.to_nat 65535) = true ->
  forall v v', 0 <= v <= v' -> v' <= 65535 ->
  uval (Prim2SF (weighted w v)) <= uval (Prim2SF (weighted w v')).
Proof.
  intros Hall.
  assert (Hstep : forall u, 0 <= u < 65535 ->
            uval (Prim2SF (weighted w u)) <= uval (Prim2SF (weighted w (u + 1)))).
  { intros u Hu. pose proof (forall_below _ 65535 u Hall Hu) as H.
    unfold weighted_step in H.
    destruct (Prim2SF (weighted w (u + 1))) as [s | s | | s m e]; try discriminate H.
    destruct s; [discriminate H |].
    apply nonneg_leb_sound, nonneg_le_finite in H. destruct H as [_ H].
    cbn [uval]. assert (0 <= units (Z.pos m) e); [| lia].
    apply (uval_nonneg (S754_finite false m e)). }
  assert (Hn : forall (n : nat) v, 0 <= v -> v + Z.of_nat n <= 65535 ->
            uval (Prim2SF (weighted w v)) <= uval (Prim2SF (weighted w (v + Z.of_nat n)))).
  { induction n as [| n IH]; intros v Hv Hb.
    - rewrite Z.add_0_r. lia.
    - etransitivity; [apply (IH v Hv); lia |].
      replace (v + Z.of_nat (S n)) with (v + Z.of_nat n + 1) by lia.
      apply Hstep. lia. }
  intros v v' Hv Hv'. replace v' with (v + Z.of_nat (Z.to_nat (v' - v))) by lia.
  apply Hn; lia.
Qed.

Lemma red_steps : forall_range (weighted_step 0.299) 0 (Z.to_nat 65535) = true.
Proof. vm_compute. reflexivity. Qed.

Lemma green_steps : forall_range (weighted_step 0.587) 0 (Z.to_nat 65535) = true.
Proof. vm_compute. reflexivity. Qed.

Lemma blue_steps : forall_range (weighted_step 0.114) 0 (Z.to_nat 65535) = true.
Proof. vm_compute. reflexivity. Qed.

(** The sum of the weighted red and green channels. *)
Lemma red_green_bound (r g : Z) :
  0 <= r <= 65535 -> 0 <= g <= 65535 ->
  nonneg_le (Prim2SF (weighted 0.299 r + weighted 0.587 g)) 7980378539700518 (-53).
Proof.
  intros Hr Hg. rewrite add_spec.
  apply (add_nonneg_le _ _ 5386305154335113 (-54) 5287225962532962 (-53)).
  - apply weighted_red, Hr.
  - apply weighted_green, Hg.
  - lia.
  - split; by_computation.
  - by_computation.
  - by_computation.
  - right. split; by_computation.
Qed.

(** The luminance does not decrease when the channels do not. *)
Lemma luminance_uval_mono (c c' : color.Color) (r g b a r' g' b' a' : Z) :
  color.RGBA c = (r, g, b, a) -> color.RGBA c' = (r', g', b', a') ->
  0 <= r <= r' -> r' <= 65535 -> 0 <= g <= g' -> g' <= 65535 ->
  0 <= b <= b' -> b' <= 65535 ->
  uval (Prim2SF (luminance c)) <= uval (Prim2SF (luminance c')).
Proof.
  intros H H' Hr Hr' Hg Hg' Hb Hb'.
  rewrite (luminance_channels c r g b a H), (luminance_channels c' r' g' b' a' H').
  pose proof (nonneg_le_finite _ _ _ (weighted_red r ltac:(lia))) as [Fr _].
  pose proof (nonneg_le_finite _ _ _ (weighted_red r' ltac:(lia))) as [Fr' Br'].
  pose proof (nonneg_le_finite _ _ _ (weighted_green g ltac:(lia))) as [Fg _].
  pose proof (nonneg_le_finite _ _ _ (weighted_green g' ltac:(lia))) as [Fg' Bg'].
  pose proof (nonneg_le_finite _ _ _ (weighted_blue b ltac:(lia))) as [Fb _].
  pose proof (nonneg_le_finite _ _ _ (weighted_blue b' ltac:(lia))) as [Fb' Bb'].
  pose proof (nonneg_le_finite _ _ _ (red_green_bound r g ltac:(lia) ltac:(lia))) as [Frg _].
  pose proof (nonneg_le_finite _ _ _ (red_green_bound r' g' ltac:(lia) ltac:(lia)))
    as [Frg' Brg'].
  apply add_mono; try assumption.
  - apply add_mono; try assumption.
    + apply (weighted_steps _ red_steps); lia.
    + apply (weighted_steps _ green_steps); lia.
    + eapply Z.le_lt_trans; [apply Z.add_le_mono; [exact Br' | exact Bg'] |].
      vm_compute. reflexivity.
  - apply (weighted_steps _ blue_steps); lia.
  - eapply Z.le_lt_trans; [apply Z.add_le_mono; [exact Brg' | exact Bb'] |].
    vm_compute. reflexivity.
Qed.

(** X19: the luminance is monotone in the channels: a colour whose red,
    green and blue values (16-bit, as [RGBA] returns them) are each at most
    those of another colour has at most its luminance, as binary64 numbers;
    the alpha values play no part. *)
Theorem luminance_monotone (c c' : color.Color) (r g b a r' g' b' a' : Z) :
  color.RGBA c = (r, g, b, a) -> color.RGBA c' = (r', g', b', a') ->
  0 <= r <= r' -> r' <= 65535 -> 0 <= g <= g' -> g' <= 65535 ->
  0 <= b <= b' -> b' <= 65535 ->
  (luminance c <=? luminance c')%float = true.
Proof.
  intros H H' Hr Hr' Hg Hg' Hb Hb'. rewrite leb_spec.
  pose proof (luminance_below_one c r g b a H ltac:(lia) ltac:(lia) ltac:(lia)) as B.
  pose proof (luminance_below_one c' r' g' b' a' H' ltac:(lia) ltac:(lia) ltac:(lia)) as B'.
  apply nonneg_le_finite in B. apply nonneg_le_finite in B'.
  apply leb_uval; try apply Prim2SF_valid; try tauto.
  apply (luminance_uval_mono c c' r g b a r' g' b' a'); assumption.
Qed.

Lemma luminance_monotone_witness :
  (luminance (color.Other 100 200 300 65535)
   <=? luminance (color.Other 100 200 301 0))%float = true.
Proof.
  apply (luminance_monotone _ _ 100 200 300 65535 100 200 301 0);
    first [reflexivity | lia].
Defined.

(** X20: a pixel that is at least as bright as another in each of red,
    green and blue never gets an earlier character of the ramp: its glyph
    index is at least the other's, for every ramp of a length N with
    1 <= N < 2^53. *)
Theorem brighter_pixel_later_glyph (charset : string) (c c' : color.Color)
    (r g b a r' g' b' a' : Z) :
  1 <= len charset < 2 ^ 53 ->
  color.RGBA c = (r, g, b, a) -> color.RGBA c' = (r', g', b', a') ->
  0 <= r <= r' -> r' <= 65535 -> 0 <= g <= g' -> g' <= 65535 ->
  0 <= b <= b' -> b' <= 65535 ->
  glyph_index charset (luminance c) <= glyph_index charset (luminance c').
Proof.
  intros HN H H' Hr Hr' Hg Hg' Hb Hb'.
  unfold glyph_index, int_of_float64. rewrite !mul_spec.
  pose proof (luminance_below_one c r g b a H ltac:(lia) ltac:(lia) ltac:(lia)) as B.
  pose proof (luminance_below_one c' r' g' b' a' H' ltac:(lia) ltac:(lia) ltac:(lia)) as B'.
  apply int_times_mono; try assumption.
  - apply nonneg_le_finite in B. tauto.
  - apply (luminance_uval_mono c c' r g b a r' g' b' a'); assumption.
Qed.

Lemma brighter_pixel_later_glyph_witness :
  glyph_index ascii_ramp (luminance (color.Other 100 200 300 65535))
    <= glyph_index ascii_ramp (luminance (color.Other 40000 200 301 65535)).
Proof.
  apply (brighter_pixel_later_glyph ascii_ramp _ _ 100 200 300 65535 40000 200 301 65535);
    first [reflexivity | lia | (vm_compute; split; [discriminate | reflexivity])].
Defined.

(** ** The sampler: monotone in the target coordinate *)

(** The two bits that stand for the position of the remainder [r] of a
    division by [mw]: nothing left, below half, half, above half. *)
Lemma new_location_code (q : positive) (mw r : Z) :
  0 < mw -> 0 <= r < mw ->
  exists c, Z.pos (loc_bits q (new_location mw r)) = 4 * Z.pos q + c /\
    ((c = 0 /\ r = 0) \/ (c = 1 /\ 0 < 2 * r < mw) \/ (c = 2 /\ 2 * r = mw) \/
     (c = 3 /\ mw < 2 * r)).
Proof.
  intros Hmw Hr. unfold new_location.
  destruct (Z.even mw) eqn:Hev; unfold new_location_even, new_location_odd;
    destruct (Z.eqb_spec r 0) as [-> | Hr0].
  - exists 0. split; [cbn [loc_bits]; lia | auto].
  - destruct (Z.compare_spec (2 * r) mw) as [E | L | L].
    + exists 2. split; [cbn [loc_bits]; lia | auto].
    + exists 1. split; [cbn [loc_bits]; lia |]. right. left. lia.
    + exists 3. split; [cbn [loc_bits]; lia |]. right. right. right. lia.
  - exists 0. split; [cbn [loc_bits]; lia | auto].
  - assert (Hodd : mw <> 2 * r).
    { intros ->. rewrite Z.even_mul in Hev. discriminate Hev. }
    destruct (Z.compare_spec (2 * r + 1) mw) as [E | L | L].
    + exists 1. split; [cbn [loc_bits]; lia |]. right. left. lia.
    + exists 1. split; [cbn [loc_bits]; lia |]. right. left. lia.
    + exists 3. split; [cbn [loc_bits]; lia |]. right. right. right. lia.
Qed.

(** Comparing the mantissa that carries the position bits with an even
    threshold is comparing the exact quotient with it. *)
Lemma position_bits_threshold (q mw r c t : Z) :
  0 < mw -> 0 <= r < mw ->
  (c = 0 /\ r = 0) \/ (c = 1 /\ 0 < 2 * r < mw) \/ (c = 2 /\ 2 * r = mw) \/
  (c = 3 /\ mw < 2 * r) ->
  (4 * q + c <= 2 * t <-> 2 * (q * mw + r) <= t * mw) /\
  (4 * q + c = 2 * t <-> 2 * (q * mw + r) = t * mw).
Proof.
  intros Hmw Hr Hc.
  assert (Hcases : t <= 2 * q - 1 \/ t = 2 * q \/ t = 2 * q + 1 \/ 2 * q + 2 <= t) by lia.
  assert (Hlow : t <= 2 * q - 1 -> t * mw <= (2 * q - 1) * mw)
    by (intros; apply Z.mul_le_mono_nonneg_r; lia).
  assert (Hhigh : 2 * q + 2 <= t -> (2 * q + 2) * mw <= t * mw)
    by (intros; apply Z.mul_le_mono_nonneg_r; lia).
  destruct Hcases as [C | [C | [C | C]]];
    [specialize (Hlow C) | subst t | subst t | specialize (Hhigh C)];
    destruct Hc as [[-> Hc] | [[-> Hc] | [[-> Hc] | [-> Hc]]]];
    split; split; intros; nia.
Qed.

(** The quotient of two 53-bit mantissas as one exact mantissa to round. *)
Lemma SFdiv_53 (mx mw : positive) (ex ew : Z) :
  Z.pos (digits2_pos mx) = 53 -> Z.pos (digits2_pos mw) = 53 ->
  -52 <= ex <= 0 -> -52 <= ew <= 0 ->
  exists (q : positive) (r c : Z),
    Z.pos q * Z.pos mw + r = Z.pos mx * 2 ^ 53 /\ 0 <= r < Z.pos mw /\
    53 <= Z.pos (digits2_pos q) <= 54 /\
    ((c = 0 /\ r = 0) \/ (c = 1 /\ 0 < 2 * r < Z.pos mw) \/
     (c = 2 /\ 2 * r = Z.pos mw) \/ (c = 3 /\ Z.pos mw < 2 * r)) /\
    exists M : positive,
      Z.pos M = 4 * Z.pos q + c /\
      Z.pos (digits2_pos M) = Z.pos (digits2_pos q) + 2 /\
      SF64div (S754_finite false mx ex) (S754_finite false mw ew)
        = round_aux64 false (Z.pos M) (ex - ew - 55) loc_Exact.
Proof.
  intros Hdx Hdw Hex Hew.
  unfold SF64div, SFdiv. rewrite (SFdiv_core_53 mx mw ex ew Hdx Hdw Hex Hew).
  cbn [xorb].
  pose proof (digits2_pos_bounds mx) as [Hxlo Hxhi]. rewrite Hdx in Hxlo, Hxhi.
  pose proof (digits2_pos_bounds mw) as [Hwlo Hwhi]. rewrite Hdw in Hwlo, Hwhi.
  change (53 - 1) with 52 in Hxlo, Hwlo.
  pose proof (Z.div_mod (Z.pos mx * 2 ^ 53) (Z.pos mw) ltac:(lia)) as Hdm.
  pose proof (Z.mod_pos_bound (Z.pos mx * 2 ^ 53) (Z.pos mw) ltac:(lia)) as Hr.
  set (q := Z.pos mx * 2 ^ 53 / Z.pos mw) in *.
  set (r := (Z.pos mx * 2 ^ 53) mod Z.pos mw) in *.
  assert (Hq52 : 2 ^ 52 <= q).
  { apply Z.div_le_lower_bound; [lia |].
    change (2 ^ 53) with (2 * 2 ^ 52) at 1.
    change (2 ^ 53) with 9007199254740992 in *. change (2 ^ 52) with 4503599627370496 in *.
    nia. }
  assert (Hq54 : q < 2 ^ 54).
  { apply Z.div_lt_upper_bound; [lia |].
    change (2 ^ 54) with (2 * 2 ^ 53).
    change (2 ^ 53) with 9007199254740992 in *. change (2 ^ 52) with 4503599627370496 in *.
    nia. }
  destruct q as [| qp | qp] eqn:Eq; [lia | | lia].
  assert (Hdq : 53 <= Z.pos (digits2_pos qp) <= 54).
  { pose proof (digits2_pos_bounds qp) as [Hlo Hhi]. split.
    - assert (H : 2 ^ 52 < 2 ^ Z.pos (digits2_pos qp)) by lia.
      apply pow2_lt_inv in H; lia.
    - assert (H : 2 ^ (Z.pos (digits2_pos qp) - 1) < 2 ^ 54) by lia.
      apply pow2_lt_inv in H; lia. }
  destruct (new_location_code qp (Z.pos mw) r ltac:(lia) Hr) as (c & HM & Hc).
  exists qp, r, c. split; [lia |]. split; [exact Hr |]. split; [exact Hdq |].
  split; [exact Hc |].
  exists (loc_bits qp (new_location (Z.pos mw) r)).
  split; [exact HM |]. split; [apply loc_bits_digits |].
  rewrite round_aux_loc by (rewrite fexp64_eq; lia).
  f_equal. lia.
Qed.

Lemma rescale_le (u v a b c : Z) :
  0 < b -> 0 <= c -> u * b <= v * (a * b) -> u * c <= v * (a * c).
Proof.
  intros Hb Hc H. assert (H1 : u <= v * a).
  { apply Z.mul_le_mono_pos_r with b; [exact Hb |]. lia. }
  rewrite Z.mul_assoc. apply Z.mul_le_mono_nonneg_r; assumption.
Qed.

Lemma rescale_le' (u v a b c : Z) :
  0 < b -> 0 <= c -> u * (a * b) <= v * b -> u * (a * c) <= v * c.
Proof.
  intros Hb Hc H. assert (H1 : u * a <= v).
  { apply Z.mul_le_mono_pos_r with b; [exact Hb |]. lia. }
  rewrite Z.mul_assoc. apply Z.mul_le_mono_nonneg_r; assumption.
Qed.

(** Two quotients by [mw] on the same grid: the lower one is below the
    midpoint above the integer [K] to which the higher one rounds. *)
Lemma same_grid_le (mw q r c q' r' c' A A' K : Z) :
  0 < mw -> 0 < A -> 0 < A' -> 0 <= r < mw -> 0 <= r' < mw ->
  (c = 0 /\ r = 0) \/ (c = 1 /\ 0 < 2 * r < mw) \/ (c = 2 /\ 2 * r = mw) \/
  (c = 3 /\ mw < 2 * r) ->
  (c' = 0 /\ r' = 0) \/ (c' = 1 /\ 0 < 2 * r' < mw) \/ (c' = 2 /\ 2 * r' = mw) \/
  (c' = 3 /\ mw < 2 * r') ->
  (q * mw + r) * A' <= (q' * mw + r') * A ->
  2 * (4 * q' + c') < (2 * K + 1) * (4 * A') \/
  (2 * (4 * q' + c') = (2 * K + 1) * (4 * A') /\ Z.even K = true) ->
  2 * (4 * q + c) < (2 * K + 1) * (4 * A) \/
  (2 * (4 * q + c) = (2 * K + 1) * (4 * A) /\ Z.even K = true).
Proof.
  intros Hmw HA HA' Hr Hr' Hc Hc' Hval Hmid.
  destruct (position_bits_threshold q mw r c ((2 * K + 1) * A) Hmw Hr Hc) as [Hle Heq].
  destruct (position_bits_threshold q' mw r' c' ((2 * K + 1) * A') Hmw Hr' Hc')
    as [Hle' Heq'].
  set (S := q * mw + r) in *. set (S' := q' * mw + r') in *.
  set (M := 4 * q + c) in *. set (M' := 4 * q' + c') in *.
  clearbody S S' M M'. clear Hc Hc' Hr Hr'.
  assert (HleM' : M' <= 2 * ((2 * K + 1) * A')) by (destruct Hmid; lia).
  apply Hle' in HleM'.
  assert (H1 : 2 * S' * A <= (2 * K + 1) * A' * mw * A)
    by (apply Z.mul_le_mono_nonneg_r; lia).
  assert (H2 : 2 * S * A' <= (2 * K + 1) * A * mw * A') by lia.
  assert (HleS : 2 * S <= (2 * K + 1) * A * mw).
  { apply Z.mul_le_mono_pos_r with A'; [exact HA' | exact H2]. }
  apply Hle in HleS.
  destruct (Z.eq_dec M (2 * ((2 * K + 1) * A))) as [EM | NM]; [| left; lia].
  right. split; [lia |]. apply Heq in EM.
  assert (EM' : 2 * S' = (2 * K + 1) * A' * mw).
  { apply Z.mul_cancel_r with A; [lia |].
    assert (2 * S * A' = (2 * K + 1) * A * mw * A') by (rewrite EM; ring).
    lia. }
  apply Heq' in EM'. destruct Hmid as [Hlt | [_ Hev]]; [lia | exact Hev].
Qed.

(** The binary64 quotient by a fixed integer is monotone in the
    numerator. *)
Lemma div_mono (x x' w : Z) :
  0 <= x <= x' -> x' < w -> w < 2 ^ 53 ->
  uval (Prim2SF (float64_of_int x / float64_of_int w))
    <= uval (Prim2SF (float64_of_int x' / float64_of_int w)).
Proof.
  intros Hx Hx' Hw. rewrite !div_spec.
  destruct (Prim2SF_of_int_pos w ltac:(lia)) as (mw & ew & -> & Hew & Hmw & Hdw).
  destruct (Z.eq_dec x 0) as [-> | Hx0].
  { assert (E : Prim2SF (float64_of_int 0) = S754_zero false) by reflexivity.
    rewrite E. apply uval_nonneg. }
  destruct (Prim2SF_of_int_pos x ltac:(lia)) as (mx & ex & -> & Hex & Hmx & Hdx).
  destruct (Prim2SF_of_int_pos x' ltac:(lia)) as (mx' & ex' & -> & Hex' & Hmx' & Hdx').
  destruct (SFdiv_53 mx mw ex ew Hdx Hdw Hex Hew)
    as (q & r & c & HS & Hr & Hdq & Hc & M & HM & HdM & ->).
  destruct (SFdiv_53 mx' mw ex' ew Hdx' Hdw Hex' Hew)
    as (q' & r' & c' & HS' & Hr' & Hdq' & Hc' & M' & HM' & HdM' & ->).
  set (d := Z.pos (digits2_pos q)) in *. set (d' := Z.pos (digits2_pos q')) in *.
  set (E := d + ex - ew - 106). set (E' := d' + ex' - ew - 106).
  assert (HE : fexp64 (Z.pos (digits2_pos M) + (ex - ew - 55)) = E)
    by (rewrite HdM, fexp64_eq; unfold E; lia).
  assert (HE' : fexp64 (Z.pos (digits2_pos M') + (ex' - ew - 55)) = E')
    by (rewrite HdM', fexp64_eq; unfold E'; lia).
  destruct (round_aux_value M (ex - ew - 55)) as [_ ->]; [rewrite HE; unfold E; lia.. |].
  destruct (round_aux_value M' (ex' - ew - 55)) as [_ ->]; [rewrite HE'; unfold E'; lia.. |].
  rewrite HE, HE'.
  set (k := Z.to_nat (E - (ex - ew - 55))). set (k' := Z.to_nat (E' - (ex' - ew - 55))).
  assert (Hk : Z.of_nat k = d - 51) by (unfold k, E; lia).
  assert (Hk' : Z.of_nat k' = d' - 51) by (unfold k', E'; lia).
  pose proof (digits2_pos_bounds q) as [Hqlo Hqhi]. fold d in Hqlo, Hqhi.
  pose proof (digits2_pos_bounds q') as [Hqlo' Hqhi']. fold d' in Hqlo', Hqhi'.
  pose proof (digits2_pos_bounds mw) as [Hwlo Hwhi]. rewrite Hdw in Hwlo, Hwhi.
  pose proof (pow2_pos (- ex) ltac:(lia)) as HPx.
  pose proof (pow2_pos (- ex') ltac:(lia)) as HPx'.
  (* the order of the numerators, on the mantissas *)
  assert (Hval : Z.pos mx * 2 ^ (- ex') <= Z.pos mx' * 2 ^ (- ex)).
  { rewrite Hmx, Hmx'.
    replace (x * 2 ^ (- ex) * 2 ^ (- ex')) with (x * (2 ^ (- ex) * 2 ^ (- ex'))) by ring.
    replace (x' * 2 ^ (- ex') * 2 ^ (- ex)) with (x' * (2 ^ (- ex) * 2 ^ (- ex'))) by ring.
    apply Z.mul_le_mono_nonneg_r; nia. }
  (* the magnitudes of the quotients are in the same order *)
  assert (Hmag : E <= E').
  { unfold E, E'.
    assert (H : 2 ^ (d - 1 + - ex') < 2 ^ (d' + - ex)).
    { rewrite !pow2_split by lia.
      assert (H1 : 2 ^ (d - 1) * 2 ^ (- ex') <= Z.pos q * 2 ^ (- ex'))
        by (apply Z.mul_le_mono_nonneg_r; lia).
      assert (H2 : (Z.pos q' + 1) * 2 ^ (- ex) <= 2 ^ d' * 2 ^ (- ex))
        by (apply Z.mul_le_mono_nonneg_r; lia).
      assert (H3 : Z.pos q * 2 ^ (- ex') < (Z.pos q' + 1) * 2 ^ (- ex)).
      { apply Z.mul_lt_mono_pos_r with (Z.pos mw); [lia |].
        assert (Z.pos q * Z.pos mw * 2 ^ (- ex') <= Z.pos mx * 2 ^ 53 * 2 ^ (- ex')) by nia.
        assert (Z.pos mx' * 2 ^ 53 * 2 ^ (- ex) < (Z.pos q' + 1) * Z.pos mw * 2 ^ (- ex))
          by nia.
        assert (Z.pos mx * 2 ^ 53 * 2 ^ (- ex') <= Z.pos mx' * 2 ^ 53 * 2 ^ (- ex)) by nia.
        lia. }
      lia. }
    apply pow2_lt_inv in H; lia. }
  pose proof (pow2_pos (E + 1074) ltac:(unfold E; lia)) as HPE.
  assert (HM0 : 0 <= Z.pos M) by lia. assert (HM0' : 0 <= Z.pos M') by lia.
  destruct (Z.eq_dec E E') as [EE | NE].
  - (* the same grid *)
    rewrite <- EE. apply Z.mul_le_mono_nonneg_r; [lia |].
    assert (Hex_eq : ex' - ex = d - d') by (unfold E, E' in EE; lia).
    assert (H51 : forall i, 53 <= i <= 54 -> 2 ^ (i - 51) = 4 * 2 ^ (i - 53)).
    { intros i Hi. replace (i - 51) with (2 + (i - 53)) by lia.
      rewrite pow2_split by lia. reflexivity. }
    pose proof (pow2_pos (d - 53) ltac:(lia)) as HPd.
    pose proof (pow2_pos (d' - 53) ltac:(lia)) as HPd'.
    (* the exact quotients, on a common scale *)
    assert (Hscale : Z.pos mx * 2 ^ (d' - 53) <= Z.pos mx' * 2 ^ (d - 53)).
    { clear - Hval Hex_eq Hdq Hdq' Hex Hex' HPx HPx' HPd HPd'.
      destruct (Z.le_gt_cases ex ex') as [L | L].
      - assert (P1 : 2 ^ (- ex) = 2 ^ (d - d') * 2 ^ (- ex')).
        { rewrite <- pow2_split by lia. f_equal. lia. }
        assert (P2 : 2 ^ (d - 53) = 2 ^ (d - d') * 2 ^ (d' - 53)).
        { rewrite <- pow2_split by lia. f_equal. lia. }
        rewrite P1 in Hval. rewrite P2.
        apply (rescale_le _ _ _ (2 ^ (- ex'))); [exact HPx' | lia | exact Hval].
      - assert (P1 : 2 ^ (- ex') = 2 ^ (d' - d) * 2 ^ (- ex)).
        { rewrite <- pow2_split by lia. f_equal. lia. }
        assert (P2 : 2 ^ (d' - 53) = 2 ^ (d' - d) * 2 ^ (d - 53)).
        { rewrite <- pow2_split by lia. f_equal. lia. }
        rewrite P1 in Hval. rewrite P2.
        apply (rescale_le' _ _ _ (2 ^ (- ex))); [exact HPx | lia | exact Hval]. }
    pose proof (rne_le_mid (Z.pos M') k' HM0') as Hmid.
    set (K := rne (Z.pos M') k') in *. clearbody K.
    apply rne_upper; [lia |]. rewrite Hk, (H51 d Hdq), HM.
    rewrite Hk', (H51 d' Hdq'), HM' in Hmid.
    apply (same_grid_le (Z.pos mw) (Z.pos q) r c (Z.pos q') r' c' _ (2 ^ (d' - 53)));
      try assumption; try lia.
    rewrite HS, HS'.
    replace (Z.pos mx * 2 ^ 53 * 2 ^ (d' - 53)) with (2 ^ 53 * (Z.pos mx * 2 ^ (d' - 53)))
      by ring.
    replace (Z.pos mx' * 2 ^ 53 * 2 ^ (d - 53)) with (2 ^ 53 * (Z.pos mx' * 2 ^ (d - 53)))
      by ring.
    apply Z.mul_le_mono_nonneg_l; [lia | exact Hscale].
  - (* a lower binade *)
    assert (HEE : E + 1 <= E') by lia.
    assert (Hup : rne (Z.pos M) k <= 2 ^ 53).
    { pose proof (rne_bounds (Z.pos M) k ltac:(lia)) as [_ Hhi].
      assert (Z.pos M / 2 ^ Z.of_nat k < 2 ^ 53); [| lia].
      apply Z.div_lt_upper_bound; [apply pow2_pos; lia |].
      pose proof (digits2_pos_bounds M) as [_ HMhi]. rewrite HdM in HMhi. fold d in HMhi.
      eapply Z.lt_le_trans; [exact HMhi |]. rewrite <- pow2_split by lia.
      apply Z.pow_le_mono_r; lia. }
    assert (Hlow : 2 ^ 52 <= rne (Z.pos M') k').
    { pose proof (rne_bounds (Z.pos M') k' ltac:(lia)) as [Hlo _].
      etransitivity; [| exact Hlo].
      apply Z.div_le_lower_bound; [apply pow2_pos; lia |].
      rewrite Z.mul_comm, <- pow2_split by lia.
      pose proof (digits2_pos_bounds M') as [HMlo' _]. rewrite HdM' in HMlo'. fold d' in HMlo'.
      etransitivity; [| exact HMlo']. apply Z.pow_le_mono_r; lia. }
    apply Z.le_trans with (2 ^ 53 * 2 ^ (E + 1074)).
    + apply Z.mul_le_mono_nonneg_r; lia.
    + apply Z.le_trans with (2 ^ 52 * 2 ^ (E' + 1074)).
      * change (2 ^ 53) with (2 ^ 52 * 2 ^ 1).
        rewrite <- Z.mul_assoc, <- pow2_split by (unfold E; lia).
        apply Z.mul_le_mono_nonneg_l; [lia |]. apply Z.pow_le_mono_r; lia.
      * apply Z.mul_le_mono_nonneg_r; [| exact Hlow].
        apply Z.lt_le_incl, pow2_pos. unfold E'. lia.
Qed.

Lemma SFmul_int_comm (L : spec_float) (mN : positive) (eN : Z) :
  nonneg_finite L ->
  SF64mul L (S754_finite false mN eN) = SF64mul (S754_finite false mN eN) L.
Proof.
  destruct L as [s | s | | s m e]; cbn [nonneg_finite]; try contradiction.
  - intros _. destruct s; reflexivity.
  - destruct s; [contradiction |]. intros _. unfold SF64mul, SFmul. cbn [xorb].
    rewrite Pos.mul_comm, Z.add_comm. reflexivity.
Qed.

Lemma source_coord_mono (x x' width input : Z) :
  0 <= x <= x' -> x' < width -> width < 2 ^ 53 -> 1 <= input < 2 ^ 53 ->
  source_coord x width input <= source_coord x' width input.
Proof.
  intros Hx Hx' Hw Hi. unfold source_coord, int_of_float64. rewrite !mul_spec.
  pose proof (div_below_one x width ltac:(lia) Hw) as B.
  pose proof (div_below_one x' width ltac:(lia) Hw) as B'.
  pose proof (nonneg_le_finite _ _ _ B) as [F _].
  pose proof (nonneg_le_finite _ _ _ B') as [F' _].
  destruct (Prim2SF_of_int_pos input ltac:(lia)) as (mN & eN & EN & _).
  rewrite EN, !SFmul_int_comm by assumption. rewrite <- EN.
  apply int_times_mono; try assumption.
  apply div_mono; assumption.
Qed.

(** X21: the sampler preserves order: of two target columns (or rows)
    x <= x' the one further right (down) never samples a source column
    (row) further left (up), and both computed source coordinates lie in
    [0, Ws - 1]; sizes are below 2^53 and the source is not empty. *)
Theorem sampling_preserves_order (x x' width input : Z) :
  0 <= x <= x' -> x' < width -> width < 2 ^ 53 -> 1 <= input < 2 ^ 53 ->
  0 <= source_coord x width input <= source_coord x' width input /\
  source_coord x' width input <= input - 1.
Proof.
  intros Hx Hx' Hw Hi.
  pose proof (source_coord_mono x x' width input Hx Hx' Hw Hi).
  pose proof (source_coord_inside x width input ltac:(lia) Hw Hi).
  pose proof (source_coord_inside x' width input ltac:(lia) Hw Hi).
  lia.
Qed.

Lemma sampling_preserves_order_witness :
  0 <= source_coord 14 22 22 <= source_coord 15 22 22 /\
  source_coord 15 22 22 <= 22 - 1.
Proof.
  apply (sampling_preserves_order 14 15 22 22); lia.
Defined.
